(** * ngraph backend utilities: GPU helpers and the MKLDNN primitive emitter

    A shallow embedding of
      - src/ngraph/runtime/gpu/gpu_util.cpp       (module [GpuUtil])
      - src/ngraph/runtime/cpu/mkldnn_emitter.cpp (module [Emitter])
    followed by the properties established about them (modules
    [GpuUtilFacts] and [EmitterFacts]). *)

From Stdlib Require Import ZArith QArith Lia List Bool String.
From stdpp Require Import base option list gmap.

(* ===================================================================== *)
(** * Part I: the code *)
(* ===================================================================== *)

(** ** gpu_util.cpp *)

Module GpuUtil.
Local Open Scope Z_scope.

(** ** Machine integers

    [uint64_t] and [uint32_t] values are integers in [0, 2^64) and
    [0, 2^32); every arithmetic operation of the source is followed by
    the wrap-around the C++ unsigned types perform. *)

Definition wrap64 (x : Z) : Z := x mod 2 ^ 64.
Definition wrap32 (x : Z) : Z := x mod 2 ^ 32.

(** ** [_powU64]

    The [do { ... } while (true)] loop; every iteration halves [exp], so
    64 iterations are enough for any [uint64_t] exponent.  [None] is fuel
    exhaustion and is shown below never to happen. *)

Fixpoint powU64_loop (fuel : nat) (result base exp : Z) : option Z :=
  match fuel with
  | O => None
  | S fuel' =>
      let result := if negb (Z.land exp 1 =? 0) then wrap64 (result * base) else result in
      let exp := Z.shiftr exp 1 in
      if exp =? 0 then Some result
      else powU64_loop fuel' result (wrap64 (base * base)) exp
  end.

Definition _powU64 (base exp : Z) : option Z := powU64_loop 64 1 base exp.

(** ** [_msbDeBruijnU32] and [_msbU64] *)

Definition multiply_de_Bruijn_bit_position : list Z :=
  [0; 9; 1; 10; 13; 21; 2; 29; 11; 14; 16; 18; 22; 25; 3; 30;
   8; 12; 20; 28; 15; 17; 24; 7; 19; 27; 23; 6; 26; 5; 4; 31].

Definition _msbDeBruijnU32 (v : Z) : Z :=
  let v := Z.lor v (Z.shiftr v 1) in
  let v := Z.lor v (Z.shiftr v 2) in
  let v := Z.lor v (Z.shiftr v 4) in
  let v := Z.lor v (Z.shiftr v 8) in
  let v := Z.lor v (Z.shiftr v 16) in
  nth (Z.to_nat (Z.shiftr (wrap32 (v * 0x07C4ACDD)) 27))
      multiply_de_Bruijn_bit_position 0.

Definition _msbU64 (val : Z) : Z :=
  if 0x00000000FFFFFFFF <? val
  then 32 + _msbDeBruijnU32 (wrap32 (Z.shiftr val 32))
  else _msbDeBruijnU32 (Z.land val 0xFFFFFFFF).

(** ** [_magicU32]

    The three ways the C++ function can end: it returns a pair, it throws
    [std::runtime_error], or it divides by zero (undefined behaviour,
    [d = 0]). *)

Inductive magic_result : Type :=
  | Found (magic shift : Z)
  | NotFound     (* throw std::runtime_error("Magic ... could not be found.") *)
  | DivByZero.   (* d == 0 *)

(** The test of the [if] inside the [for] loop and the magic number
    computed when it succeeds, with [pow2] already evaluated. *)
Definition magic_test (nc d pow2 : Z) : bool :=
  wrap64 (nc * wrap64 (wrap64 (d - 1) - wrap64 (pow2 - 1) mod d)) <? pow2.

Definition magic_value (d pow2 : Z) : Z :=
  wrap64 (wrap64 (wrap64 (pow2 + d) - 1) - wrap64 (pow2 - 1) mod d) / d.

(** [for (p = ...; p < 2 * nbits + 1; p++)], with [todo] the number of
    iterations that remain. *)
Fixpoint magic_loop (todo : nat) (nc d p : Z) : magic_result :=
  match todo with
  | O => NotFound
  | S todo' =>
      match _powU64 2 p with
      | None => NotFound
      | Some pow2 =>
          if magic_test nc d pow2
          then Found (magic_value d pow2) p
          else magic_loop todo' nc d (p + 1)
      end
  end.

Definition _magicU32 (nmax d : Z) : magic_result :=
  if d =? 0 then DivByZero
  else
    let nc := wrap64 (wrap64 (wrap64 (nmax + 1) / d * d) - 1) in
    let nbits := wrap64 (_msbU64 nmax + 1) in
    magic_loop (Z.to_nat (wrap64 (2 * nbits + 1))) nc d 0.

(** ** [_magicU64] and [get_magic_u64] *)

Definition magic_nmax (d : Z) : Z :=
  if d =? 3 then 0xffffffff else 0x7fffffff.

Definition _magicU64 (d : Z) : magic_result :=
  let nmax := magic_nmax d in
  match _magicU32 nmax d with
  | Found magic shift =>
      let shift := if negb (magic =? 1) then wrap64 (shift - 32) else shift in
      Found magic shift
  | r => r
  end.

Definition get_magic_u64 (divisor : Z) : magic_result := _magicU64 divisor.


(** ** Device memory *)

Inductive cudaError_t : Type :=
  | cudaSuccess | cudaErrorMemoryAllocation | cudaErrorInvalidValue.

(** The CUDA runtime, as far as [create_gpu_buffer] uses it:
    [cudaMalloc(&p, size)] returns a status and stores a device pointer
    through its first argument, or stores nothing ([None]). *)
Record cuda_runtime : Type := mk_runtime {
  cudaMalloc : Z -> cudaError_t * option Z
}.

(** The value of a [void*] variable: what was stored in it, or nothing
    yet. *)
Inductive pointer : Type :=
  | Stored (p : Z)
  | Indeterminate.

(** A call returns a value, fails with an error, or has undefined
    behaviour. *)
Inductive result (A : Type) : Type :=
  | Returns (a : A)
  | Raises (what : string)
  | UndefinedBehaviour.
Arguments Returns {A} a.
Arguments Raises {A} what.
Arguments UndefinedBehaviour {A}.

(** [return v;] reads the variable; reading one that was never assigned is
    undefined behaviour. *)
Definition return_variable (v : pointer) : result Z :=
  match v with
  | Stored p => Returns p
  | Indeterminate => UndefinedBehaviour
  end.

(** The variable is declared without a value, the status of [cudaMalloc]
    is discarded and the variable is returned as it is. *)
Definition create_gpu_buffer (rt : cuda_runtime) (buffer_size : Z) : result Z :=
  let allocated_buffer_pool := Indeterminate in
  let allocated_buffer_pool :=
    match snd (cudaMalloc rt buffer_size) with
    | Some p => Stored p
    | None => allocated_buffer_pool
    end in
  return_variable allocated_buffer_pool.

(** A device with no memory left that stores nothing, one that stores a null
    pointer when it fails, and one that hands out address 4096. *)
Definition out_of_memory : cuda_runtime :=
  mk_runtime (fun _ => (cudaErrorMemoryAllocation, None)).

Definition out_of_memory_null : cuda_runtime :=
  mk_runtime (fun _ => (cudaErrorMemoryAllocation, Some 0)).

Definition plenty_of_memory : cuda_runtime :=
  mk_runtime (fun _ => (cudaSuccess, Some 4096)).

(** ** The quantities of the magic number search, over the integers *)

(** The remainder term [d - 1 - (2^p - 1) mod d] of the test and the
    candidate magic number. *)
Definition magic_e (d p : Z) : Z := d - 1 - (2 ^ p - 1) mod d.
Definition magic_m (d p : Z) : Z := (2 ^ p + magic_e d p) / d.

(** [nc] for [nmax = 0x7fffffff]. *)
Definition nc31 (d : Z) : Z := 2 ^ 31 / d * d - 1.

(** Trial division of [2^31 + 1 = 3 * 715827883] by [k], [k + 1], ... *)
Fixpoint no_factor_from (todo : nat) (k : Z) : bool :=
  match todo with
  | O => true
  | S todo' => implb (2147483649 mod k =? 0) (k =? 3) && no_factor_from todo' (k + 1)
  end.

End GpuUtil.

(** ** mkldnn_emitter.cpp *)

(* ===================================================================== *)
(** * mkldnn_emitter.cpp *)
(* ===================================================================== *)

Module Emitter.

(** ** Vendor data (mkldnn.hpp)

    The emitter only moves these values around; they are modelled as the
    terms the source builds.  A descriptor is the vendor constructor
    applied to its arguments, every tensor descriptor tagged with the field
    of the C descriptor it fills. *)

Inductive format : Type :=
  | format_undef | format_any | format_blocked | format_x | format_nc
  | format_nchw | format_nhwc | format_chwn | format_oihw | format_goihw
  | format_other (tag : nat).

Inductive data_type : Type :=
  | data_undef | data_f32 | data_s32 | data_s16 | data_s8 | data_u8.

Inductive prop_kind : Type :=
  | forward_training | forward_scoring | forward_inference | forward
  | backward | backward_data | backward_weights | backward_bias.

Inductive algorithm : Type :=
  | convolution_auto | convolution_direct
  | pooling_max | pooling_avg_include_padding | pooling_avg_exclude_padding
  | lrn_across_channels
  | eltwise_relu | eltwise_logistic | eltwise_bounded_relu
  | vanilla_rnn | vanilla_lstm | vanilla_gru
  | algorithm_other (tag : nat).

Inductive round_mode : Type := round_nearest | round_down.

Inductive post_op : Type :=
  | post_sum (scale : Q)
  | post_eltwise (scale : Q) (alg : algorithm) (alpha beta : Q).

(** [mkldnn_blocking_desc_t], as far as [build_blocked_memory_descriptor]
    writes it. *)
Record blocking_desc : Type := mk_blocking {
  block_dims : list Z;
  strides_0 : list Z;              (* strides[0] *)
  strides_1 : list Z;              (* strides[1] *)
  padding_dims : list Z;
  offset_padding_to_data : list Z;
  offset_padding : Z
}.

Record memory_desc : Type := mk_memory_desc {
  md_ndims : Z;
  md_dims : list Z;
  md_data_type : data_type;
  md_format : format;
  md_blocking : option blocking_desc
}.

Inductive desc_field : Type :=
  | src_desc | diff_src_desc | weights_desc | diff_weights_desc
  | bias_desc | diff_bias_desc | dst_desc | diff_dst_desc
  | data_desc | diff_data_desc | mean_desc | variance_desc
  | src_layer_desc | src_iter_desc | weights_layer_desc | weights_iter_desc
  | dst_layer_desc | dst_iter_desc.

Inductive desc_arg : Type :=
  | arg_prop (k : prop_kind)
  | arg_alg (a : algorithm)
  | arg_md (f : desc_field) (md : memory_desc)
  | arg_dims (ds : list Z)
  | arg_padding_kind_zero
  | arg_real (q : Q)
  | arg_int (z : Z).

Inductive op_kind : Type :=
  | convolution_forward | convolution_backward_weights | convolution_backward_data
  | pooling_forward | pooling_backward
  | lrn_forward | eltwise_forward | eltwise_backward | softmax_forward
  | batch_normalization_forward | batch_normalization_backward
  | rnn_forward | reorder | sum | concat.

(** [mkldnn::<kind>::desc]. *)
Record op_desc : Type := mk_desc {
  od_kind : op_kind;
  od_args : list desc_arg
}.

#[export] Instance desc_field_eq_dec : EqDecision desc_field.
Proof. solve_decision. Defined.

(** Reading the C descriptor: [desc.data.<field>], [desc.data.flags] and
    [desc.data.batch_norm_epsilon].  A field the constructor was not given
    is zero-initialised. *)
Definition zero_md : memory_desc := mk_memory_desc 0 [] data_undef format_undef None.

Fixpoint field_of (f : desc_field) (args : list desc_arg) : memory_desc :=
  match args with
  | [] => zero_md
  | arg_md g md :: rest => if decide (f = g) then md else field_of f rest
  | _ :: rest => field_of f rest
  end.

Definition data (d : op_desc) (f : desc_field) : memory_desc := field_of f (od_args d).

Fixpoint first_int (args : list desc_arg) : Z :=
  match args with
  | [] => 0%Z
  | arg_int z :: _ => z
  | _ :: rest => first_int rest
  end.

Fixpoint first_real (args : list desc_arg) : Q :=
  match args with
  | [] => 0%Q
  | arg_real q :: _ => q
  | _ :: rest => first_real rest
  end.

Definition flags (d : op_desc) : Z := first_int (od_args d).
Definition batch_norm_epsilon (d : op_desc) : Q := first_real (od_args d).

(** [mkldnn::batch_normalization_flag] *)
Definition use_global_stats : Z := 1.
Definition use_scale_shift : Z := 2.

(** [mkldnn::primitive_attr], with the three setters the emitter calls.
    [None] is a value the emitter did not set. *)
Record primitive_attr : Type := mk_attr {
  attr_post_ops : option (list post_op);
  attr_output_scales : option (Z * list Q);        (* mask, scales *)
  attr_int_output_round_mode : option round_mode
}.

Definition default_attr : primitive_attr := mk_attr None None None.

Definition set_post_ops (pops : list post_op) (attr : primitive_attr) : primitive_attr :=
  mk_attr (Some pops) (attr_output_scales attr) (attr_int_output_round_mode attr).

Definition set_output_scales (mask : Z) (scales : list Q) (attr : primitive_attr)
  : primitive_attr :=
  mk_attr (attr_post_ops attr) (Some (mask, scales)) (attr_int_output_round_mode attr).

Definition set_int_output_round_mode (m : round_mode) (attr : primitive_attr)
  : primitive_attr :=
  mk_attr (attr_post_ops attr) (attr_output_scales attr) (Some m).

(** [mkldnn::<kind>::primitive_desc], by the constructor used. *)
Inductive primitive_desc : Type :=
  (* memory::primitive_desc(md, engine) *)
  | pd_memory (md : memory_desc)
  (* <kind>::primitive_desc(desc, [attr,] engine [, hint_fwd_pd]) *)
  | pd_op (d : op_desc) (attr : option primitive_attr) (hint : option op_desc)
  (* reorder::primitive_desc(input, output [, attr]) *)
  | pd_reorder (input output : memory_desc) (attr : option primitive_attr)
  (* reorder::primitive_desc(view::primitive_desc(input, dims, offsets)
                               .dst_primitive_desc(), output) *)
  | pd_reorder_view (input : memory_desc) (view_dims offsets : list Z)
                    (output : memory_desc)
  (* view::primitive_desc(input, dims, offsets).dst_primitive_desc() *)
  | pd_view_dst (input : memory_desc) (view_dims offsets : list Z)
  (* sum::primitive_desc(dst, scales, inputs) *)
  | pd_sum (dst : memory_desc) (scales : list Q) (inputs : list memory_desc)
  (* concat::primitive_desc(dst, concat_dimension, inputs) *)
  | pd_concat (dst : memory_desc) (concat_dim : Z) (inputs : list memory_desc).

(** Objects created with [new] are named by the order of their creation. *)
Definition obj : Type := nat.

(** What [new mkldnn::<kind>(...)] was given: a memory primitive with no
    data handle, or a compute primitive with the objects it is bound to. *)
Inductive primitive : Type :=
  | memory (md : memory_desc)
  | compute (k : op_kind) (pd : option primitive_desc) (operands : list obj).

(** Every call into the vendor library that can throw [mkldnn::error]. *)
Inductive vendor_call : Type :=
  | call_memory_desc (dims : list Z) (dt : data_type) (fmt : format)
  | call_primitive_desc (pd : primitive_desc)
  | call_primitive (p : primitive).

(** ngraph element types ([ngraph/type/element_type.hpp]). *)
Inductive element_type : Type :=
  | element_boolean | element_bf16 | element_f32 | element_f64
  | element_i8 | element_i16 | element_i32 | element_i64
  | element_u8 | element_u16 | element_u32 | element_u64.

Record TensorViewWrapper : Type := mk_tvw {
  get_shape : list Z;
  get_element_type : element_type
}.

(** The behaviour of everything outside the two source files: the vendor
    library and [mkldnn_utils]. *)
Record vendor : Type := mk_vendor {
  (* [Some message]: the call throws [mkldnn::error] with that message *)
  rejects : vendor_call -> option string;
  (* [pd.workspace_primitive_desc().desc()] and [.get_size()] *)
  workspace_md : primitive_desc -> memory_desc;
  workspace_get_size : primitive_desc -> Z;
  (* [pd.dst_primitive_desc().desc()] *)
  dst_md : primitive_desc -> memory_desc;
  (* [mkldnn_utils::can_use_conv_auto()] *)
  can_use_conv_auto : bool;
  (* [mkldnn_utils::get_mkldnn_data_type]; [inl message] throws ngraph_error *)
  get_mkldnn_data_type : element_type -> string + data_type;
  (* TENSOR_MAX_DIMS, the length of the arrays of [mkldnn_memory_desc_t] *)
  TENSOR_MAX_DIMS : nat
}.

(** ** Integer conversions *)

(** [mkldnn::memory::dims] is [std::vector<int>]; building it from a
    range of [size_t] or [ptrdiff_t] narrows every element to [int]. *)
Definition to_int (z : Z) : Z := ((z + 2 ^ 31) mod 2 ^ 32 - 2 ^ 31)%Z.
Definition dims (l : list Z) : list Z := map to_int l.

(** ** Exceptions and the state of the emitter *)

Inductive exn : Type :=
  | ngraph_error (what : string)
  | mkldnn_error (message : string)
  | std_out_of_range.

(** [MKLDNNWorkspace] owns one buffer of the requested size. *)
Record MKLDNNWorkspace : Type := mk_workspace {
  buf : nat;
  workspace_size : Z
}.

Record emitter : Type := mk_emitter {
  m_mkldnn_primitives : list (option obj);          (* [None] is nullptr *)
  m_workspaces : list MKLDNNWorkspace;
  m_workspace_bufs : list nat;
  m_primitive_deps : gmap nat (list nat);
  (* the free store: every primitive object created so far *)
  heap : list primitive;
  (* number of workspace buffers allocated so far *)
  next_buf : nat
}.

Definition empty_emitter : emitter := mk_emitter [] [] [] ∅ [] 0.

(** A member function either returns, throws, or has undefined behaviour
    (an out-of-range [operator[]] or a null dereference). *)
Inductive outcome (A : Type) : Type :=
  | Ok (a : A) (st : emitter)
  | Throw (e : exn) (st : emitter)
  | Undefined.
Arguments Ok {A} a st.
Arguments Throw {A} e st.
Arguments Undefined {A}.

Definition M (A : Type) : Type := emitter -> outcome A.

Definition ret {A} (a : A) : M A := fun st => Ok a st.

Definition bind {A B} (m : M A) (f : A -> M B) : M B :=
  fun st => match m st with
            | Ok a st' => f a st'
            | Throw e st' => Throw e st'
            | Undefined => Undefined
            end.

Definition throw {A} (e : exn) : M A := fun st => Throw e st.

(** [try { body } catch (const mkldnn::error& e) { handler }] *)
Definition catch_mkldnn_error {A} (body : M A) (handler : string -> M A) : M A :=
  fun st => match body st with
            | Throw (mkldnn_error message) st' => handler message st'
            | r => r
            end.

Notation "x <- m ;; k" := (bind m (fun x => k))
  (at level 100, m at next level, right associativity).
Notation "'run' m ;; k" := (bind m (fun _ => k))
  (at level 100, m at next level, right associativity).

Section WithVendor.
Variable V : vendor.

(** ** Access to the members *)

Definition with_primitives (f : list (option obj) -> list (option obj)) (st : emitter)
  : emitter :=
  mk_emitter (f (m_mkldnn_primitives st)) (m_workspaces st) (m_workspace_bufs st)
             (m_primitive_deps st) (heap st) (next_buf st).

Definition with_deps (f : gmap nat (list nat) -> gmap nat (list nat)) (st : emitter)
  : emitter :=
  mk_emitter (m_mkldnn_primitives st) (m_workspaces st) (m_workspace_bufs st)
             (f (m_primitive_deps st)) (heap st) (next_buf st).

(** The free store after [new] has created [p]. *)
Definition alloc (p : primitive) (st : emitter) : emitter :=
  mk_emitter (m_mkldnn_primitives st) (m_workspaces st) (m_workspace_bufs st)
             (m_primitive_deps st) (heap st ++ [p]) (next_buf st).

Definition bump_buf (st : emitter) : emitter :=
  mk_emitter (m_mkldnn_primitives st) (m_workspaces st) (m_workspace_bufs st)
             (m_primitive_deps st) (heap st) (S (next_buf st)).

Definition push_workspace (workspace : MKLDNNWorkspace) (st : emitter) : emitter :=
  mk_emitter (m_mkldnn_primitives st)
             (m_workspaces st ++ [workspace])
             (m_workspace_bufs st ++ [buf workspace])
             (m_primitive_deps st) (heap st) (next_buf st).

(** [m_mkldnn_primitives.size()] *)
Definition primitives_size : M nat :=
  fun st => Ok (length (m_mkldnn_primitives st)) st.

(** [m_mkldnn_primitives.resize(n, nullptr)] *)
Definition primitives_resize (n : nat) : M unit :=
  fun st => Ok tt (with_primitives
                     (fun l => take n l ++ replicate (n - length l) None) st).

(** [m_mkldnn_primitives[index] = p]; out of range is undefined. *)
Definition primitives_store (index : nat) (p : option obj) : M unit :=
  fun st => if decide (index < length (m_mkldnn_primitives st))
            then Ok tt (with_primitives (fun l => <[index := p]> l) st)
            else Undefined.

(** [*m_mkldnn_primitives[index]]; out of range and nullptr are undefined. *)
Definition primitives_deref (index : nat) : M obj :=
  fun st => match m_mkldnn_primitives st !! index with
            | Some (Some o) => Ok o st
            | _ => Undefined
            end.

(** [m_primitive_deps[index] = l] *)
Definition deps_assign (index : nat) (l : list nat) : M unit :=
  fun st => Ok tt (with_deps (fun m => <[index := l]> m) st).

(** [m_primitive_deps[index][i]].  A missing key makes [operator[]] insert
    an empty vector, whose element [i] does not exist: undefined, as is
    every [i] past the end of a recorded vector. *)
Definition deps_at (index i : nat) : M nat :=
  fun st => match m_primitive_deps st !! index with
            | Some l => match l !! i with
                        | Some v => Ok v st
                        | None => Undefined
                        end
            | None => Undefined
            end.

(** [m_primitive_deps[index][i] = v] *)
Definition deps_store_at (index i v : nat) : M unit :=
  fun st => match m_primitive_deps st !! index with
            | Some l => if decide (i < length l)
                        then Ok tt (with_deps (fun m => <[index := <[i := v]> l]> m) st)
                        else Undefined
            | None => Undefined
            end.

(** [m_primitive_deps[index].push_back(v)] *)
Definition deps_push_back (index v : nat) : M unit :=
  fun st => Ok tt (with_deps
                     (fun m => <[index := default [] (m !! index) ++ [v]]> m) st).

(** [new mkldnn::<kind>(...)]: the vendor constructor may throw; otherwise
    the object is added to the free store and its address returned. *)
Definition new_primitive (p : primitive) : M (option obj) :=
  fun st => match rejects V (call_primitive p) with
            | Some message => Throw (mkldnn_error message) st
            | None => Ok (Some (length (heap st))) (alloc p st)
            end.

(** A primitive descriptor constructed in a statement of its own. *)
Definition new_primitive_desc (pd : primitive_desc) : M primitive_desc :=
  fun st => match rejects V (call_primitive_desc pd) with
            | Some message => Throw (mkldnn_error message) st
            | None => Ok pd st
            end.

(** [new MKLDNNWorkspace(size)] *)
Definition new_workspace (size : Z) : M MKLDNNWorkspace :=
  fun st => Ok (mk_workspace (next_buf st) size) (bump_buf st).

(** ** The destructor

    [delete p] for every element of [m_mkldnn_primitives] in order
    ([delete nullptr] does nothing), then, unless [_WIN32] is defined,
    [mkl_serv_free_buffers()]. *)

Inductive teardown_event : Type :=
  | Release (o : obj)
  | FreeVendorBuffers.

Definition delete_all (l : list (option obj)) : list teardown_event :=
  omap (fun p => Release <$> p) l.

Definition destructor (WIN32 : bool) (st : emitter) : list teardown_event :=
  delete_all (m_mkldnn_primitives st)
  ++ (if WIN32 then [] else [FreeVendorBuffers]).

(** ** Registry *)

Definition get_mkldnn_primitives : M (list (option obj)) :=
  fun st => Ok (m_mkldnn_primitives st) st.

Definition get_mkldnn_workspaces : M (list nat) :=
  fun st => Ok (m_workspace_bufs st) st.

Definition insert_primitive (primitive : option obj) : M nat :=
  fun st =>
    let st' := with_primitives (fun l => l ++ [primitive]) st in
    Ok (length (m_mkldnn_primitives st') - 1) st'.

Definition insert_workspace (workspace : MKLDNNWorkspace) : M nat :=
  fun st =>
    let st' := push_workspace workspace st in
    Ok (length (m_workspaces st') - 1) st'.

(** [m_primitive_deps.at(index)] *)
Definition get_primitive_deps (index : nat) : M (list nat) :=
  fun st => match m_primitive_deps st !! index with
            | Some l => Ok l st
            | None => Throw std_out_of_range st
            end.

(** ** Memory descriptors

    These are [const] members that do not touch the registry: they either
    throw or return a descriptor. *)

(** [mkldnn::memory::desc(dims, data_type, format)] *)
Definition memory_desc_of (ds : list Z) (dt : data_type) (fmt : format)
  : exn + memory_desc :=
  match rejects V (call_memory_desc ds dt fmt) with
  | Some message => inl (mkldnn_error message)
  | None => inr (mk_memory_desc (Z.of_nat (length ds)) ds dt fmt None)
  end.

Definition build_memory_descriptor_tvw (tvw : TensorViewWrapper) (fmt : format)
  : exn + memory_desc :=
  match fmt with
  | format_blocked => inl (ngraph_error "Cannot created blocked descriptor.")
  | _ =>
      match get_mkldnn_data_type V (get_element_type tvw) with
      | inl what => inl (ngraph_error what)
      | inr dt => memory_desc_of (dims (get_shape tvw)) dt fmt
      end
  end.

Definition build_memory_descriptor (shape : list Z) (et : element_type) (fmt : format)
  : exn + memory_desc :=
  match fmt with
  | format_blocked => inl (ngraph_error "Cannot created blocked descriptor")
  | _ =>
      match get_mkldnn_data_type V et with
      | inl what => inl (ngraph_error what)
      | inr dt => memory_desc_of (dims shape) dt fmt
      end
  end.

(** The loop writes [dim.size()] elements of the fixed-size arrays of
    [md] and reads as many of [strides]; [None] is the undefined behaviour
    of running past either. *)
Definition build_blocked_memory_descriptor (dim strides : list Z) (dtype : data_type)
  : option memory_desc :=
  if decide (length dim <= TENSOR_MAX_DIMS V /\ length dim <= length strides)
  then Some (mk_memory_desc
               (to_int (Z.of_nat (length dim))) dim dtype format_blocked
               (Some (mk_blocking
                        (map (fun _ => 1%Z) dim)
                        (take (length dim) strides)
                        (map (fun _ => 1%Z) dim)
                        dim
                        (map (fun _ => 0%Z) dim)
                        0%Z)))
  else None.

(** ** Memory primitives *)

Definition build_memory_primitive (desc : memory_desc) : M nat :=
  p <- new_primitive (memory desc) ;;
  index <- insert_primitive p ;;
  ret index.

Definition build_memory_primitive_at (desc : memory_desc) (index : nat) : M unit :=
  p <- new_primitive (memory desc) ;;
  primitives_store index p.

(** ** Vendor descriptor constructors, as the source calls them *)

Definition conv_geometry (strides dilates padding_l padding_r : list Z) : list desc_arg :=
  [arg_dims (dims strides); arg_dims (dims dilates);
   arg_dims (dims padding_l); arg_dims (dims padding_r); arg_padding_kind_zero].

Definition bias_arg (f : desc_field) (bias : option memory_desc) : list desc_arg :=
  match bias with Some b => [arg_md f b] | None => [] end.

Definition convolution_forward_desc (prop : prop_kind) (alg : algorithm)
    (src weights : memory_desc) (bias : option memory_desc) (dst : memory_desc)
    (strides dilates padding_l padding_r : list Z) : op_desc :=
  mk_desc convolution_forward
    ([arg_prop prop; arg_alg alg; arg_md src_desc src; arg_md weights_desc weights]
     ++ bias_arg bias_desc bias ++ [arg_md dst_desc dst]
     ++ conv_geometry strides dilates padding_l padding_r).

Definition convolution_backward_weights_desc (alg : algorithm)
    (src diff_weights : memory_desc) (diff_bias : option memory_desc)
    (diff_dst : memory_desc) (strides dilates padding_l padding_r : list Z) : op_desc :=
  mk_desc convolution_backward_weights
    ([arg_alg alg; arg_md src_desc src; arg_md diff_weights_desc diff_weights]
     ++ bias_arg diff_bias_desc diff_bias ++ [arg_md diff_dst_desc diff_dst]
     ++ conv_geometry strides dilates padding_l padding_r).

Definition convolution_backward_data_desc (alg : algorithm)
    (diff_src weights diff_dst : memory_desc)
    (strides dilates padding_l padding_r : list Z) : op_desc :=
  mk_desc convolution_backward_data
    ([arg_alg alg; arg_md diff_src_desc diff_src; arg_md weights_desc weights;
      arg_md diff_dst_desc diff_dst]
     ++ conv_geometry strides dilates padding_l padding_r).

Definition pooling_forward_desc (prop : prop_kind) (alg : algorithm)
    (src dst : memory_desc) (strides kernel padding_l padding_r : list Z) : op_desc :=
  mk_desc pooling_forward
    ([arg_prop prop; arg_alg alg; arg_md src_desc src; arg_md dst_desc dst]
     ++ conv_geometry strides kernel padding_l padding_r).

Definition pooling_backward_desc (alg : algorithm)
    (diff_src diff_dst : memory_desc) (strides kernel padding_l padding_r : list Z)
  : op_desc :=
  mk_desc pooling_backward
    ([arg_alg alg; arg_md diff_src_desc diff_src; arg_md diff_dst_desc diff_dst]
     ++ conv_geometry strides kernel padding_l padding_r).

Definition lrn_forward_desc (prop : prop_kind) (alg : algorithm) (src : memory_desc)
    (local_size : Z) (alpha beta k : Q) : op_desc :=
  mk_desc lrn_forward
    [arg_prop prop; arg_alg alg; arg_md data_desc src; arg_int local_size;
     arg_real alpha; arg_real beta; arg_real k].

Definition eltwise_forward_desc (prop : prop_kind) (alg : algorithm) (src : memory_desc)
    (alpha beta : Q) : op_desc :=
  mk_desc eltwise_forward
    [arg_prop prop; arg_alg alg; arg_md data_desc src; arg_real alpha; arg_real beta].

Definition eltwise_backward_desc (alg : algorithm) (diff_data data_d : memory_desc)
    (alpha beta : Q) : op_desc :=
  mk_desc eltwise_backward
    [arg_alg alg; arg_md diff_data_desc diff_data; arg_md data_desc data_d;
     arg_real alpha; arg_real beta].

Definition softmax_forward_desc (prop : prop_kind) (data_d : memory_desc) (axis : Z)
  : op_desc :=
  mk_desc softmax_forward [arg_prop prop; arg_md data_desc data_d; arg_int axis].

Definition batch_normalization_forward_desc (prop : prop_kind) (src : memory_desc)
    (epsilon : Q) (fl : Z) : op_desc :=
  mk_desc batch_normalization_forward
    [arg_prop prop; arg_md data_desc src; arg_real epsilon; arg_int fl].

Definition batch_normalization_backward_desc (prop : prop_kind)
    (diff_data data_d : memory_desc) (epsilon : Q) (fl : Z) : op_desc :=
  mk_desc batch_normalization_backward
    [arg_prop prop; arg_md diff_data_desc diff_data; arg_md data_desc data_d;
     arg_real epsilon; arg_int fl].

Definition rnn_forward_desc (prop : prop_kind) (cell : algorithm) (direction : Z)
    (src_layer src_iter weights_layer weights_iter bias dst_layer dst_iter : memory_desc)
  : op_desc :=
  mk_desc rnn_forward
    [arg_prop prop; arg_alg cell; arg_int direction;
     arg_md src_layer_desc src_layer; arg_md src_iter_desc src_iter;
     arg_md weights_layer_desc weights_layer; arg_md weights_iter_desc weights_iter;
     arg_md bias_desc bias; arg_md dst_layer_desc dst_layer;
     arg_md dst_iter_desc dst_iter].

Definition convolution_algo : algorithm :=
  if can_use_conv_auto V then convolution_auto else convolution_direct.

(** ** Quantize reorder *)

Definition build_quantize_reorder (input_desc result_desc : memory_desc)
    (scales : list Q) : M nat :=
  input_index <- build_memory_primitive input_desc ;;
  result_index <- build_memory_primitive result_desc ;;
  let attr := default_attr in
  let attr := set_output_scales 0 scales attr in
  let attr := set_int_output_round_mode round_nearest attr in
  reorder_desc <- new_primitive_desc (pd_reorder input_desc result_desc (Some attr)) ;;
  i <- primitives_deref input_index ;;
  r <- primitives_deref result_index ;;
  p <- new_primitive (compute reorder (Some reorder_desc) [i; r]) ;;
  primitive_index <- insert_primitive p ;;
  run deps_assign primitive_index [input_index; result_index] ;;
  ret primitive_index.

Definition build_quantize_reorder_at (input_desc result_desc : memory_desc)
    (scales : list Q) (quantize_index : nat) (mask : Z) : M unit :=
  input_index <- deps_at quantize_index 0 ;;
  run build_memory_primitive_at input_desc input_index ;;
  result_index <- deps_at quantize_index 1 ;;
  run build_memory_primitive_at result_desc result_index ;;
  let attr := default_attr in
  let attr := set_output_scales mask scales attr in
  let attr := set_int_output_round_mode round_nearest attr in
  reorder_desc <- new_primitive_desc (pd_reorder input_desc result_desc (Some attr)) ;;
  i <- primitives_deref input_index ;;
  r <- primitives_deref result_index ;;
  p <- new_primitive (compute reorder (Some reorder_desc) [i; r]) ;;
  primitives_store quantize_index p.

(** [node] is a Dequantize whose second argument is a Constant holding
    [v] ([scale_const_op = Some v]) or is not a Constant ([None]). *)
Definition build_dequantization (scale_const_op : option (list Q))
    (input_desc result_desc : memory_desc) : M nat :=
  let scale := match scale_const_op with Some v => v | None => [1%Q] end in
  match scale with
  | [] => fun _ => Undefined                                  (* scale[0] *)
  | scale_0 :: _ =>
      let scales := [scale_0] in
      dequantize_index <- build_quantize_reorder input_desc result_desc scales ;;
      ret dequantize_index
  end.

(** ** Convolution *)

Definition build_convolution_forward (input_data_desc weights_desc result_desc : memory_desc)
    (strides dilation_strides padding_below padding_above : list Z)
    (pops : list post_op) : M nat :=
  input_data_index <- build_memory_primitive input_data_desc ;;
  weights_index <- build_memory_primitive weights_desc ;;
  result_index <- build_memory_primitive result_desc ;;
  let conv_attr := set_post_ops pops default_attr in
  catch_mkldnn_error
    (i <- primitives_deref input_data_index ;;
     w <- primitives_deref weights_index ;;
     r <- primitives_deref result_index ;;
     conv_prim <- new_primitive
       (compute convolution_forward
          (Some (pd_op (convolution_forward_desc forward convolution_algo
                          input_data_desc weights_desc None result_desc
                          strides dilation_strides padding_below padding_above)
                       (Some conv_attr) None))
          [i; w; r]) ;;
     conv_index <- insert_primitive conv_prim ;;
     run deps_assign conv_index [input_data_index; weights_index; result_index] ;;
     ret conv_index)
    (fun message =>
       throw (ngraph_error ("Could not create mkldnn convolution " ++ message))).

Definition quantized_conv_attr (pops : list post_op) (scale : Q) : primitive_attr :=
  let output_scale := [scale] in
  let conv_attr := set_post_ops pops default_attr in
  let conv_attr := set_int_output_round_mode round_nearest conv_attr in
  set_output_scales 0 output_scale conv_attr.

Definition build_quantized_convolution_forward
    (input_data_desc weights_desc result_desc : memory_desc)
    (strides dilation_strides padding_below padding_above : list Z)
    (scale : Q) (pops : list post_op) : M nat :=
  input_data_index <- build_memory_primitive input_data_desc ;;
  weights_index <- build_memory_primitive weights_desc ;;
  result_index <- build_memory_primitive result_desc ;;
  let conv_attr := quantized_conv_attr pops scale in
  i <- primitives_deref input_data_index ;;
  w <- primitives_deref weights_index ;;
  r <- primitives_deref result_index ;;
  p <- new_primitive
    (compute convolution_forward
       (Some (pd_op (convolution_forward_desc forward convolution_algo
                       input_data_desc weights_desc None result_desc
                       strides dilation_strides padding_below padding_above)
                    (Some conv_attr) None))
       [i; w; r]) ;;
  conv_index <- insert_primitive p ;;
  run deps_assign conv_index [input_data_index; weights_index; result_index] ;;
  ret conv_index.

Definition build_quantized_convolution_forward_bias
    (input_data_desc weights_desc bias_d result_desc : memory_desc)
    (strides dilation_strides padding_below padding_above : list Z)
    (scale : Q) (pops : list post_op) : M nat :=
  input_data_index <- build_memory_primitive input_data_desc ;;
  weights_index <- build_memory_primitive weights_desc ;;
  bias_index <- build_memory_primitive bias_d ;;
  result_index <- build_memory_primitive result_desc ;;
  let conv_attr := quantized_conv_attr pops scale in
  i <- primitives_deref input_data_index ;;
  w <- primitives_deref weights_index ;;
  b <- primitives_deref bias_index ;;
  r <- primitives_deref result_index ;;
  p <- new_primitive
    (compute convolution_forward
       (Some (pd_op (convolution_forward_desc forward convolution_algo
                       input_data_desc weights_desc (Some bias_d) result_desc
                       strides dilation_strides padding_below padding_above)
                    (Some conv_attr) None))
       [i; w; b; r]) ;;
  conv_index <- insert_primitive p ;;
  run deps_assign conv_index [input_data_index; weights_index; bias_index; result_index] ;;
  ret conv_index.

Definition build_convolution_forward_bias
    (input_data_desc weights_desc bias_d result_desc : memory_desc)
    (strides dilation_strides padding_below padding_above : list Z)
    (pops : list post_op) : M nat :=
  input_data_index <- build_memory_primitive input_data_desc ;;
  weights_index <- build_memory_primitive weights_desc ;;
  bias_index <- build_memory_primitive bias_d ;;
  result_index <- build_memory_primitive result_desc ;;
  let conv_attr := set_post_ops pops default_attr in
  catch_mkldnn_error
    (i <- primitives_deref input_data_index ;;
     w <- primitives_deref weights_index ;;
     b <- primitives_deref bias_index ;;
     r <- primitives_deref result_index ;;
     p <- new_primitive
       (compute convolution_forward
          (Some (pd_op (convolution_forward_desc forward convolution_algo
                          input_data_desc weights_desc (Some bias_d) result_desc
                          strides dilation_strides padding_below padding_above)
                       (Some conv_attr) None))
          [i; w; b; r]) ;;
     conv_index <- insert_primitive p ;;
     run deps_assign conv_index
           [input_data_index; weights_index; bias_index; result_index] ;;
     ret conv_index)
    (fun message => throw (ngraph_error ("Could not create convolution " ++ message))).

Definition build_convolution_backward_weights_bias
    (in_data_desc in_delta_desc out_weights_delta_desc out_bias_delta_desc : memory_desc)
    (ng_strides ng_dilation_strides ng_padding_below ng_padding_above : list Z) : M nat :=
  in_data_index <- build_memory_primitive in_data_desc ;;
  in_delta_index <- build_memory_primitive in_delta_desc ;;
  out_weights_delta_index <- build_memory_primitive out_weights_delta_desc ;;
  out_bias_delta_index <- build_memory_primitive out_bias_delta_desc ;;
  let fwd_desc :=
    convolution_forward_desc forward convolution_algo in_data_desc
      out_weights_delta_desc (Some out_bias_delta_desc) in_delta_desc
      ng_strides ng_dilation_strides ng_padding_below ng_padding_above in
  fwd_pd <- new_primitive_desc (pd_op fwd_desc None None) ;;
  bwd_pd <- new_primitive_desc
    (pd_op (convolution_backward_weights_desc convolution_algo in_data_desc
              out_weights_delta_desc (Some out_bias_delta_desc) in_delta_desc
              ng_strides ng_dilation_strides ng_padding_below ng_padding_above)
           None (Some fwd_desc)) ;;
  a <- primitives_deref in_data_index ;;
  b <- primitives_deref in_delta_index ;;
  c <- primitives_deref out_weights_delta_index ;;
  d <- primitives_deref out_bias_delta_index ;;
  p <- new_primitive (compute convolution_backward_weights (Some bwd_pd) [a; b; c; d]) ;;
  conv_index <- insert_primitive p ;;
  run deps_assign conv_index
        [in_data_index; in_delta_index; out_weights_delta_index; out_bias_delta_index] ;;
  ret conv_index.

Definition build_convolution_backward_weights_bias_at
    (bwd_desc fwd_desc : op_desc) (conv_index : nat) : M unit :=
  in_data_index <- deps_at conv_index 0 ;;
  run build_memory_primitive_at (data bwd_desc src_desc) in_data_index ;;
  in_delta_index <- deps_at conv_index 1 ;;
  run build_memory_primitive_at (data bwd_desc diff_dst_desc) in_delta_index ;;
  out_weights_delta_index <- deps_at conv_index 2 ;;
  run build_memory_primitive_at (data bwd_desc diff_weights_desc) out_weights_delta_index ;;
  out_bias_delta_index <- deps_at conv_index 3 ;;
  run build_memory_primitive_at (data bwd_desc diff_bias_desc) out_bias_delta_index ;;
  fwd_pd <- new_primitive_desc (pd_op fwd_desc None None) ;;
  bwd_pd <- new_primitive_desc (pd_op bwd_desc None (Some fwd_desc)) ;;
  a <- primitives_deref in_data_index ;;
  b <- primitives_deref in_delta_index ;;
  c <- primitives_deref out_weights_delta_index ;;
  d <- primitives_deref out_bias_delta_index ;;
  p <- new_primitive (compute convolution_backward_weights (Some bwd_pd) [a; b; c; d]) ;;
  primitives_store conv_index p.

Definition build_convolution_backward_weights
    (input_desc delta_desc result_desc : memory_desc)
    (strides dilation_strides padding_below padding_above : list Z) : M nat :=
  input_index <- build_memory_primitive input_desc ;;
  delta_index <- build_memory_primitive delta_desc ;;
  result_index <- build_memory_primitive result_desc ;;
  a <- primitives_deref input_index ;;
  b <- primitives_deref delta_index ;;
  c <- primitives_deref result_index ;;
  p <- new_primitive
    (compute convolution_backward_weights
       (Some (pd_op (convolution_backward_weights_desc convolution_algo
                       input_desc result_desc None delta_desc
                       strides dilation_strides padding_below padding_above)
                    None
                    (Some (convolution_forward_desc forward convolution_algo
                             input_desc result_desc None delta_desc
                             strides dilation_strides padding_below padding_above))))
       [a; b; c]) ;;
  primitive_index <- insert_primitive p ;;
  run deps_assign primitive_index [input_index; delta_index; result_index] ;;
  ret primitive_index.

Definition build_convolution_backward_weights_at
    (bwd_desc fwd_desc : op_desc) (conv_index : nat) : M unit :=
  in_data_index <- deps_at conv_index 0 ;;
  run build_memory_primitive_at (data bwd_desc src_desc) in_data_index ;;
  in_delta_index <- deps_at conv_index 1 ;;
  run build_memory_primitive_at (data bwd_desc diff_dst_desc) in_delta_index ;;
  out_weights_delta_index <- deps_at conv_index 2 ;;
  run build_memory_primitive_at (data bwd_desc diff_weights_desc) out_weights_delta_index ;;
  a <- primitives_deref in_data_index ;;
  b <- primitives_deref in_delta_index ;;
  c <- primitives_deref out_weights_delta_index ;;
  p <- new_primitive
    (compute convolution_backward_weights
       (Some (pd_op bwd_desc None (Some fwd_desc))) [a; b; c]) ;;
  primitives_store conv_index p.

Definition build_convolution_backward_data
    (weights_d delta_desc result_desc : memory_desc)
    (strides dilation_strides padding_below padding_above : list Z) : M nat :=
  weights_index <- build_memory_primitive weights_d ;;
  delta_index <- build_memory_primitive delta_desc ;;
  result_index <- build_memory_primitive result_desc ;;
  a <- primitives_deref delta_index ;;
  b <- primitives_deref weights_index ;;
  c <- primitives_deref result_index ;;
  p <- new_primitive
    (compute convolution_backward_data
       (Some (pd_op (convolution_backward_data_desc convolution_algo
                       result_desc weights_d delta_desc
                       strides dilation_strides padding_below padding_above)
                    None
                    (Some (convolution_forward_desc forward convolution_algo
                             result_desc weights_d None delta_desc
                             strides dilation_strides padding_below padding_above))))
       [a; b; c]) ;;
  primitive_index <- insert_primitive p ;;
  run deps_assign primitive_index [weights_index; delta_index; result_index] ;;
  ret primitive_index.

Definition build_convolution_backward_data_at
    (bwd_desc fwd_desc : op_desc) (conv_index : nat) : M unit :=
  weights_index <- deps_at conv_index 0 ;;
  run build_memory_primitive_at (data bwd_desc weights_desc) weights_index ;;
  delta_index <- deps_at conv_index 1 ;;
  run build_memory_primitive_at (data bwd_desc diff_dst_desc) delta_index ;;
  result_index <- deps_at conv_index 2 ;;
  run build_memory_primitive_at (data bwd_desc diff_src_desc) result_index ;;
  a <- primitives_deref delta_index ;;
  b <- primitives_deref weights_index ;;
  c <- primitives_deref result_index ;;
  p <- new_primitive
    (compute convolution_backward_data
       (Some (pd_op bwd_desc None (Some fwd_desc))) [a; b; c]) ;;
  primitives_store conv_index p.

(** ** Pooling *)

Definition build_pooling_forward (pooling_algorithm : algorithm)
    (input_desc result_desc : memory_desc)
    (window_strides window_shape padding_below padding_above : list Z) : M nat :=
  input_index <- build_memory_primitive input_desc ;;
  result_index <- build_memory_primitive result_desc ;;
  i <- primitives_deref input_index ;;
  r <- primitives_deref result_index ;;
  p <- new_primitive
    (compute pooling_forward
       (Some (pd_op (pooling_forward_desc forward_inference pooling_algorithm
                       input_desc result_desc
                       window_strides window_shape padding_below padding_above)
                    None None))
       [i; r]) ;;
  primitive_index <- insert_primitive p ;;
  run deps_assign primitive_index [input_index; result_index] ;;
  ret primitive_index.

Definition build_pooling_forward_at (pool_desc : op_desc) (pool_index : nat) : M unit :=
  input_index <- deps_at pool_index 0 ;;
  run build_memory_primitive_at (data pool_desc src_desc) input_index ;;
  result_index <- deps_at pool_index 1 ;;
  run build_memory_primitive_at (data pool_desc dst_desc) result_index ;;
  i <- primitives_deref input_index ;;
  r <- primitives_deref result_index ;;
  p <- new_primitive (compute pooling_forward (Some (pd_op pool_desc None None)) [i; r]) ;;
  primitives_store pool_index p.

(** The [node] arguments of the two quantized pooling builders, as far as
    they are read. *)
Record pool_node : Type := mk_pool_node {
  get_input_mkldnn_md : memory_desc;
  get_output_mkldnn_md : memory_desc;
  get_window_movement_strides : list Z;
  get_window_shape : list Z;
  get_padding_below : list Z;
  get_padding_above : list Z;
  get_include_padding_in_avg_computation : bool
}.

Definition build_quantized_max_pool (node : pool_node) : M nat :=
  let input_desc := get_input_mkldnn_md node in
  let result_desc := get_output_mkldnn_md node in
  qmax_pool_index <- build_pooling_forward pooling_max input_desc result_desc
    (get_window_movement_strides node) (get_window_shape node)
    (get_padding_below node) (get_padding_above node) ;;
  ret qmax_pool_index.

Definition build_quantized_avg_pool (node : pool_node) : M nat :=
  let input_desc := get_input_mkldnn_md node in
  let result_desc := get_output_mkldnn_md node in
  qavg_pool_index <- build_pooling_forward
    (if get_include_padding_in_avg_computation node
     then pooling_avg_include_padding else pooling_avg_exclude_padding)
    input_desc result_desc
    (get_window_movement_strides node) (get_window_shape node)
    (get_padding_below node) (get_padding_above node) ;;
  ret qavg_pool_index.

Definition build_pooling_backward (pooling_algorithm : algorithm)
    (diff_dst_d diff_src_d : memory_desc)
    (window_strides window_shape padding_below padding_above : list Z) : M nat :=
  input_index <- build_memory_primitive diff_dst_d ;;
  result_index <- build_memory_primitive diff_src_d ;;
  i <- primitives_deref input_index ;;
  r <- primitives_deref result_index ;;
  p <- new_primitive
    (compute pooling_backward
       (Some (pd_op (pooling_backward_desc pooling_algorithm diff_src_d diff_dst_d
                       window_strides window_shape padding_below padding_above)
                    None
                    (Some (pooling_forward_desc forward_training pooling_algorithm
                             diff_src_d diff_dst_d
                             window_strides window_shape padding_below padding_above))))
       [i; r]) ;;
  primitive_index <- insert_primitive p ;;
  run deps_assign primitive_index [input_index; result_index] ;;
  ret primitive_index.

Definition build_pooling_backward_at (pool_desc pool_fwd_desc : op_desc)
    (pool_index : nat) : M unit :=
  input_index <- deps_at pool_index 0 ;;
  run build_memory_primitive_at (data pool_desc diff_dst_desc) input_index ;;
  result_index <- deps_at pool_index 1 ;;
  run build_memory_primitive_at (data pool_desc diff_src_desc) result_index ;;
  pool_fwd_pd <- new_primitive_desc (pd_op pool_fwd_desc None None) ;;
  pool_pd <- new_primitive_desc (pd_op pool_desc None (Some pool_fwd_desc)) ;;
  i <- primitives_deref input_index ;;
  r <- primitives_deref result_index ;;
  p <- new_primitive (compute pooling_backward (Some pool_pd) [i; r]) ;;
  primitives_store pool_index p.

Definition build_max_pooling_backward (pooling_algorithm : algorithm)
    (fprop_src_desc diff_dst_d diff_src_d : memory_desc)
    (window_strides window_shape padding_below padding_above : list Z) : M nat :=
  fprop_src_index <- build_memory_primitive fprop_src_desc ;;
  diff_dst_index <- build_memory_primitive diff_dst_d ;;
  diff_src_index <- build_memory_primitive diff_src_d ;;
  let fwd_desc :=
    pooling_forward_desc forward_training pooling_algorithm diff_src_d diff_dst_d
      window_strides window_shape padding_below padding_above in
  fwd_pd <- new_primitive_desc (pd_op fwd_desc None None) ;;
  ws_index <- build_memory_primitive (workspace_md V fwd_pd) ;;
  ws <- new_workspace (workspace_get_size V fwd_pd) ;;
  ws_buf_index <- insert_workspace ws ;;
  a <- primitives_deref fprop_src_index ;;
  b <- primitives_deref diff_src_index ;;
  c <- primitives_deref ws_index ;;
  pf <- new_primitive (compute pooling_forward (Some fwd_pd) [a; b; c]) ;;
  fwd_primitive_index <- insert_primitive pf ;;
  d <- primitives_deref diff_dst_index ;;
  e <- primitives_deref ws_index ;;
  f <- primitives_deref diff_src_index ;;
  pb <- new_primitive
    (compute pooling_backward
       (Some (pd_op (pooling_backward_desc pooling_algorithm diff_src_d diff_dst_d
                       window_strides window_shape padding_below padding_above)
                    None (Some fwd_desc)))
       [d; e; f]) ;;
  bwd_primitive_index <- insert_primitive pb ;;
  run deps_assign fwd_primitive_index
        [fprop_src_index; diff_src_index; ws_index; ws_buf_index] ;;
  run deps_assign bwd_primitive_index
        [diff_dst_index; ws_index; diff_src_index; ws_buf_index] ;;
  ret bwd_primitive_index.

Definition build_max_pooling_backward_at (bwd_pool_desc fwd_pool_desc : op_desc)
    (fprop_src_desc : memory_desc) (fwd_pool_index bwd_pool_index : nat) : M unit :=
  fprop_src_index <- deps_at fwd_pool_index 0 ;;
  run build_memory_primitive_at fprop_src_desc fprop_src_index ;;
  diff_dst_index <- deps_at bwd_pool_index 0 ;;
  run build_memory_primitive_at (data bwd_pool_desc diff_dst_desc) diff_dst_index ;;
  diff_src_index <- deps_at fwd_pool_index 1 ;;
  run build_memory_primitive_at (data bwd_pool_desc diff_src_desc) diff_src_index ;;
  run deps_store_at bwd_pool_index 2 diff_src_index ;;
  fwd_pd <- new_primitive_desc (pd_op fwd_pool_desc None None) ;;
  ws_index <- deps_at fwd_pool_index 1 ;;
  run build_memory_primitive_at (workspace_md V fwd_pd) ws_index ;;
  run deps_store_at bwd_pool_index 1 ws_index ;;
  ws <- new_workspace (workspace_get_size V fwd_pd) ;;
  ws_buf_index <- insert_workspace ws ;;
  run deps_store_at fwd_pool_index 3 ws_buf_index ;;
  run deps_store_at bwd_pool_index 3 ws_buf_index ;;
  a <- primitives_deref fprop_src_index ;;
  b <- primitives_deref diff_src_index ;;
  c <- primitives_deref ws_index ;;
  pf <- new_primitive (compute pooling_forward (Some fwd_pd) [a; b; c]) ;;
  run primitives_store fwd_pool_index pf ;;
  d <- primitives_deref diff_dst_index ;;
  e <- primitives_deref ws_index ;;
  f <- primitives_deref diff_src_index ;;
  pb <- new_primitive
    (compute pooling_backward (Some (pd_op bwd_pool_desc None (Some fwd_pool_desc)))
       [d; e; f]) ;;
  primitives_store bwd_pool_index pb.

Definition build_max_pooling_with_indices_forward (pooling_algorithm : algorithm)
    (src_d dst_d : memory_desc)
    (window_strides window_shape padding_below padding_above : list Z) : M nat :=
  src_index <- build_memory_primitive src_d ;;
  dst_index <- build_memory_primitive dst_d ;;
  fwd_pd <- new_primitive_desc
    (pd_op (pooling_forward_desc forward_training pooling_algorithm src_d dst_d
              window_strides window_shape padding_below padding_above)
           None None) ;;
  ws_index <- build_memory_primitive (workspace_md V fwd_pd) ;;
  a <- primitives_deref src_index ;;
  b <- primitives_deref dst_index ;;
  c <- primitives_deref ws_index ;;
  p <- new_primitive (compute pooling_forward (Some fwd_pd) [a; b; c]) ;;
  fwd_primitive_index <- insert_primitive p ;;
  run deps_assign fwd_primitive_index [src_index; dst_index; ws_index] ;;
  ret fwd_primitive_index.

Definition build_max_pooling_with_indices_forward_at (max_pool_desc : op_desc)
    (max_pool_index : nat) : M unit :=
  src_index <- deps_at max_pool_index 0 ;;
  run build_memory_primitive_at (data max_pool_desc src_desc) src_index ;;
  dst_index <- deps_at max_pool_index 1 ;;
  run build_memory_primitive_at (data max_pool_desc dst_desc) dst_index ;;
  fwd_pd <- new_primitive_desc (pd_op max_pool_desc None None) ;;
  ws_index <- deps_at max_pool_index 2 ;;
  run build_memory_primitive_at (workspace_md V fwd_pd) ws_index ;;
  a <- primitives_deref src_index ;;
  b <- primitives_deref dst_index ;;
  c <- primitives_deref ws_index ;;
  p <- new_primitive (compute pooling_forward (Some fwd_pd) [a; b; c]) ;;
  primitives_store max_pool_index p.

Definition build_max_pooling_with_indices_backward (pooling_algorithm : algorithm)
    (diff_dst_d diff_src_d : memory_desc)
    (window_strides window_shape padding_below padding_above : list Z) : M nat :=
  diff_dst_index <- build_memory_primitive diff_dst_d ;;
  diff_src_index <- build_memory_primitive diff_src_d ;;
  let fwd_desc :=
    pooling_forward_desc forward_training pooling_algorithm diff_src_d diff_dst_d
      window_strides window_shape padding_below padding_above in
  fwd_pd <- new_primitive_desc (pd_op fwd_desc None None) ;;
  fprop_ws_index <- build_memory_primitive (workspace_md V fwd_pd) ;;
  a <- primitives_deref diff_dst_index ;;
  b <- primitives_deref fprop_ws_index ;;
  c <- primitives_deref diff_src_index ;;
  p <- new_primitive
    (compute pooling_backward
       (Some (pd_op (pooling_backward_desc pooling_algorithm diff_src_d diff_dst_d
                       window_strides window_shape padding_below padding_above)
                    None (Some fwd_desc)))
       [a; b; c]) ;;
  bwd_primitive_index <- insert_primitive p ;;
  run deps_assign bwd_primitive_index [diff_dst_index; fprop_ws_index; diff_src_index] ;;
  ret bwd_primitive_index.

Definition build_max_pooling_with_indices_backward_at (bwd_pool_desc fwd_pool_desc : op_desc)
    (max_pool_index : nat) : M unit :=
  diff_dst_index <- deps_at max_pool_index 0 ;;
  run build_memory_primitive_at (data bwd_pool_desc diff_dst_desc) diff_dst_index ;;
  diff_src_index <- deps_at max_pool_index 2 ;;
  run build_memory_primitive_at (data bwd_pool_desc diff_src_desc) diff_src_index ;;
  fwd_pd <- new_primitive_desc (pd_op fwd_pool_desc None None) ;;
  fprop_ws_index <- deps_at max_pool_index 1 ;;
  run build_memory_primitive_at (workspace_md V fwd_pd) fprop_ws_index ;;
  a <- primitives_deref diff_dst_index ;;
  b <- primitives_deref fprop_ws_index ;;
  c <- primitives_deref diff_src_index ;;
  p <- new_primitive
    (compute pooling_backward (Some (pd_op bwd_pool_desc None (Some fwd_pool_desc)))
       [a; b; c]) ;;
  primitives_store max_pool_index p.

(** ** Reorder, LRN and the element-wise primitives *)

Definition build_reorder (input_desc result_desc : memory_desc) : M nat :=
  input_index <- build_memory_primitive input_desc ;;
  result_index <- build_memory_primitive result_desc ;;
  catch_mkldnn_error
    (i <- primitives_deref input_index ;;
     r <- primitives_deref result_index ;;
     p <- new_primitive (compute reorder None [i; r]) ;;
     primitive_index <- insert_primitive p ;;
     run deps_assign primitive_index [input_index; result_index] ;;
     ret primitive_index)
    (fun message =>
       throw (ngraph_error ("Could not create mkldnn primitive " ++ message))).

Definition build_reorder_at (input_desc result_desc : memory_desc) (reorder_index : nat)
  : M unit :=
  input_index <- deps_at reorder_index 0 ;;
  run build_memory_primitive_at input_desc input_index ;;
  result_index <- deps_at reorder_index 1 ;;
  run build_memory_primitive_at result_desc result_index ;;
  i <- primitives_deref input_index ;;
  r <- primitives_deref result_index ;;
  p <- new_primitive (compute reorder None [i; r]) ;;
  primitives_store reorder_index p.

Definition build_lrn_forward (input_desc result_desc : memory_desc)
    (alpha beta bias : Q) (nsize : Z) : M nat :=
  input_index <- build_memory_primitive input_desc ;;
  result_index <- build_memory_primitive result_desc ;;
  let lrn_desc :=
    lrn_forward_desc forward_scoring lrn_across_channels input_desc nsize alpha beta bias in
  lrn_prim_desc <- new_primitive_desc (pd_op lrn_desc None None) ;;
  i <- primitives_deref input_index ;;
  r <- primitives_deref result_index ;;
  p <- new_primitive (compute lrn_forward (Some lrn_prim_desc) [i; r]) ;;
  primitive_index <- insert_primitive p ;;
  run deps_assign primitive_index [input_index; result_index] ;;
  ret primitive_index.

Definition build_lrn_forward_at (lrn_desc : op_desc) (lrn_index : nat) : M unit :=
  input_index <- deps_at lrn_index 0 ;;
  run build_memory_primitive_at (data lrn_desc data_desc) input_index ;;
  result_index <- deps_at lrn_index 1 ;;
  run build_memory_primitive_at (data lrn_desc data_desc) result_index ;;
  lrn_prim_desc <- new_primitive_desc (pd_op lrn_desc None None) ;;
  i <- primitives_deref input_index ;;
  r <- primitives_deref result_index ;;
  p <- new_primitive (compute lrn_forward (Some lrn_prim_desc) [i; r]) ;;
  primitives_store lrn_index p.

Definition build_relu_forward (input_desc result_desc : memory_desc) : M nat :=
  input_index <- build_memory_primitive input_desc ;;
  result_index <- build_memory_primitive result_desc ;;
  let negative_slope := 0%Q in
  let relu_desc := eltwise_forward_desc forward eltwise_relu input_desc negative_slope 0 in
  relu_pd <- new_primitive_desc (pd_op relu_desc None None) ;;
  i <- primitives_deref input_index ;;
  r <- primitives_deref result_index ;;
  p <- new_primitive (compute eltwise_forward (Some relu_pd) [i; r]) ;;
  primitive_index <- insert_primitive p ;;
  run deps_assign primitive_index [input_index; result_index] ;;
  ret primitive_index.

Definition build_relu_forward_at (relu_desc : op_desc) (relu_index : nat) : M unit :=
  input_index <- deps_at relu_index 0 ;;
  run build_memory_primitive_at (data relu_desc data_desc) input_index ;;
  result_index <- deps_at relu_index 1 ;;
  run build_memory_primitive_at (data relu_desc data_desc) result_index ;;
  i <- primitives_deref input_index ;;
  r <- primitives_deref result_index ;;
  p <- new_primitive (compute eltwise_forward (Some (pd_op relu_desc None None)) [i; r]) ;;
  primitives_store relu_index p.

Definition build_relu_backward (input_desc delta_desc result_desc : memory_desc) : M nat :=
  input_index <- build_memory_primitive input_desc ;;
  delta_index <- build_memory_primitive delta_desc ;;
  result_index <- build_memory_primitive result_desc ;;
  let negative_slope := 0%Q in
  let relu_desc := eltwise_forward_desc forward eltwise_relu input_desc negative_slope 0 in
  relu_pd <- new_primitive_desc (pd_op relu_desc None None) ;;
  let relu_bwd_desc :=
    eltwise_backward_desc eltwise_relu result_desc input_desc negative_slope 0 in
  relu_bwd_pd <- new_primitive_desc (pd_op relu_bwd_desc None (Some relu_desc)) ;;
  a <- primitives_deref input_index ;;
  b <- primitives_deref delta_index ;;
  c <- primitives_deref result_index ;;
  p <- new_primitive (compute eltwise_backward (Some relu_bwd_pd) [a; b; c]) ;;
  primitive_index <- insert_primitive p ;;
  run deps_assign primitive_index [input_index; delta_index; result_index] ;;
  ret primitive_index.

Definition build_relu_backward_at (bwd_desc fwd_desc : op_desc) (relu_index : nat)
  : M unit :=
  input_index <- deps_at relu_index 0 ;;
  run build_memory_primitive_at (data bwd_desc data_desc) input_index ;;
  delta_index <- deps_at relu_index 1 ;;
  run build_memory_primitive_at (data bwd_desc diff_data_desc) delta_index ;;
  result_index <- deps_at relu_index 2 ;;
  run build_memory_primitive_at (data bwd_desc data_desc) result_index ;;
  relu_pd <- new_primitive_desc (pd_op fwd_desc None None) ;;
  relu_bwd_pd <- new_primitive_desc (pd_op bwd_desc None (Some fwd_desc)) ;;
  a <- primitives_deref input_index ;;
  b <- primitives_deref delta_index ;;
  c <- primitives_deref result_index ;;
  p <- new_primitive (compute eltwise_backward (Some relu_bwd_pd) [a; b; c]) ;;
  primitives_store relu_index p.

Definition build_sigmoid_forward (input_desc result_desc : memory_desc) : M nat :=
  input_index <- build_memory_primitive input_desc ;;
  result_index <- build_memory_primitive result_desc ;;
  i <- primitives_deref input_index ;;
  r <- primitives_deref result_index ;;
  p <- new_primitive
    (compute eltwise_forward
       (Some (pd_op (eltwise_forward_desc forward_training eltwise_logistic input_desc 0 0)
                    None None))
       [i; r]) ;;
  primitive_index <- insert_primitive p ;;
  run deps_assign primitive_index [input_index; result_index] ;;
  ret primitive_index.

Definition build_sigmoid_forward_at (sigmoid_desc : op_desc) (sigmoid_index : nat) : M unit :=
  input_index <- deps_at sigmoid_index 0 ;;
  run build_memory_primitive_at (data sigmoid_desc data_desc) input_index ;;
  result_index <- deps_at sigmoid_index 1 ;;
  run build_memory_primitive_at (data sigmoid_desc data_desc) result_index ;;
  i <- primitives_deref input_index ;;
  r <- primitives_deref result_index ;;
  p <- new_primitive (compute eltwise_forward (Some (pd_op sigmoid_desc None None)) [i; r]) ;;
  primitives_store sigmoid_index p.

Definition build_sigmoid_backward (input_desc delta_desc result_desc : memory_desc)
  : M nat :=
  input_index <- build_memory_primitive input_desc ;;
  delta_index <- build_memory_primitive delta_desc ;;
  result_index <- build_memory_primitive result_desc ;;
  let fwd_desc := eltwise_forward_desc forward eltwise_logistic input_desc 0 0 in
  sigmoid_fwd_pd <- new_primitive_desc (pd_op fwd_desc None None) ;;
  a <- primitives_deref input_index ;;
  b <- primitives_deref delta_index ;;
  c <- primitives_deref result_index ;;
  p <- new_primitive
    (compute eltwise_backward
       (Some (pd_op (eltwise_backward_desc eltwise_logistic delta_desc input_desc 0 0)
                    None (Some fwd_desc)))
       [a; b; c]) ;;
  primitive_index <- insert_primitive p ;;
  run deps_assign primitive_index [input_index; delta_index; result_index] ;;
  ret primitive_index.

Definition build_sigmoid_backward_at (bwd_desc fwd_desc : op_desc) (sigmoid_index : nat)
  : M unit :=
  input_index <- deps_at sigmoid_index 0 ;;
  run build_memory_primitive_at (data bwd_desc data_desc) input_index ;;
  delta_index <- deps_at sigmoid_index 1 ;;
  run build_memory_primitive_at (data bwd_desc diff_data_desc) delta_index ;;
  result_index <- deps_at sigmoid_index 2 ;;
  run build_memory_primitive_at (data bwd_desc data_desc) result_index ;;
  sigmoid_fwd_pd <- new_primitive_desc (pd_op fwd_desc None None) ;;
  a <- primitives_deref input_index ;;
  b <- primitives_deref delta_index ;;
  c <- primitives_deref result_index ;;
  p <- new_primitive
    (compute eltwise_backward (Some (pd_op bwd_desc None (Some fwd_desc))) [a; b; c]) ;;
  primitives_store sigmoid_index p.

Definition build_elementwise_add (input0_data_desc input1_data_desc result_desc : memory_desc)
    (scale_vector : list Q) (inputs_pd : list memory_desc) : M nat :=
  input0_data_index <- build_memory_primitive input0_data_desc ;;
  input1_data_index <- build_memory_primitive input1_data_desc ;;
  result_index <- build_memory_primitive result_desc ;;
  a <- primitives_deref input0_data_index ;;
  b <- primitives_deref input1_data_index ;;
  sum_pd <- new_primitive_desc (pd_sum result_desc scale_vector inputs_pd) ;;
  r <- primitives_deref result_index ;;
  p <- new_primitive (compute sum (Some sum_pd) [a; b; r]) ;;
  add_index <- insert_primitive p ;;
  run deps_assign add_index [input0_data_index; input1_data_index; result_index] ;;
  ret add_index.

Definition build_elementwise_add_at (sum_pd : primitive_desc) (add_index : nat) : M unit :=
  input0_data_index <- deps_at add_index 0 ;;
  run build_memory_primitive_at (dst_md V sum_pd) input0_data_index ;;
  input1_data_index <- deps_at add_index 1 ;;
  run build_memory_primitive_at (dst_md V sum_pd) input1_data_index ;;
  result_index <- deps_at add_index 2 ;;
  run build_memory_primitive_at (dst_md V sum_pd) result_index ;;
  a <- primitives_deref input0_data_index ;;
  b <- primitives_deref input1_data_index ;;
  r <- primitives_deref result_index ;;
  p <- new_primitive (compute sum (Some sum_pd) [a; b; r]) ;;
  primitives_store add_index p.

(** ** Batch normalisation *)

Definition build_batchnorm_forward
    (input_desc weights_d result_desc mean_d variance_d : memory_desc)
    (eps : Q) (use_global_stats_arg bn_training_flag : bool) (pops : list post_op)
  : M nat :=
  input_index <- build_memory_primitive input_desc ;;
  weights_index <- build_memory_primitive weights_d ;;
  result_index <- build_memory_primitive result_desc ;;
  mean_index <- build_memory_primitive mean_d ;;
  variance_index <- build_memory_primitive variance_d ;;
  let bn_attr := set_post_ops pops default_attr in
  if bn_training_flag && negb use_global_stats_arg
  then
    a <- primitives_deref input_index ;;
    b <- primitives_deref weights_index ;;
    c <- primitives_deref result_index ;;
    d <- primitives_deref mean_index ;;
    e <- primitives_deref variance_index ;;
    p <- new_primitive
      (compute batch_normalization_forward
         (Some (pd_op (batch_normalization_forward_desc forward_training input_desc eps
                         use_scale_shift)
                      (Some bn_attr) None))
         [a; b; c; d; e]) ;;
    batchnorm_index <- insert_primitive p ;;
    run deps_assign batchnorm_index
          [input_index; weights_index; result_index; mean_index; variance_index] ;;
    ret batchnorm_index
  else
    a <- primitives_deref input_index ;;
    b <- primitives_deref mean_index ;;
    c <- primitives_deref variance_index ;;
    d <- primitives_deref weights_index ;;
    e <- primitives_deref result_index ;;
    p <- new_primitive
      (compute batch_normalization_forward
         (Some (pd_op (batch_normalization_forward_desc forward_training input_desc eps
                         (Z.lor use_scale_shift use_global_stats))
                      (Some bn_attr) None))
         [a; b; c; d; e]) ;;
    batchnorm_index <- insert_primitive p ;;
    run deps_assign batchnorm_index
          [input_index; mean_index; variance_index; weights_index; result_index] ;;
    ret batchnorm_index.

Definition build_batchnorm_forward_at (batchnorm_desc : op_desc) (weights_d : memory_desc)
    (bn_training_flag : bool) (batchnorm_index : nat) (pops : list post_op) : M unit :=
  input_index <- deps_at batchnorm_index 0 ;;
  run build_memory_primitive_at (data batchnorm_desc data_desc) input_index ;;
  let bn_attr := set_post_ops pops default_attr in
  let use_global_stats_bit := Z.land (flags batchnorm_desc) 1 in
  if bn_training_flag && (use_global_stats_bit =? 0)%Z
  then
    weights_index <- deps_at batchnorm_index 1 ;;
    run build_memory_primitive_at weights_d weights_index ;;
    result_index <- deps_at batchnorm_index 2 ;;
    run build_memory_primitive_at (data batchnorm_desc data_desc) result_index ;;
    mean_index <- deps_at batchnorm_index 3 ;;
    run build_memory_primitive_at (data batchnorm_desc mean_desc) mean_index ;;
    variance_index <- deps_at batchnorm_index 4 ;;
    run build_memory_primitive_at (data batchnorm_desc variance_desc) variance_index ;;
    a <- primitives_deref input_index ;;
    b <- primitives_deref weights_index ;;
    c <- primitives_deref result_index ;;
    d <- primitives_deref mean_index ;;
    e <- primitives_deref variance_index ;;
    p <- new_primitive
      (compute batch_normalization_forward
         (Some (pd_op batchnorm_desc (Some bn_attr) None)) [a; b; c; d; e]) ;;
    primitives_store batchnorm_index p
  else
    weights_index <- deps_at batchnorm_index 3 ;;
    run build_memory_primitive_at weights_d weights_index ;;
    result_index <- deps_at batchnorm_index 4 ;;
    run build_memory_primitive_at (data batchnorm_desc data_desc) result_index ;;
    mean_index <- deps_at batchnorm_index 1 ;;
    run build_memory_primitive_at (data batchnorm_desc mean_desc) mean_index ;;
    variance_index <- deps_at batchnorm_index 2 ;;
    run build_memory_primitive_at (data batchnorm_desc variance_desc) variance_index ;;
    a <- primitives_deref input_index ;;
    b <- primitives_deref mean_index ;;
    c <- primitives_deref variance_index ;;
    d <- primitives_deref weights_index ;;
    e <- primitives_deref result_index ;;
    p <- new_primitive
      (compute batch_normalization_forward
         (Some (pd_op batchnorm_desc (Some bn_attr) None)) [a; b; c; d; e]) ;;
    primitives_store batchnorm_index p.

Definition build_batchnorm_backward
    (weights_d input_desc mean_d variance_d delta_desc dinput_desc dweights_desc
       : memory_desc) (eps : Q) : M nat :=
  weights_index <- build_memory_primitive weights_d ;;
  input_index <- build_memory_primitive input_desc ;;
  mean_index <- build_memory_primitive mean_d ;;
  variance_index <- build_memory_primitive variance_d ;;
  delta_index <- build_memory_primitive delta_desc ;;
  dinput_index <- build_memory_primitive dinput_desc ;;
  dweights_index <- build_memory_primitive dweights_desc ;;
  a <- primitives_deref input_index ;;
  b <- primitives_deref mean_index ;;
  c <- primitives_deref variance_index ;;
  d <- primitives_deref delta_index ;;
  e <- primitives_deref weights_index ;;
  f <- primitives_deref dinput_index ;;
  g <- primitives_deref dweights_index ;;
  p <- new_primitive
    (compute batch_normalization_backward
       (Some (pd_op (batch_normalization_backward_desc backward delta_desc input_desc eps
                       use_scale_shift)
                    None
                    (Some (batch_normalization_forward_desc forward_training input_desc eps
                             use_scale_shift))))
       [a; b; c; d; e; f; g]) ;;
  batchnorm_index <- insert_primitive p ;;
  run deps_assign batchnorm_index
        [weights_index; input_index; mean_index; variance_index; delta_index;
         dinput_index; dweights_index] ;;
  ret batchnorm_index.

Definition build_batchnorm_backward_at (batchnorm_desc : op_desc)
    (weights_d dweights_desc : memory_desc) (batchnorm_index : nat) : M unit :=
  weights_index <- deps_at batchnorm_index 0 ;;
  run build_memory_primitive_at weights_d weights_index ;;
  input_index <- deps_at batchnorm_index 1 ;;
  run build_memory_primitive_at (data batchnorm_desc data_desc) input_index ;;
  mean_index <- deps_at batchnorm_index 2 ;;
  run build_memory_primitive_at (data batchnorm_desc mean_desc) mean_index ;;
  variance_index <- deps_at batchnorm_index 3 ;;
  run build_memory_primitive_at (data batchnorm_desc variance_desc) variance_index ;;
  delta_index <- deps_at batchnorm_index 4 ;;
  run build_memory_primitive_at (data batchnorm_desc diff_data_desc) delta_index ;;
  dinput_index <- deps_at batchnorm_index 5 ;;
  run build_memory_primitive_at (data batchnorm_desc data_desc) dinput_index ;;
  dweights_index <- deps_at batchnorm_index 6 ;;
  run build_memory_primitive_at dweights_desc dweights_index ;;
  a <- primitives_deref input_index ;;
  b <- primitives_deref mean_index ;;
  c <- primitives_deref variance_index ;;
  d <- primitives_deref delta_index ;;
  e <- primitives_deref weights_index ;;
  f <- primitives_deref dinput_index ;;
  g <- primitives_deref dweights_index ;;
  p <- new_primitive
    (compute batch_normalization_backward
       (Some (pd_op batchnorm_desc None
                    (Some (batch_normalization_forward_desc forward_training
                             (data batchnorm_desc data_desc)
                             (batch_norm_epsilon batchnorm_desc) use_scale_shift))))
       [a; b; c; d; e; f; g]) ;;
  primitives_store batchnorm_index p.

(** ** RNN *)

Definition build_rnn_forward
    (src_layer_d src_iter_d weights_layer_d weights_iter_d bias_d dst_layer_d dst_iter_d
       : memory_desc) (rnn_direction : Z) (rnn_algorithm : algorithm) : M nat :=
  src_layer_index <- build_memory_primitive src_layer_d ;;
  src_iter_index <- build_memory_primitive src_iter_d ;;
  weights_layer_index <- build_memory_primitive weights_layer_d ;;
  weights_iter_index <- build_memory_primitive weights_iter_d ;;
  bias_index <- build_memory_primitive bias_d ;;
  dst_layer_index <- build_memory_primitive dst_layer_d ;;
  dst_iter_index <- build_memory_primitive dst_iter_d ;;
  let rnn_layer_desc :=
    rnn_forward_desc forward_training rnn_algorithm rnn_direction
      src_layer_d src_iter_d weights_layer_d weights_iter_d bias_d dst_layer_d dst_iter_d in
  rnn_layer_prim_desc <- new_primitive_desc (pd_op rnn_layer_desc None None) ;;
  workspace_index <- build_memory_primitive (workspace_md V rnn_layer_prim_desc) ;;
  workspace <- new_workspace (workspace_get_size V rnn_layer_prim_desc) ;;
  workspace_buf_index <- insert_workspace workspace ;;
  a <- primitives_deref src_layer_index ;;
  b <- primitives_deref src_iter_index ;;
  c <- primitives_deref weights_layer_index ;;
  d <- primitives_deref weights_iter_index ;;
  e <- primitives_deref bias_index ;;
  f <- primitives_deref dst_layer_index ;;
  g <- primitives_deref dst_iter_index ;;
  h <- primitives_deref workspace_index ;;
  p <- new_primitive
    (compute rnn_forward (Some rnn_layer_prim_desc) [a; b; c; d; e; f; g; h]) ;;
  rnn_index <- insert_primitive p ;;
  run deps_assign rnn_index
        [src_layer_index; src_iter_index; weights_layer_index; weights_iter_index;
         bias_index; dst_layer_index; dst_iter_index; workspace_index;
         workspace_buf_index] ;;
  ret rnn_index.

Definition build_rnn_forward_at (rnn_desc : op_desc) (rnn_index : nat) : M unit :=
  src_layer_index <- deps_at rnn_index 0 ;;
  run build_memory_primitive_at (data rnn_desc src_layer_desc) src_layer_index ;;
  src_iter_index <- deps_at rnn_index 1 ;;
  run build_memory_primitive_at (data rnn_desc src_iter_desc) src_iter_index ;;
  weights_layer_index <- deps_at rnn_index 2 ;;
  run build_memory_primitive_at (data rnn_desc weights_layer_desc) weights_layer_index ;;
  weights_iter_index <- deps_at rnn_index 3 ;;
  run build_memory_primitive_at (data rnn_desc weights_iter_desc) weights_iter_index ;;
  bias_index <- deps_at rnn_index 4 ;;
  run build_memory_primitive_at (data rnn_desc bias_desc) bias_index ;;
  dst_layer_index <- deps_at rnn_index 5 ;;
  run build_memory_primitive_at (data rnn_desc dst_layer_desc) dst_layer_index ;;
  dst_iter_index <- deps_at rnn_index 6 ;;
  run build_memory_primitive_at (data rnn_desc dst_iter_desc) dst_iter_index ;;
  rnn_layer_prim_desc <- new_primitive_desc (pd_op rnn_desc None None) ;;
  workspace_index <- deps_at rnn_index 7 ;;
  run build_memory_primitive_at (workspace_md V rnn_layer_prim_desc) workspace_index ;;
  workspace <- new_workspace (workspace_get_size V rnn_layer_prim_desc) ;;
  workspace_buf_index <- insert_workspace workspace ;;
  run deps_store_at rnn_index 8 workspace_buf_index ;;
  a <- primitives_deref src_layer_index ;;
  b <- primitives_deref src_iter_index ;;
  c <- primitives_deref weights_layer_index ;;
  d <- primitives_deref weights_iter_index ;;
  e <- primitives_deref bias_index ;;
  f <- primitives_deref dst_layer_index ;;
  g <- primitives_deref dst_iter_index ;;
  h <- primitives_deref workspace_index ;;
  p <- new_primitive
    (compute rnn_forward (Some rnn_layer_prim_desc) [a; b; c; d; e; f; g; h]) ;;
  primitives_store rnn_index p.

(** ** Concat and slice *)

(** [for (size_t i = 0; i < v.size(); i++) { ... v[i] ... }], collecting
    what every iteration produces. *)
Fixpoint for_each {A B} (body : nat -> A -> M B) (i : nat) (v : list A) : M (list B) :=
  match v with
  | [] => ret []
  | a :: rest =>
      b <- body i a ;;
      bs <- for_each body (S i) rest ;;
      ret (b :: bs)
  end.

Definition build_concat (inputs_data_desc : list memory_desc) (result_desc : memory_desc)
    (concat_dim : Z) : M nat :=
  inputs_pd <- for_each (fun _ d => new_primitive_desc (pd_memory d)) 0 inputs_data_desc ;;
  built <- for_each
    (fun _ d =>
       index <- build_memory_primitive d ;;
       o <- primitives_deref index ;;
       ret (index, o))
    0 inputs_data_desc ;;
  let inputs_data_index := map fst built in
  let inputs_primitive := map snd built in
  result_index <- build_memory_primitive result_desc ;;
  concat_pd <- new_primitive_desc
    (pd_concat result_desc (to_int concat_dim) inputs_data_desc) ;;
  r <- primitives_deref result_index ;;
  p <- new_primitive (compute concat (Some concat_pd) (inputs_primitive ++ [r])) ;;
  concat_index <- insert_primitive p ;;
  let in_out_index := inputs_data_index ++ [result_index] in
  run deps_assign concat_index in_out_index ;;
  ret concat_index.

Definition build_concat_at (concat_pd : primitive_desc)
    (inputs_data_desc : list memory_desc) (concat_index : nat) : M unit :=
  inputs_pd <- for_each (fun _ d => new_primitive_desc (pd_memory d)) 0 inputs_data_desc ;;
  inputs_primitive <- for_each
    (fun i d =>
       inputs_data_index <- deps_at concat_index i ;;
       run build_memory_primitive_at d inputs_data_index ;;
       primitives_deref inputs_data_index)
    0 inputs_data_desc ;;
  result_index <- deps_at concat_index (length inputs_data_desc) ;;
  run build_memory_primitive_at (dst_md V concat_pd) result_index ;;
  r <- primitives_deref result_index ;;
  p <- new_primitive (compute concat (Some concat_pd) (inputs_primitive ++ [r])) ;;
  primitives_store concat_index p.

Definition build_slice (input_desc result_desc : memory_desc)
    (lower_bounds result_shape : list Z) : M nat :=
  input_pd <- new_primitive_desc (pd_memory input_desc) ;;
  input_index <- build_memory_primitive input_desc ;;
  let ds := dims result_shape in
  let offsets := dims lower_bounds in
  view_pd <- new_primitive_desc (pd_view_dst input_desc ds offsets) ;;
  result_pd <- new_primitive_desc (pd_memory result_desc) ;;
  result_index <- build_memory_primitive result_desc ;;
  reorder_pd <- new_primitive_desc (pd_reorder_view input_desc ds offsets result_desc) ;;
  i <- primitives_deref input_index ;;
  r <- primitives_deref result_index ;;
  p <- new_primitive (compute reorder (Some reorder_pd) [i; r]) ;;
  reorder_index <- insert_primitive p ;;
  let in_out_index := [input_index; result_index] in
  run deps_assign reorder_index in_out_index ;;
  ret reorder_index.

Definition build_slice_at (input_desc result_desc : memory_desc)
    (lower_bounds result_shape : list Z) (slice_index : nat) : M unit :=
  input_pd <- new_primitive_desc (pd_memory input_desc) ;;
  input_index <- deps_at slice_index 0 ;;
  run build_memory_primitive_at input_desc input_index ;;
  let ds := dims result_shape in
  let offsets := dims lower_bounds in
  view_pd <- new_primitive_desc (pd_view_dst input_desc ds offsets) ;;
  result_pd <- new_primitive_desc (pd_memory result_desc) ;;
  result_index <- deps_at slice_index 1 ;;
  run build_memory_primitive_at result_desc result_index ;;
  reorder_pd <- new_primitive_desc (pd_reorder_view input_desc ds offsets result_desc) ;;
  i <- primitives_deref input_index ;;
  r <- primitives_deref result_index ;;
  p <- new_primitive (compute reorder (Some reorder_pd) [i; r]) ;;
  primitives_store slice_index p.

(** ** Softmax and the remaining activations *)

Definition build_softmax_forward (input_desc result_desc : memory_desc) (softmax_axis : Z)
  : M nat :=
  input_index <- build_memory_primitive input_desc ;;
  result_index <- build_memory_primitive result_desc ;;
  i <- primitives_deref input_index ;;
  r <- primitives_deref result_index ;;
  p <- new_primitive
    (compute softmax_forward
       (Some (pd_op (softmax_forward_desc forward_scoring input_desc softmax_axis)
                    None None))
       [i; r]) ;;
  primitive_index <- insert_primitive p ;;
  run deps_assign primitive_index [input_index; result_index] ;;
  ret primitive_index.

Definition build_softmax_forward_at (softmax_desc : op_desc) (softmax_index : nat) : M unit :=
  input_index <- deps_at softmax_index 0 ;;
  run build_memory_primitive_at (data softmax_desc data_desc) input_index ;;
  result_index <- deps_at softmax_index 1 ;;
  run build_memory_primitive_at (data softmax_desc data_desc) result_index ;;
  i <- primitives_deref input_index ;;
  r <- primitives_deref result_index ;;
  p <- new_primitive (compute softmax_forward (Some (pd_op softmax_desc None None)) [i; r]) ;;
  primitives_store softmax_index p.

Definition build_leaky_relu (input_desc result_desc : memory_desc) (alpha : Q) : M nat :=
  input_index <- build_memory_primitive input_desc ;;
  result_index <- build_memory_primitive result_desc ;;
  i <- primitives_deref input_index ;;
  r <- primitives_deref result_index ;;
  p <- new_primitive
    (compute eltwise_forward
       (Some (pd_op (eltwise_forward_desc forward_training eltwise_relu input_desc alpha 0)
                    None None))
       [i; r]) ;;
  primitive_index <- insert_primitive p ;;
  run deps_assign primitive_index [input_index; result_index] ;;
  ret primitive_index.

Definition build_leaky_relu_at (leaky_relu_desc : op_desc) (leaky_relu_index : nat) : M unit :=
  input_index <- deps_at leaky_relu_index 0 ;;
  run build_memory_primitive_at (data leaky_relu_desc data_desc) input_index ;;
  result_index <- deps_at leaky_relu_index 1 ;;
  run build_memory_primitive_at (data leaky_relu_desc data_desc) result_index ;;
  i <- primitives_deref input_index ;;
  r <- primitives_deref result_index ;;
  p <- new_primitive (compute eltwise_forward (Some (pd_op leaky_relu_desc None None)) [i; r]) ;;
  primitives_store leaky_relu_index p.

Definition build_bounded_relu (input_desc result_desc : memory_desc) (alpha : Q) : M nat :=
  input_index <- build_memory_primitive input_desc ;;
  result_index <- build_memory_primitive result_desc ;;
  i <- primitives_deref input_index ;;
  r <- primitives_deref result_index ;;
  p <- new_primitive
    (compute eltwise_forward
       (Some (pd_op (eltwise_forward_desc forward_training eltwise_bounded_relu
                       input_desc alpha 0)
                    None None))
       [i; r]) ;;
  primitive_index <- insert_primitive p ;;
  run deps_assign primitive_index [input_index; result_index] ;;
  ret primitive_index.

Definition build_bounded_relu_at (bounded_relu_desc : op_desc) (bounded_relu_index : nat) : M unit :=
  input_index <- deps_at bounded_relu_index 0 ;;
  run build_memory_primitive_at (data bounded_relu_desc data_desc) input_index ;;
  result_index <- deps_at bounded_relu_index 1 ;;
  run build_memory_primitive_at (data bounded_relu_desc data_desc) result_index ;;
  i <- primitives_deref input_index ;;
  r <- primitives_deref result_index ;;
  p <- new_primitive (compute eltwise_forward (Some (pd_op bounded_relu_desc None None)) [i; r]) ;;
  primitives_store bounded_relu_index p.

(** ** Reserving space *)

Definition convolution_forward_init (with_bias : bool) : M nat :=
  size <- primitives_size ;;
  if with_bias
  then
    (* Inputs, Weights, Bias, Results, Conv *)
    run primitives_resize (size + 5) ;;
    last <- primitives_size ;;
    run deps_assign (last - 1) [size; size + 1; size + 2; size + 3] ;;
    n <- primitives_size ;;
    ret (n - 1)
  else
    (* Inputs, Weights, Results, Conv *)
    run primitives_resize (size + 4) ;;
    last <- primitives_size ;;
    run deps_assign (last - 1) [size; size + 1; size + 2] ;;
    n <- primitives_size ;;
    ret (n - 1).

(** [count - 1] is computed in [size_t] and [i] is an [int]: with
    [count = 0] the bound wraps to [SIZE_MAX], and with
    [count - 1 > INT_MAX] the increment of [i] overflows; both are
    undefined. *)
Definition reserve_primitive_space (count : nat) (new_workspace_arg : bool) : M nat :=
  size <- primitives_size ;;
  run primitives_resize (size + count) ;;
  if decide (count = 0 \/ (2 ^ 31 < Z.of_nat count)%Z)
  then (fun _ => Undefined)
  else
    run for_each
          (fun _ i =>
             last <- primitives_size ;;
             deps_push_back (last - 1) (size + i))
          0 (seq 0 (count - 1)) ;;
    run (if new_workspace_arg
         then last <- primitives_size ;; deps_push_back (last - 1) 0
         else ret tt) ;;
    n <- primitives_size ;;
    ret (n - 1).


(** ** The operations as data

    One constructor per member function, so that statements can range
    over "every construct operation" and "every rebuild". *)

Inductive kind : Type :=
  | quantize_reorder | convolution_backward_weights_bias
  | convolution_backward_weights_k | convolution_backward_data_k
  | pooling_forward_k | pooling_backward_k | max_pooling_backward
  | max_pooling_with_indices_forward | max_pooling_with_indices_backward
  | reorder_k | lrn_forward_k | relu_forward | relu_backward
  | sigmoid_forward | sigmoid_backward | elementwise_add
  | batchnorm_forward | batchnorm_backward | rnn_forward_k
  | concat_k | slice | softmax_forward_k | leaky_relu | bounded_relu.

#[export] Instance kind_eq_dec : EqDecision kind.
Proof. solve_decision. Defined.

(** The index-returning member functions. *)
Inductive construct_call : Type :=
  | construct_memory_primitive (desc : memory_desc)
  | construct_quantize_reorder (input_desc result_desc : memory_desc) (scales : list Q)
  | construct_dequantization (scale_const_op : option (list Q))
      (input_desc result_desc : memory_desc)
  | construct_quantized_max_pool (node : pool_node)
  | construct_quantized_avg_pool (node : pool_node)
  | construct_convolution_forward (input_data_desc weights_d result_desc : memory_desc)
      (strides dilation padding_below padding_above : list Z) (pops : list post_op)
  | construct_quantized_convolution_forward
      (input_data_desc weights_d result_desc : memory_desc)
      (strides dilation padding_below padding_above : list Z)
      (scale : Q) (pops : list post_op)
  | construct_quantized_convolution_forward_bias
      (input_data_desc weights_d bias_d result_desc : memory_desc)
      (strides dilation padding_below padding_above : list Z)
      (scale : Q) (pops : list post_op)
  | construct_convolution_forward_bias
      (input_data_desc weights_d bias_d result_desc : memory_desc)
      (strides dilation padding_below padding_above : list Z) (pops : list post_op)
  | construct_convolution_backward_weights_bias
      (in_data_desc in_delta_desc out_weights_delta_desc out_bias_delta_desc : memory_desc)
      (strides dilation padding_below padding_above : list Z)
  | construct_convolution_backward_weights (input_desc delta_desc result_desc : memory_desc)
      (strides dilation padding_below padding_above : list Z)
  | construct_convolution_backward_data (weights_d delta_desc result_desc : memory_desc)
      (strides dilation padding_below padding_above : list Z)
  | construct_pooling_forward (alg : algorithm) (input_desc result_desc : memory_desc)
      (window_strides window_shape padding_below padding_above : list Z)
  | construct_pooling_backward (alg : algorithm) (diff_dst_d diff_src_d : memory_desc)
      (window_strides window_shape padding_below padding_above : list Z)
  | construct_max_pooling_backward (alg : algorithm)
      (fprop_src_desc diff_dst_d diff_src_d : memory_desc)
      (window_strides window_shape padding_below padding_above : list Z)
  | construct_max_pooling_with_indices_forward (alg : algorithm)
      (src_d dst_d : memory_desc)
      (window_strides window_shape padding_below padding_above : list Z)
  | construct_max_pooling_with_indices_backward (alg : algorithm)
      (diff_dst_d diff_src_d : memory_desc)
      (window_strides window_shape padding_below padding_above : list Z)
  | construct_reorder (input_desc result_desc : memory_desc)
  | construct_lrn_forward (input_desc result_desc : memory_desc)
      (alpha beta bias : Q) (nsize : Z)
  | construct_relu_forward (input_desc result_desc : memory_desc)
  | construct_relu_backward (input_desc delta_desc result_desc : memory_desc)
  | construct_sigmoid_forward (input_desc result_desc : memory_desc)
  | construct_sigmoid_backward (input_desc delta_desc result_desc : memory_desc)
  | construct_elementwise_add (input0_data_desc input1_data_desc result_desc : memory_desc)
      (scale_vector : list Q) (inputs_pd : list memory_desc)
  | construct_batchnorm_forward
      (input_desc weights_d result_desc mean_d variance_d : memory_desc)
      (eps : Q) (use_global_stats_arg bn_training_flag : bool) (pops : list post_op)
  | construct_batchnorm_backward
      (weights_d input_desc mean_d variance_d delta_desc dinput_desc dweights_desc
         : memory_desc) (eps : Q)
  | construct_rnn_forward
      (src_layer_d src_iter_d weights_layer_d weights_iter_d bias_d dst_layer_d
         dst_iter_d : memory_desc) (rnn_direction : Z) (rnn_algorithm : algorithm)
  | construct_concat (inputs_data_desc : list memory_desc) (result_desc : memory_desc)
      (concat_dim : Z)
  | construct_slice (input_desc result_desc : memory_desc)
      (lower_bounds result_shape : list Z)
  | construct_softmax_forward (input_desc result_desc : memory_desc) (softmax_axis : Z)
  | construct_leaky_relu (input_desc result_desc : memory_desc) (alpha : Q)
  | construct_bounded_relu (input_desc result_desc : memory_desc) (alpha : Q)
  | construct_convolution_forward_init (with_bias : bool)
  | construct_reserve_primitive_space (count : nat) (new_workspace_arg : bool).

Definition run_construct (c : construct_call) : M nat :=
  match c with
  | construct_memory_primitive d => build_memory_primitive d
  | construct_quantize_reorder i r s => build_quantize_reorder i r s
  | construct_dequantization n i r => build_dequantization n i r
  | construct_quantized_max_pool n => build_quantized_max_pool n
  | construct_quantized_avg_pool n => build_quantized_avg_pool n
  | construct_convolution_forward i w r s d pb pa pops =>
      build_convolution_forward i w r s d pb pa pops
  | construct_quantized_convolution_forward i w r s d pb pa scale pops =>
      build_quantized_convolution_forward i w r s d pb pa scale pops
  | construct_quantized_convolution_forward_bias i w b r s d pb pa scale pops =>
      build_quantized_convolution_forward_bias i w b r s d pb pa scale pops
  | construct_convolution_forward_bias i w b r s d pb pa pops =>
      build_convolution_forward_bias i w b r s d pb pa pops
  | construct_convolution_backward_weights_bias a b c0 d s dl pb pa =>
      build_convolution_backward_weights_bias a b c0 d s dl pb pa
  | construct_convolution_backward_weights i dl r s d pb pa =>
      build_convolution_backward_weights i dl r s d pb pa
  | construct_convolution_backward_data w dl r s d pb pa =>
      build_convolution_backward_data w dl r s d pb pa
  | construct_pooling_forward a i r ws wsh pb pa => build_pooling_forward a i r ws wsh pb pa
  | construct_pooling_backward a dd ds ws wsh pb pa =>
      build_pooling_backward a dd ds ws wsh pb pa
  | construct_max_pooling_backward a f dd ds ws wsh pb pa =>
      build_max_pooling_backward a f dd ds ws wsh pb pa
  | construct_max_pooling_with_indices_forward a s d ws wsh pb pa =>
      build_max_pooling_with_indices_forward a s d ws wsh pb pa
  | construct_max_pooling_with_indices_backward a dd ds ws wsh pb pa =>
      build_max_pooling_with_indices_backward a dd ds ws wsh pb pa
  | construct_reorder i r => build_reorder i r
  | construct_lrn_forward i r al be bi n => build_lrn_forward i r al be bi n
  | construct_relu_forward i r => build_relu_forward i r
  | construct_relu_backward i d r => build_relu_backward i d r
  | construct_sigmoid_forward i r => build_sigmoid_forward i r
  | construct_sigmoid_backward i d r => build_sigmoid_backward i d r
  | construct_elementwise_add a b r sv pds => build_elementwise_add a b r sv pds
  | construct_batchnorm_forward i w r m v eps g t pops =>
      build_batchnorm_forward i w r m v eps g t pops
  | construct_batchnorm_backward w i m v d di dw eps =>
      build_batchnorm_backward w i m v d di dw eps
  | construct_rnn_forward a b c0 d e f g dir alg =>
      build_rnn_forward a b c0 d e f g dir alg
  | construct_concat ins r dim => build_concat ins r dim
  | construct_slice i r lb rs => build_slice i r lb rs
  | construct_softmax_forward i r ax => build_softmax_forward i r ax
  | construct_leaky_relu i r al => build_leaky_relu i r al
  | construct_bounded_relu i r al => build_bounded_relu i r al
  | construct_convolution_forward_init b => convolution_forward_init b
  | construct_reserve_primitive_space n w => reserve_primitive_space n w
  end.

(** The in-place member functions, without their index argument. *)
Inductive rebuild_call : Type :=
  | rebuild_memory_primitive (desc : memory_desc)
  | rebuild_quantize_reorder (input_desc result_desc : memory_desc) (scales : list Q)
      (mask : Z)
  | rebuild_convolution_backward_weights_bias (bwd_desc fwd_desc : op_desc)
  | rebuild_convolution_backward_weights (bwd_desc fwd_desc : op_desc)
  | rebuild_convolution_backward_data (bwd_desc fwd_desc : op_desc)
  | rebuild_pooling_forward (pool_desc : op_desc)
  | rebuild_pooling_backward (pool_desc pool_fwd_desc : op_desc)
  | rebuild_max_pooling_backward (bwd_pool_desc fwd_pool_desc : op_desc)
      (fprop_src_desc : memory_desc) (fwd_pool_index : nat)
  | rebuild_max_pooling_with_indices_forward (max_pool_desc : op_desc)
  | rebuild_max_pooling_with_indices_backward (bwd_pool_desc fwd_pool_desc : op_desc)
  | rebuild_reorder (input_desc result_desc : memory_desc)
  | rebuild_lrn_forward (lrn_desc : op_desc)
  | rebuild_relu_forward (relu_desc : op_desc)
  | rebuild_relu_backward (bwd_desc fwd_desc : op_desc)
  | rebuild_sigmoid_forward (sigmoid_desc : op_desc)
  | rebuild_sigmoid_backward (bwd_desc fwd_desc : op_desc)
  | rebuild_elementwise_add (sum_pd : primitive_desc)
  | rebuild_batchnorm_forward (batchnorm_desc : op_desc) (weights_d : memory_desc)
      (bn_training_flag : bool) (pops : list post_op)
  | rebuild_batchnorm_backward (batchnorm_desc : op_desc)
      (weights_d dweights_desc : memory_desc)
  | rebuild_rnn_forward (rnn_desc : op_desc)
  | rebuild_concat (concat_pd : primitive_desc) (inputs_data_desc : list memory_desc)
  | rebuild_slice (input_desc result_desc : memory_desc)
      (lower_bounds result_shape : list Z)
  | rebuild_softmax_forward (softmax_desc : op_desc)
  | rebuild_leaky_relu (leaky_relu_desc : op_desc)
  | rebuild_bounded_relu (bounded_relu_desc : op_desc).

Definition run_rebuild (r : rebuild_call) (index : nat) : M unit :=
  match r with
  | rebuild_memory_primitive d => build_memory_primitive_at d index
  | rebuild_quantize_reorder i o s mask => build_quantize_reorder_at i o s index mask
  | rebuild_convolution_backward_weights_bias b f =>
      build_convolution_backward_weights_bias_at b f index
  | rebuild_convolution_backward_weights b f => build_convolution_backward_weights_at b f index
  | rebuild_convolution_backward_data b f => build_convolution_backward_data_at b f index
  | rebuild_pooling_forward d => build_pooling_forward_at d index
  | rebuild_pooling_backward d f => build_pooling_backward_at d f index
  | rebuild_max_pooling_backward b f src fwd_pool_index =>
      build_max_pooling_backward_at b f src fwd_pool_index index
  | rebuild_max_pooling_with_indices_forward d =>
      build_max_pooling_with_indices_forward_at d index
  | rebuild_max_pooling_with_indices_backward b f =>
      build_max_pooling_with_indices_backward_at b f index
  | rebuild_reorder i o => build_reorder_at i o index
  | rebuild_lrn_forward d => build_lrn_forward_at d index
  | rebuild_relu_forward d => build_relu_forward_at d index
  | rebuild_relu_backward b f => build_relu_backward_at b f index
  | rebuild_sigmoid_forward d => build_sigmoid_forward_at d index
  | rebuild_sigmoid_backward b f => build_sigmoid_backward_at b f index
  | rebuild_elementwise_add pd => build_elementwise_add_at pd index
  | rebuild_batchnorm_forward d w t pops => build_batchnorm_forward_at d w t index pops
  | rebuild_batchnorm_backward d w dw => build_batchnorm_backward_at d w dw index
  | rebuild_rnn_forward d => build_rnn_forward_at d index
  | rebuild_concat pd ins => build_concat_at pd ins index
  | rebuild_slice i o lb rs => build_slice_at i o lb rs index
  | rebuild_softmax_forward d => build_softmax_forward_at d index
  | rebuild_leaky_relu d => build_leaky_relu_at d index
  | rebuild_bounded_relu d => build_bounded_relu_at d index
  end.

(** Which primitive kind a member function builds; [None] for the
    functions that have no rebuild overload in this file. *)
Definition construct_kind (c : construct_call) : option kind :=
  match c with
  | construct_quantize_reorder _ _ _ => Some quantize_reorder
  | construct_convolution_backward_weights_bias _ _ _ _ _ _ _ _ =>
      Some convolution_backward_weights_bias
  | construct_convolution_backward_weights _ _ _ _ _ _ _ =>
      Some convolution_backward_weights_k
  | construct_convolution_backward_data _ _ _ _ _ _ _ => Some convolution_backward_data_k
  | construct_pooling_forward _ _ _ _ _ _ _ => Some pooling_forward_k
  | construct_pooling_backward _ _ _ _ _ _ _ => Some pooling_backward_k
  | construct_max_pooling_backward _ _ _ _ _ _ _ _ => Some max_pooling_backward
  | construct_max_pooling_with_indices_forward _ _ _ _ _ _ _ =>
      Some max_pooling_with_indices_forward
  | construct_max_pooling_with_indices_backward _ _ _ _ _ _ _ =>
      Some max_pooling_with_indices_backward
  | construct_reorder _ _ => Some reorder_k
  | construct_lrn_forward _ _ _ _ _ _ => Some lrn_forward_k
  | construct_relu_forward _ _ => Some relu_forward
  | construct_relu_backward _ _ _ => Some relu_backward
  | construct_sigmoid_forward _ _ => Some sigmoid_forward
  | construct_sigmoid_backward _ _ _ => Some sigmoid_backward
  | construct_elementwise_add _ _ _ _ _ => Some elementwise_add
  | construct_batchnorm_forward _ _ _ _ _ _ _ _ _ => Some batchnorm_forward
  | construct_batchnorm_backward _ _ _ _ _ _ _ _ => Some batchnorm_backward
  | construct_rnn_forward _ _ _ _ _ _ _ _ _ => Some rnn_forward_k
  | construct_concat _ _ _ => Some concat_k
  | construct_slice _ _ _ _ => Some slice
  | construct_softmax_forward _ _ _ => Some softmax_forward_k
  | construct_leaky_relu _ _ _ => Some leaky_relu
  | construct_bounded_relu _ _ _ => Some bounded_relu
  | _ => None
  end.

Definition rebuild_kind (r : rebuild_call) : option kind :=
  match r with
  | rebuild_memory_primitive _ => None
  | rebuild_quantize_reorder _ _ _ _ => Some quantize_reorder
  | rebuild_convolution_backward_weights_bias _ _ => Some convolution_backward_weights_bias
  | rebuild_convolution_backward_weights _ _ => Some convolution_backward_weights_k
  | rebuild_convolution_backward_data _ _ => Some convolution_backward_data_k
  | rebuild_pooling_forward _ => Some pooling_forward_k
  | rebuild_pooling_backward _ _ => Some pooling_backward_k
  | rebuild_max_pooling_backward _ _ _ _ => Some max_pooling_backward
  | rebuild_max_pooling_with_indices_forward _ => Some max_pooling_with_indices_forward
  | rebuild_max_pooling_with_indices_backward _ _ => Some max_pooling_with_indices_backward
  | rebuild_reorder _ _ => Some reorder_k
  | rebuild_lrn_forward _ => Some lrn_forward_k
  | rebuild_relu_forward _ => Some relu_forward
  | rebuild_relu_backward _ _ => Some relu_backward
  | rebuild_sigmoid_forward _ => Some sigmoid_forward
  | rebuild_sigmoid_backward _ _ => Some sigmoid_backward
  | rebuild_elementwise_add _ => Some elementwise_add
  | rebuild_batchnorm_forward _ _ _ _ => Some batchnorm_forward
  | rebuild_batchnorm_backward _ _ _ => Some batchnorm_backward
  | rebuild_rnn_forward _ => Some rnn_forward_k
  | rebuild_concat _ _ => Some concat_k
  | rebuild_slice _ _ _ _ => Some slice
  | rebuild_softmax_forward _ => Some softmax_forward_k
  | rebuild_leaky_relu _ => Some leaky_relu
  | rebuild_bounded_relu _ => Some bounded_relu
  end.

(** Any member function that changes the registry. *)
Inductive call : Type :=
  | Construct (c : construct_call)
  | Rebuild (r : rebuild_call) (index : nat).

Definition run_call (c : call) : M unit :=
  match c with
  | Construct c => run run_construct c ;; ret tt
  | Rebuild r index => run_rebuild r index
  end.

(** A sequence of calls; a call that throws leaves the emitter as it was
    at the throw and the caller carries on. *)
Fixpoint run_calls (cs : list call) (st : emitter) : option emitter :=
  match cs with
  | [] => Some st
  | c :: rest =>
      match run_call c st with
      | Ok _ st' => run_calls rest st'
      | Throw _ st' => run_calls rest st'
      | Undefined => None
      end
  end.

End WithVendor.

(** ** Relations and invariants on the state of the emitter *)

(** The objects held by the slots of the registry. *)
Definition held (st : emitter) : list obj := omap id (m_mkldnn_primitives st).

(** Every slot holds an object of its own, created by this emitter. *)
Definition owns_distinct (st : emitter) : Prop :=
  NoDup (held st) /\ Forall (fun o => o < length (heap st)) (held st).

Definition keeps_ownership (st st' : emitter) : Prop :=
  owns_distinct st -> owns_distinct st'.

(** Every valid index stays valid. *)
Definition size_le (st st' : emitter) : Prop :=
  length (m_mkldnn_primitives st) <= length (m_mkldnn_primitives st').

(** The registry keeps its size and the dependency table is untouched. *)
Definition same_shape (st st' : emitter) : Prop :=
  length (m_mkldnn_primitives st') = length (m_mkldnn_primitives st) /\
  m_primitive_deps st' = m_primitive_deps st.

(** The registry keeps its size. *)
Definition same_size (st st' : emitter) : Prop :=
  length (m_mkldnn_primitives st') = length (m_mkldnn_primitives st).

(** The registry only grows at its end. *)
Definition extends (st st' : emitter) : Prop :=
  exists l, m_mkldnn_primitives st' = m_mkldnn_primitives st ++ l.

(** The registry is untouched. *)
Definition same_primitives (st st' : emitter) : Prop :=
  m_mkldnn_primitives st' = m_mkldnn_primitives st.

(** Nothing happens to the registry and no object disappears from the
    free store; [quiet_deps] also leaves the dependency table alone. *)
Definition quiet (st st' : emitter) : Prop :=
  m_mkldnn_primitives st' = m_mkldnn_primitives st /\
  length (heap st) <= length (heap st').

Definition quiet_deps (st st' : emitter) : Prop :=
  quiet st st' /\ m_primitive_deps st' = m_primitive_deps st.

(** [R2] holds wherever [R1] does. *)
Class Coarser (R1 R2 : emitter -> emitter -> Prop) : Prop :=
  coarser : forall st st', R1 st st' -> R2 st st'.

(** [m] moves the emitter along [R], whether it returns or throws. *)
Definition respects {A} (R : emitter -> emitter -> Prop) (m : M A) : Prop :=
  forall st, match m st with
             | Ok _ st' => R st st'
             | Throw _ st' => R st st'
             | Undefined => True
             end.

(** The primitive in slot [index], if the slot holds one. *)
Definition primitive_at (st : emitter) (index : nat) : option primitive :=
  match m_mkldnn_primitives st !! index with
  | Some (Some o) => heap st !! o
  | _ => None
  end.

(** The attributes a compute primitive was created with. *)
Definition attr_of (p : primitive) : option primitive_attr :=
  match p with
  | compute _ (Some (pd_op _ (Some attr) _)) _ => Some attr
  | compute _ (Some (pd_reorder _ _ (Some attr))) _ => Some attr
  | _ => None
  end.


(** [m] returns the index of the last slot of a registry that it has made
    longer. *)
Definition appends_last (m : M nat) : Prop :=
  forall st, match m st with
             | Ok index st' =>
                 length (m_mkldnn_primitives st) < length (m_mkldnn_primitives st') /\
                 index = length (m_mkldnn_primitives st') - 1
             | _ => True
             end.

(** [m] returns [v] and leaves the registry as it is. *)
Definition returns_same (v : nat) (m : M nat) : Prop :=
  forall st, match m st with
             | Ok a st' => a = v /\ m_mkldnn_primitives st' = m_mkldnn_primitives st
             | _ => True
             end.

(** What holds of the value and the state whenever [m] returns. *)
Definition ensures {A} (Q : A -> emitter -> Prop) (m : M A) : Prop :=
  forall st, match m st with
             | Ok a st' => Q a st'
             | _ => True
             end.

(** The returned index has an entry in the dependency table. *)
Definition recorded (index : nat) (st : emitter) : Prop :=
  is_Some (m_primitive_deps st !! index).

(** [m] leaves the registry as it is and returns the index of its last
    slot. *)
Definition returns_size (m : M nat) : Prop :=
  forall st, match m st with
             | Ok index st' =>
                 m_mkldnn_primitives st' = m_mkldnn_primitives st /\
                 index = length (m_mkldnn_primitives st') - 1
             | _ => True
             end.

(** The entries of a dependency list that its rebuild assigns anew: the
    index of the workspace buffer, and for [max_pooling_backward] also the
    slot of the workspace memory. *)
Definition workspace_buffer_position (k : kind) : option nat :=
  match k with
  | rnn_forward_k => Some 8
  | max_pooling_backward => Some 3
  | _ => None
  end.

Definition rebound (k : kind) (i : nat) : bool :=
  match k with
  | rnn_forward_k => bool_decide (i = 8)
  | max_pooling_backward => bool_decide (i = 1 \/ i = 3)
  | _ => false
  end.

(** The rebuild of [max_pooling_backward] is also told the index of the
    forward primitive. *)
Definition rebuild_forward_index (r : rebuild_call) : option nat :=
  match r with
  | rebuild_max_pooling_backward _ _ _ fwd_pool_index => Some fwd_pool_index
  | _ => None
  end.

(** ** Instrumented vendors

    A vendor library that accepts every request, and one that accepts
    everything except the creation of a pooling primitive. *)

Definition accept_all : vendor :=
  mk_vendor (fun _ => None) (fun _ => zero_md) (fun _ => 64%Z) (fun _ => zero_md) true
            (fun _ => inr data_f32) 12.

Definition rejects_pooling (c : vendor_call) : option string :=
  match c with
  | call_primitive (compute pooling_forward _ _) => Some "unsupported"%string
  | call_primitive (compute convolution_forward _ _) => Some "unsupported"%string
  | _ => None
  end.

Definition reject_compute : vendor :=
  mk_vendor rejects_pooling (fun _ => zero_md) (fun _ => 64%Z) (fun _ => zero_md) true
            (fun _ => inr data_f32) 12.

(** A 2x3 tensor of floats in [nc] layout. *)
Definition md_2x3 : memory_desc := mk_memory_desc 2 [2%Z; 3%Z] data_f32 format_nc None.

(** The state a member function leaves behind. *)
Definition state_after {A} (o : outcome A) : emitter :=
  match o with
  | Ok _ st => st
  | Throw _ st => st
  | Undefined => empty_emitter
  end.

(** ** Worked examples on a fresh emitter *)

(** An LSTM layer, constructed and then rebuilt with the same descriptors. *)
Definition rnn_construct : construct_call :=
  construct_rnn_forward md_2x3 md_2x3 md_2x3 md_2x3 md_2x3 md_2x3 md_2x3 0 vanilla_lstm.

Definition rnn_rebuild : rebuild_call :=
  rebuild_rnn_forward
    (rnn_forward_desc forward_training vanilla_lstm 0
       md_2x3 md_2x3 md_2x3 md_2x3 md_2x3 md_2x3 md_2x3).

Definition rnn_constructed : emitter :=
  state_after (run_construct accept_all rnn_construct empty_emitter).

Definition rnn_rebuilt : emitter :=
  state_after (run_rebuild accept_all rnn_rebuild 8 rnn_constructed).

(** A quantized reorder, constructed and then rebuilt in place. *)
Definition reorder_calls : list call :=
  [Construct (construct_quantize_reorder md_2x3 md_2x3 [1%Q]);
   Rebuild (rebuild_quantize_reorder md_2x3 md_2x3 [1%Q] 0) 2].

Definition reorder_rebuilt : emitter :=
  match run_calls accept_all reorder_calls empty_emitter with
  | Some st => st
  | None => empty_emitter
  end.

(** A pooling primitive on its own. *)
Definition pooling_constructed : emitter :=
  state_after (build_pooling_forward accept_all pooling_max md_2x3 md_2x3 [] [] [] []
                 empty_emitter).

(** A 3x3 convolution of an 8x8 image with 3 channels into 4 channels. *)
Definition md_input : memory_desc :=
  mk_memory_desc 4 [1%Z; 3%Z; 8%Z; 8%Z] data_f32 format_nchw None.
Definition md_weights : memory_desc :=
  mk_memory_desc 4 [4%Z; 3%Z; 3%Z; 3%Z] data_f32 format_oihw None.
Definition md_bias : memory_desc :=
  mk_memory_desc 1 [4%Z] data_f32 format_x None.
Definition md_result : memory_desc :=
  mk_memory_desc 4 [1%Z; 4%Z; 6%Z; 6%Z] data_f32 format_nchw None.



(** The quantized primitives: a reorder with scale 1, which is then
    rebuilt with mask 2, and the two convolutions with scale 1/2. *)
Definition quantize_constructed : emitter :=
  state_after (build_quantize_reorder accept_all md_2x3 md_2x3 [1%Q] empty_emitter).

Definition quantize_rebuilt : emitter :=
  state_after (build_quantize_reorder_at accept_all md_2x3 md_2x3 [1%Q; 2%Q] 2 2
                 quantize_constructed).

Definition quantized_convolution_constructed : emitter :=
  state_after (build_quantized_convolution_forward accept_all md_input md_weights
                 md_result [1%Z; 1%Z] [0%Z; 0%Z] [0%Z; 0%Z] [0%Z; 0%Z] (1 # 2)%Q []
                 empty_emitter).

Definition quantized_convolution_bias_constructed : emitter :=
  state_after (build_quantized_convolution_forward_bias accept_all md_input md_weights
                 md_bias md_result [1%Z; 1%Z] [0%Z; 0%Z] [0%Z; 0%Z] [0%Z; 0%Z]
                 (1 # 2)%Q [] empty_emitter).

Definition grow (c : nat) (st : emitter) : emitter :=
  with_primitives (fun l => l ++ replicate c None) st.

(** What it means for slot [index] to hold a primitive created with
    round-to-nearest and the output scales [scales] under [mask]. *)
Definition quantized_at (st : emitter) (index : nat) (mask : Z) (scales : list Q) : Prop :=
  exists p attr,
    primitive_at st index = Some p /\ attr_of p = Some attr /\
    attr_int_output_round_mode attr = Some round_nearest /\
    attr_output_scales attr = Some (mask, scales).

(** ** Further judgements and invariants *)

Definition bound_to (k : kind) (idx : nat) (st : emitter) : Prop :=
  exists ok pd operands l,
    primitive_at st idx = Some (compute ok pd operands) /\
    m_primitive_deps st !! idx = Some l /\
    (forall i v, l !! i = Some v -> workspace_buffer_position k <> Some i ->
       v < idx /\
       exists o md, m_mkldnn_primitives st !! v = Some (Some o) /\
                    heap st !! o = Some (memory md) /\ o ∈ operands) /\
    (forall o, o ∈ operands ->
       exists i v, l !! i = Some v /\ workspace_buffer_position k <> Some i /\
                   m_mkldnn_primitives st !! v = Some (Some o)).

Definition defined_arguments (c : construct_call) : Prop :=
  match c with
  | construct_dequantization (Some []) _ _ => False
  | construct_reserve_primitive_space count _ =>
      1 <= count /\ (Z.of_nat count <= 2 ^ 31)%Z
  | _ => True
  end.

(** Slot [i] of the registry exists and holds an object. *)
Definition live (st : emitter) (i : nat) : Prop :=
  exists o, m_mkldnn_primitives st !! i = Some (Some o).

(** Started where the slots [L] are live, [m] has no undefined behaviour
    and leaves them live. *)
Definition safe {A} (L : list nat) (m : M A) : Prop :=
  forall st, Forall (live st) L ->
    match m st with
    | Ok _ st' => Forall (live st') L
    | Throw _ st' => Forall (live st') L
    | Undefined => False
    end.

(** The exceptions of a member function that creates the memory
    primitives [mems] and then, inside a [try] block, the primitive
    [p operands]: a rejected memory primitive ends it with the vendor's
    [mkldnn::error]; a rejected primitive with an [ngraph_error] whose text
    is [prefix] followed by the vendor's message, and the memory
    primitives stay in the registry. *)
Definition throws_only (V : vendor) (m : M nat) (mems : list memory_desc)
    (p : list obj -> primitive) (prefix : string) : Prop :=
  forall st e st',
    m st = Throw e st' ->
    (exists md message,
        md ∈ mems /\ rejects V (call_primitive (memory md)) = Some message /\
        e = mkldnn_error message) \/
    (exists message,
        rejects V (call_primitive (p (seq (length (heap st)) (length mems))))
        = Some message /\
        e = ngraph_error (prefix ++ message) /\
        m_mkldnn_primitives st'
        = m_mkldnn_primitives st ++ map Some (seq (length (heap st)) (length mems)) /\
        m_primitive_deps st' = m_primitive_deps st).

(** [m[index].push_back(v)] for every [v] of [vs] in turn. *)
Definition push_back_all (index : nat) (vs : list nat) (m : gmap nat (list nat))
  : gmap nat (list nat) :=
  foldl (fun m v => <[index := default [] (m !! index) ++ [v]]> m) m vs.

(** [m_workspace_bufs] lists the buffers of [m_workspaces] in order, and
    the buffers are pairwise distinct allocations. *)
Definition workspaces_consistent (st : emitter) : Prop :=
  m_workspace_bufs st = map buf (m_workspaces st) /\
  Forall (fun b => b < next_buf st) (m_workspace_bufs st) /\
  NoDup (m_workspace_bufs st).

(** Workspaces are only appended, and stay consistent. *)
Definition keeps_workspaces (st st' : emitter) : Prop :=
  (exists l, m_workspaces st' = m_workspaces st ++ l) /\
  (workspaces_consistent st -> workspaces_consistent st').

(** Every index with a dependency list is an index of the registry. *)
Definition deps_in_range (st : emitter) : Prop :=
  forall i, is_Some (m_primitive_deps st !! i) -> i < length (m_mkldnn_primitives st).

(** The registry grows at its end and, where the dependency table was in
    range, it stays in range and the lists of the existing indices are
    untouched. *)
Definition frames (st st' : emitter) : Prop :=
  extends st st' /\
  (deps_in_range st ->
   deps_in_range st' /\
   forall i, i < length (m_mkldnn_primitives st) ->
             m_primitive_deps st' !! i = m_primitive_deps st !! i).

(** The registry does not shrink and the dependency table stays in
    range. *)
Definition keeps_range (st st' : emitter) : Prop :=
  size_le st st' /\ (deps_in_range st -> deps_in_range st').

(** The registry holds every object created so far, in the order of
    creation. *)
Definition all_held (st : emitter) : Prop := held st = seq 0 (length (heap st)).

Definition keeps_all_held (st st' : emitter) : Prop := all_held st -> all_held st'.

Definition constructs_only (cs : list call) : Prop :=
  Forall (fun c => match c with Construct _ => True | Rebuild _ _ => False end) cs.

(** The member functions whose body has a [try] block. *)
Definition has_try_block (c : construct_call) : bool :=
  match c with
  | construct_convolution_forward _ _ _ _ _ _ _ _
  | construct_convolution_forward_bias _ _ _ _ _ _ _ _ _
  | construct_reorder _ _ => true
  | _ => false
  end.

(** Whatever [m] throws is the vendor's [mkldnn::error]. *)
Definition throws_mkldnn_error {A} (m : M A) : Prop :=
  forall st e st', m st = Throw e st' -> exists message, e = mkldnn_error message.

(** [index] is a position of the registry and its dependency list has at
    least [n] entries, of which those at the positions outside [ws] are
    positions of the registry. *)
Definition deps_ok (index n : nat) (ws : list nat) (st : emitter) : Prop :=
  index < length (m_mkldnn_primitives st) /\
  exists l, m_primitive_deps st !! index = Some l /\ n <= length l /\
            forall i v, i < n -> l !! i = Some v -> i ∉ ws ->
                        v < length (m_mkldnn_primitives st).

(** Started where the lists [ds] are in that shape, the indices [Rg] are
    positions of the registry and the slots [L] hold an object, [m] has no
    undefined behaviour and leaves all of this as it is. *)
Definition rebuild_safe {A} (ds : list (nat * nat * list nat)) (Rg L : list nat) (m : M A)
  : Prop :=
  forall st,
    Forall (fun d => deps_ok d.1.1 d.1.2 d.2 st) ds ->
    Forall (fun v => v < length (m_mkldnn_primitives st)) Rg ->
    Forall (live st) L ->
    match m st with
    | Ok _ st' | Throw _ st' =>
        Forall (fun d => deps_ok d.1.1 d.1.2 d.2 st') ds /\
        Forall (fun v => v < length (m_mkldnn_primitives st')) Rg /\
        Forall (live st') L
    | Undefined => False
    end.

(** How many leading entries of its dependency list a rebuild uses. *)
Definition dependencies_used (r : rebuild_call) : nat :=
  match r with
  | rebuild_memory_primitive _ => 0
  | rebuild_quantize_reorder _ _ _ _ => 2
  | rebuild_convolution_backward_weights_bias _ _ => 4
  | rebuild_convolution_backward_weights _ _ => 3
  | rebuild_convolution_backward_data _ _ => 3
  | rebuild_pooling_forward _ => 2
  | rebuild_pooling_backward _ _ => 2
  | rebuild_max_pooling_backward _ _ _ _ => 4
  | rebuild_max_pooling_with_indices_forward _ => 3
  | rebuild_max_pooling_with_indices_backward _ _ => 3
  | rebuild_reorder _ _ => 2
  | rebuild_lrn_forward _ => 2
  | rebuild_relu_forward _ => 2
  | rebuild_relu_backward _ _ => 3
  | rebuild_sigmoid_forward _ => 2
  | rebuild_sigmoid_backward _ _ => 3
  | rebuild_elementwise_add _ => 3
  | rebuild_batchnorm_forward _ _ _ _ => 5
  | rebuild_batchnorm_backward _ _ _ => 7
  | rebuild_rnn_forward _ => 9
  | rebuild_concat _ inputs_data_desc => length inputs_data_desc + 1
  | rebuild_slice _ _ _ _ => 2
  | rebuild_softmax_forward _ => 2
  | rebuild_leaky_relu _ => 2
  | rebuild_bounded_relu _ => 2
  end.

(** The dependency lists that a rebuild reads and writes: the index, the
    number of leading entries it uses, and the position among them that is
    only written, with the index of a workspace buffer. *)
Definition rebuild_reads (r : rebuild_call) (index : nat) : list (nat * nat * list nat) :=
  match rebuild_kind r with
  | None => []
  | Some k =>
      let ws := match workspace_buffer_position k with Some i => [i] | None => [] end in
      match rebuild_forward_index r with
      | Some fwd_pool_index => [(fwd_pool_index, dependencies_used r, ws)]
      | None => []
      end ++ [(index, dependencies_used r, ws)]
  end.

(** The state is prepared for the rebuild [r] of [index]. *)
Definition prepared_for (r : rebuild_call) (index : nat) (st : emitter) : Prop :=
  Forall (fun d => deps_ok d.1.1 d.1.2 d.2 st) (rebuild_reads r index).

(** An emitter on which the slots of an rnn primitive have been reserved. *)
Definition rnn_reserved : emitter :=
  state_after (reserve_primitive_space 9 true empty_emitter).

(** The call is an in-place rebuild that assigns entries of the dependency
    list of [index] anew: the rebuild of an rnn primitive on [index], or of
    a max pooling backward primitive on [index] or with [index] as the
    forward primitive. *)
Definition reassigns_dependencies (index : nat) (c : call) : Prop :=
  match c with
  | Construct _ => False
  | Rebuild r j =>
      match rebuild_kind r with
      | Some rnn_forward_k => j = index
      | Some max_pooling_backward => j = index \/ rebuild_forward_index r = Some index
      | _ => False
      end
  end.

(** The dependency lists of the indices outside [js] are untouched. *)
Definition other_lists (js : list nat) (st st' : emitter) : Prop :=
  forall i, i ∉ js -> m_primitive_deps st' !! i = m_primitive_deps st !! i.

(** The registry does not shrink and, where the dependency table was in
    range, it stays in range and a list recorded for [index] stays as it
    is. *)
Definition keeps_list (index : nat) (st st' : emitter) : Prop :=
  size_le st st' /\
  (deps_in_range st ->
   deps_in_range st' /\
   forall l, m_primitive_deps st !! index = Some l ->
             m_primitive_deps st' !! index = Some l).

(** An rnn primitive, then a second one, and the rebuild of the second. *)
Definition rnn_history : list call :=
  [Construct rnn_construct; Rebuild rnn_rebuild 17].

Definition rnn_after_history : emitter :=
  default empty_emitter (run_calls accept_all rnn_history rnn_constructed).

End Emitter.

(* ===================================================================== *)
(** * Part II: properties *)
(* ===================================================================== *)

Module GpuUtilFacts.
Import GpuUtil.
Local Open Scope Z_scope.


Lemma wrap64_small x : 0 <= x < 2 ^ 64 -> wrap64 x = x.
Proof. intros H. unfold wrap64. apply Z.mod_small. exact H. Qed.

Lemma wrap64_range x : 0 <= wrap64 x < 2 ^ 64.
Proof. unfold wrap64. apply Z.mod_pos_bound. reflexivity. Qed.

Lemma wrap64_mul_l a b : wrap64 (wrap64 a * b) = wrap64 (a * b).
Proof. unfold wrap64. apply Z.mul_mod_idemp_l. discriminate. Qed.

Lemma wrap64_mul_r a b : wrap64 (a * wrap64 b) = wrap64 (a * b).
Proof. unfold wrap64. apply Z.mul_mod_idemp_r. discriminate. Qed.

Lemma wrap64_pow a n : 0 <= n -> wrap64 (wrap64 a ^ n) = wrap64 (a ^ n).
Proof.
  intros Hn. pattern n. apply natlike_ind; [reflexivity| |exact Hn].
  intros k Hk IH. rewrite !Z.pow_succ_r by exact Hk.
  rewrite wrap64_mul_l, <- wrap64_mul_r, IH, wrap64_mul_r. reflexivity.
Qed.

(** The loop computes [result * base ^ exp] modulo [2^64], and leaves
    through its [break] before the fuel is used up. *)
Lemma powU64_loop_spec fuel :
  forall result base exp,
    0 <= exp < 2 ^ Z.of_nat fuel -> (0 < fuel)%nat ->
    exists r, powU64_loop fuel result base exp = Some r /\
              wrap64 r = wrap64 (result * base ^ exp).
Proof.
  induction fuel as [|fuel IH]; intros result base exp Hexp Hfuel; [lia|].
  cbn [powU64_loop].
  assert (Hbit : Z.land exp 1 = exp mod 2) by (apply (Z.land_ones exp 1); lia).
  rewrite Z.shiftr_div_pow2 by lia. change (2 ^ 1) with 2.
  pose proof (Z.div_mod exp 2 ltac:(lia)) as Hdm.
  pose proof (Z.mod_pos_bound exp 2 ltac:(lia)) as Hm.
  rewrite Hbit.
  set (r1 := if negb (exp mod 2 =? 0) then wrap64 (result * base) else result).
  assert (Hr1 : wrap64 r1 = wrap64 (result * base ^ (exp mod 2))).
  { unfold r1. destruct (Z.eqb_spec (exp mod 2) 0) as [E|E]; cbn [negb].
    - rewrite E, Z.pow_0_r, Z.mul_1_r. reflexivity.
    - replace (exp mod 2) with 1 by lia. rewrite Z.pow_1_r.
      unfold wrap64. apply Z.mod_mod. discriminate. }
  assert (Hsplit : result * base ^ exp
                   = result * base ^ (exp mod 2) * (base * base) ^ (exp / 2)).
  { rewrite Hdm at 1. rewrite Z.pow_add_r by lia. rewrite Z.pow_mul_r by lia.
    replace (base ^ 2) with (base * base) by ring. ring. }
  destruct (Z.eqb_spec (exp / 2) 0) as [E|E].
  - exists r1. split; [reflexivity|]. rewrite Hr1, Hsplit, E, Z.pow_0_r, Z.mul_1_r.
    reflexivity.
  - assert (Hhalf : 0 <= exp / 2 < 2 ^ Z.of_nat fuel).
    { rewrite Nat2Z.inj_succ, Z.pow_succ_r in Hexp by lia. lia. }
    assert (Hf : (0 < fuel)%nat).
    { destruct fuel; [|lia]. cbn in Hhalf. lia. }
    destruct (IH r1 (wrap64 (base * base)) (exp / 2) Hhalf Hf) as (r & Hr & Heq).
    exists r. split; [exact Hr|]. rewrite Heq, Hsplit.
    rewrite <- wrap64_mul_r, wrap64_pow, wrap64_mul_r by lia.
    rewrite <- wrap64_mul_l, Hr1, wrap64_mul_l. reflexivity.
Qed.

Lemma powU64_loop_range fuel :
  forall result base exp r,
    0 <= result < 2 ^ 64 ->
    powU64_loop fuel result base exp = Some r -> 0 <= r < 2 ^ 64.
Proof.
  induction fuel as [|fuel IH]; intros result base exp r Hres; cbn [powU64_loop];
    [discriminate|].
  set (r1 := if negb (Z.land exp 1 =? 0) then wrap64 (result * base) else result).
  assert (Hr1 : 0 <= r1 < 2 ^ 64).
  { unfold r1. destruct (negb _); [apply wrap64_range | exact Hres]. }
  destruct (Z.shiftr exp 1 =? 0); [intros [= <-]; exact Hr1|].
  apply IH. exact Hr1.
Qed.

(** [_powU64] returns [base ^ exp] reduced modulo [2^64], for every
    [uint64_t] exponent. *)
Lemma powU64_spec base exp :
  0 <= exp < 2 ^ 64 -> _powU64 base exp = Some (wrap64 (base ^ exp)).
Proof.
  intros Hexp. unfold _powU64.
  destruct (powU64_loop_spec 64 1 base exp Hexp ltac:(lia)) as (r & Hr & Heq).
  rewrite Hr. f_equal.
  rewrite <- (wrap64_small r), Heq, Z.mul_1_l; [reflexivity|].
  apply (powU64_loop_range 64 1 base exp); [lia | exact Hr].
Qed.

Lemma powU64_two p : 0 <= p < 64 -> _powU64 2 p = Some (2 ^ p).
Proof.
  intros Hp. rewrite powU64_spec by lia. f_equal. apply wrap64_small.
  split; [apply Z.pow_nonneg; lia | apply Z.pow_lt_mono_r; lia].
Qed.

(** ** The search loop of [_magicU32] *)


Lemma magic_e_range d p : 1 <= d -> 0 <= magic_e d p <= d - 1.
Proof.
  intros Hd. unfold magic_e.
  pose proof (Z.mod_pos_bound (2 ^ p - 1) d ltac:(lia)). lia.
Qed.

Lemma magic_m_mul d p : 1 <= d -> magic_m d p * d = 2 ^ p + magic_e d p.
Proof.
  intros Hd. unfold magic_m.
  pose proof (Z.div_mod (2 ^ p - 1) d ltac:(lia)) as Hqr.
  assert (E : 2 ^ p + magic_e d p = d * ((2 ^ p - 1) / d + 1)) by (unfold magic_e; lia).
  rewrite E, (Z.mul_comm d), Z.div_mul by lia. reflexivity.
Qed.

(** No operation of the test or of the magic number wraps around while
    [pow2 = 2^p] with [p <= 62], [nc < 2^32] and [d <= 2^32]. *)
Lemma magic_test_exact nc d p :
  0 <= nc < 2 ^ 32 -> 1 <= d <= 2 ^ 32 -> 0 <= p <= 62 ->
  magic_test nc d (2 ^ p) = (nc * magic_e d p <? 2 ^ p).
Proof.
  intros Hnc Hd Hp. unfold magic_test.
  assert (H1 : 1 <= 2 ^ p) by (apply Z.lt_pred_le, Z.pow_pos_nonneg; lia).
  assert (H2 : 2 ^ p <= 2 ^ 62) by (apply Z.pow_le_mono_r; lia).
  pose proof (magic_e_range d p ltac:(lia)) as He. unfold magic_e in *.
  rewrite (wrap64_small (d - 1)) by lia.
  rewrite (wrap64_small (2 ^ p - 1)) by lia.
  rewrite (wrap64_small (d - 1 - _)) by lia.
  rewrite wrap64_small; [reflexivity|].
  split; [apply Z.mul_nonneg_nonneg; lia|].
  apply Z.le_lt_trans with (2 ^ 32 * (d - 1 - (2 ^ p - 1) mod d)).
  - apply Z.mul_le_mono_nonneg_r; lia.
  - lia.
Qed.

Lemma magic_value_exact d p :
  1 <= d <= 2 ^ 32 -> 0 <= p <= 62 -> magic_value d (2 ^ p) = magic_m d p.
Proof.
  intros Hd Hp. unfold magic_value, magic_m.
  assert (H1 : 1 <= 2 ^ p) by (apply Z.lt_pred_le, Z.pow_pos_nonneg; lia).
  assert (H2 : 2 ^ p <= 2 ^ 62) by (apply Z.pow_le_mono_r; lia).
  pose proof (magic_e_range d p ltac:(lia)) as He. unfold magic_e in *.
  rewrite (wrap64_small (2 ^ p + d)) by lia.
  rewrite (wrap64_small (2 ^ p + d - 1)) by lia.
  rewrite (wrap64_small (2 ^ p - 1)) by lia.
  rewrite wrap64_small by lia. f_equal. lia.
Qed.

(** What a successful search returns: the first [p] from [p0] on that
    passes the test. *)
Lemma magic_loop_found todo :
  forall nc d p0 m p,
    0 <= nc < 2 ^ 32 -> 1 <= d <= 2 ^ 32 ->
    0 <= p0 -> p0 + Z.of_nat todo <= 63 ->
    magic_loop todo nc d p0 = Found m p ->
    p0 <= p < p0 + Z.of_nat todo /\
    nc * magic_e d p < 2 ^ p /\ m = magic_m d p /\
    forall q, p0 <= q < p -> 2 ^ q <= nc * magic_e d q.
Proof.
  induction todo as [|todo IH]; intros nc d p0 m p Hnc Hd Hp0 Hend; cbn [magic_loop];
    [discriminate|].
  rewrite powU64_two by lia.
  rewrite magic_test_exact, magic_value_exact by lia.
  destruct (Z.ltb_spec (nc * magic_e d p0) (2 ^ p0)) as [Hlt|Hge].
  - intros [= <- <-]. repeat split; try lia.
  - intros Hloop. apply IH in Hloop; try lia.
    destruct Hloop as (Hr & Ht & Hm & Hmin). repeat split; try lia; try assumption.
    intros q Hq. destruct (Z.eq_dec q p0) as [->|]; [exact Hge|apply Hmin; lia].
Qed.

(** The search succeeds as soon as some [p] in its range passes the test. *)
Lemma magic_loop_finds todo :
  forall nc d p0 p,
    0 <= nc < 2 ^ 32 -> 1 <= d <= 2 ^ 32 ->
    0 <= p0 -> p0 + Z.of_nat todo <= 63 ->
    p0 <= p < p0 + Z.of_nat todo ->
    nc * magic_e d p < 2 ^ p ->
    exists m p', magic_loop todo nc d p0 = Found m p'.
Proof.
  induction todo as [|todo IH]; intros nc d p0 p Hnc Hd Hp0 Hend Hp Ht; cbn [magic_loop];
    [lia|].
  rewrite powU64_two by lia.
  rewrite magic_test_exact by lia.
  destruct (Z.ltb_spec (nc * magic_e d p0) (2 ^ p0)) as [Hlt|Hge]; [eauto|].
  apply (IH nc d (p0 + 1) p); try lia.
  destruct (Z.eq_dec p p0) as [->|]; lia.
Qed.


(** Hacker's Delight, magicgu: the mathematical content. *)
Lemma magicgu_sound (nmax d p : Z) :
  1 <= d <= nmax + 1 -> 0 <= p ->
  ((nmax + 1) / d * d - 1) * (d - 1 - (2 ^ p - 1) mod d) < 2 ^ p ->
  forall n, 0 <= n <= nmax ->
    n / d = (n * ((2 ^ p + (d - 1 - (2 ^ p - 1) mod d)) / d)) / 2 ^ p.
Proof.
  intros Hd Hp Htest n Hn.
  assert (HP : 0 < 2 ^ p) by (apply Z.pow_pos_nonneg; lia).
  set (P := 2 ^ p) in *. clearbody P.
  pose proof (Z.div_mod (P - 1) d ltac:(lia)) as Hqr.
  pose proof (Z.mod_pos_bound (P - 1) d ltac:(lia)) as Hr.
  set (r := (P - 1) mod d) in *. set (q := (P - 1) / d) in *. clearbody r q.
  set (e := d - 1 - r) in *.
  assert (Hm : (P + e) / d = q + 1).
  { symmetry. apply Z.div_unique_exact; [lia|]. unfold e. lia. }
  rewrite Hm.
  pose proof (Z.div_mod n d ltac:(lia)) as Hkj.
  pose proof (Z.mod_pos_bound n d ltac:(lia)) as Hj.
  change (n / d) with (n / d) . set (j := n mod d) in *. set (k := n / d) in *. clearbody j k.
  pose proof (Z.div_mod (nmax + 1) d ltac:(lia)) as HQ.
  pose proof (Z.mod_pos_bound (nmax + 1) d ltac:(lia)) as HR.
  set (Q := (nmax + 1) / d) in *. set (R := (nmax + 1) mod d) in *. clearbody Q R.
  assert (HQ1 : 1 <= Q).
  { destruct (Z_lt_le_dec Q 1); [|lia]. assert (d * Q <= 0) by nia. lia. }
  assert (Hk0 : 0 <= k).
  { destruct (Z_lt_le_dec k 0); [|lia]. assert (d * k <= - d) by nia. lia. }
  assert (Hmd : d * (q + 1) = P + e) by (unfold e; lia).
  assert (Hkey : n * e < (d - j) * P).
  { destruct (Z_le_gt_dec n (Q * d - 1)) as [Hle|Hgt].
    - assert (n * e <= (Q * d - 1) * e) by (apply Z.mul_le_mono_nonneg_r; unfold e; lia).
      assert (P <= (d - j) * P) by nia. lia.
    - assert (Hk : k = Q).
      { assert (d * k < d * (Q + 1)) by lia.
        assert (d * (Q - 1) < d * k) by lia.
        assert (k < Q + 1) by nia. assert (Q - 1 < k) by nia. lia. }
      assert (Hj2 : j <= d - 2) by (rewrite Hk in Hkj; lia).
      assert (H1 : (1 + j) * e <= (Q * d - 1) * e).
      { apply Z.mul_le_mono_nonneg_r; [unfold e; lia|]. nia. }
      assert (H2 : n * e = (Q * d - 1) * e + (1 + j) * e) by (rewrite Hk in Hkj; nia).
      assert (2 * P <= (d - j) * P) by nia. lia. }
  apply Z.div_unique with (r := n * (q + 1) - P * k); [|lia].
  left.
  assert (Hrem : d * (n * (q + 1) - P * k) = P * j + n * e).
  { replace (d * (n * (q + 1) - P * k)) with (n * (d * (q + 1)) - P * (d * k)) by ring.
    rewrite Hmd. replace (d * k) with (n - j) by lia. ring. }
  assert (He : 0 <= e) by (unfold e; lia).
  split.
  - apply (Z.mul_le_mono_pos_l _ _ d); [lia|]. rewrite Z.mul_0_r, Hrem.
    pose proof (Z.mul_nonneg_nonneg P j). pose proof (Z.mul_nonneg_nonneg n e). lia.
  - apply (Z.mul_lt_mono_pos_l d); [lia|]. rewrite Hrem.
    replace ((d - j) * P) with (d * P - P * j) in Hkey by ring. lia.
Qed.

(** ** [_magicU32] at [nmax = 0x7fffffff] *)


Lemma nc31_range d : 1 <= d <= 2 ^ 31 -> 2 ^ 30 <= nc31 d < 2 ^ 31.
Proof.
  intros Hd. unfold nc31.
  pose proof (Z.div_mod (2 ^ 31) d ltac:(lia)) as Hqr.
  pose proof (Z.mod_pos_bound (2 ^ 31) d ltac:(lia)) as Hr.
  assert (HQ : 1 <= 2 ^ 31 / d) by (apply Z.div_le_lower_bound; lia).
  assert (Hge : d <= 2 ^ 31 / d * d).
  { replace d with (1 * d) at 1 by ring. apply Z.mul_le_mono_nonneg_r; lia. }
  change (2 ^ 30) with 1073741824 in *. change (2 ^ 31) with 2147483648 in *. lia.
Qed.

Lemma magicU32_31_unfold d :
  1 <= d <= 2 ^ 31 -> _magicU32 0x7fffffff d = magic_loop 63 (nc31 d) d 0.
Proof.
  intros Hd. cbv beta zeta delta [_magicU32].
  destruct (Z.eqb_spec d 0) as [|_]; [lia|].
  change (Z.to_nat (wrap64 (2 * wrap64 (_msbU64 0x7fffffff + 1) + 1))) with 63%nat.
  change (wrap64 (0x7fffffff + 1)) with (2 ^ 31).
  pose proof (nc31_range d Hd) as Hnc. unfold nc31 in *.
  change (2 ^ 30) with 1073741824 in *. change (2 ^ 31) with 2147483648 in *.
  assert (H64 : 2 ^ 64 = 18446744073709551616) by reflexivity.
  rewrite (wrap64_small (2147483648 / d * d)) by lia.
  rewrite (wrap64_small (2147483648 / d * d - 1)) by lia.
  reflexivity.
Qed.

(** The search always succeeds for [1 <= d <= 2^31], at the first [p]
    that passes the test, and that [p] is at most 62. *)
Lemma magicU32_31_found d :
  1 <= d <= 2 ^ 31 ->
  exists m p, _magicU32 0x7fffffff d = Found m p /\
    0 <= p <= 62 /\ m = magic_m d p /\
    nc31 d * magic_e d p < 2 ^ p /\
    forall q, 0 <= q < p -> 2 ^ q <= nc31 d * magic_e d q.
Proof.
  intros Hd. rewrite magicU32_31_unfold by exact Hd.
  pose proof (nc31_range d Hd) as Hnc.
  pose proof (magic_e_range d 62 ltac:(lia)) as He.
  assert (Hnc32 : 0 <= nc31 d < 2 ^ 32).
  { change (2 ^ 30) with 1073741824 in *. change (2 ^ 31) with 2147483648 in *.
    change (2 ^ 32) with 4294967296. lia. }
  assert (Hd32 : 1 <= d <= 2 ^ 32).
  { change (2 ^ 31) with 2147483648 in *. change (2 ^ 32) with 4294967296. lia. }
  destruct (magic_loop_finds 63 (nc31 d) d 0 62) as (m & p & Hloop); try lia.
  { apply Z.le_lt_trans with (nc31 d * (2 ^ 31 - 1)).
    - apply Z.mul_le_mono_nonneg_l; lia.
    - change (2 ^ 62) with (2 ^ 31 * 2 ^ 31 ). 
      change (2 ^ 30) with 1073741824 in *. change (2 ^ 31) with 2147483648 in *. lia. }
  exists m, p. split; [exact Hloop|].
  apply magic_loop_found in Hloop; try lia.
  destruct Hloop as (Hr & Ht & Hm & Hmin). repeat split; try lia; assumption.
Qed.

(** The magic number found for [nmax = 0x7fffffff] fits in 32 bits. *)
Lemma magic_m_bound d p :
  1 <= d <= 2 ^ 31 -> 0 <= p ->
  (forall q, 0 <= q < p -> 2 ^ q <= nc31 d * magic_e d q) ->
  0 < magic_m d p < 2 ^ 32.
Proof.
  intros Hd Hp Hmin.
  pose proof (magic_m_mul d p ltac:(lia)) as Hmul.
  pose proof (magic_e_range d p ltac:(lia)) as He.
  pose proof (nc31_range d Hd) as Hnc.
  assert (HP : 0 < 2 ^ p) by (apply Z.pow_pos_nonneg; lia).
  split.
  { destruct (Z_lt_le_dec 0 (magic_m d p)) as [|Hneg]; [assumption|].
    assert (magic_m d p * d <= 0) by (apply Z.mul_nonpos_nonneg; lia). lia. }
  apply (Z.mul_lt_mono_pos_r d); [lia|]. rewrite Hmul.
  change (2 ^ 30) with 1073741824 in *. change (2 ^ 31) with 2147483648 in *.
  change (2 ^ 32) with 4294967296 in *.
  destruct (Z.eq_dec p 0) as [->|Hp0].
  - change (2 ^ 0) with 1. lia.
  - specialize (Hmin (p - 1) ltac:(lia)).
    pose proof (magic_e_range d (p - 1) ltac:(lia)) as He'.
    assert (H2 : 2 ^ p = 2 * 2 ^ (p - 1)).
    { rewrite <- Z.pow_succ_r by lia. f_equal. lia. }
    assert (nc31 d * magic_e d (p - 1) <= 2147483647 * (d - 1)).
    { apply Z.mul_le_mono_nonneg; lia. }
    lia.
Qed.

(** ** The shift amount is at least 32 *)


Lemma no_factor_from_sound todo :
  forall k0 k, no_factor_from todo k0 = true ->
               k0 <= k < k0 + Z.of_nat todo -> 2147483649 mod k = 0 -> k = 3.
Proof.
  induction todo as [|todo IH]; intros k0 k Hall Hk Hmod; [lia|].
  cbn [no_factor_from] in Hall. apply andb_prop in Hall. destruct Hall as [Hhere Hrest].
  destruct (Z.eq_dec k k0) as [->|Hne].
  - rewrite Hmod in Hhere. apply Z.eqb_eq. exact Hhere.
  - apply (IH (k0 + 1)); [exact Hrest|lia|exact Hmod].
Qed.

(** [2^31 + 1 = 3 * 715827883] has no other divisor below its square root. *)
Lemma small_factor k : 2 <= k <= 46340 -> 2147483649 mod k = 0 -> k = 3.
Proof.
  intros Hk Hmod.
  apply (no_factor_from_sound (Z.to_nat 46339) 2); [vm_compute; reflexivity| |exact Hmod].
  rewrite Z2Nat.id by lia. lia.
Qed.

Lemma factor_2_31_1 m d :
  2 <= m -> 2 <= d -> m * d = 2147483649 -> d = 3 \/ d = 715827883.
Proof.
  intros Hm Hd Hmul.
  destruct (Z_le_gt_dec d 46340) as [Hsmall|Hbig].
  - left. apply small_factor; [lia|]. rewrite <- Hmul. apply Z.mod_mul. lia.
  - right. assert (Hm' : m <= 46340).
    { destruct (Z_le_gt_dec m 46340) as [|Hm']; [assumption|].
      assert (46341 * 46341 <= m * d) by (apply Z.mul_le_mono_nonneg; lia). lia. }
    assert (m = 3).
    { apply small_factor; [lia|]. rewrite <- Hmul, Z.mul_comm. apply Z.mod_mul. lia. }
    subst m. lia.
Qed.

(** Every positive divisor of a power of two is a power of two. *)
Lemma pow2_divisor (p : nat) :
  forall a b, 0 < a -> 0 < b -> a * b = 2 ^ Z.of_nat p ->
              exists k, 0 <= k <= Z.of_nat p /\ b = 2 ^ k.
Proof.
  induction p as [|p IH]; intros a b Ha Hb Hab.
  - exists 0. split; [lia|]. change (2 ^ Z.of_nat 0) with 1 in Hab.
    change (2 ^ 0) with 1. nia.
  - rewrite Nat2Z.inj_succ, Z.pow_succ_r in Hab by lia.
    destruct (Z.even b) eqn:Eb.
    + apply Z.even_spec in Eb. destruct Eb as [b' ->].
      destruct (IH a b') as (k & Hk & ->); try lia.
      exists (k + 1). split; [lia|]. rewrite Z.pow_add_r by lia. change (2 ^ 1) with 2. ring.
    + assert (Ea : Z.even a = true).
      { assert (E : Z.even (a * b) = true) by (rewrite Hab, Z.even_mul; reflexivity).
        rewrite Z.even_mul, Eb, orb_false_r in E. exact E. }
      apply Z.even_spec in Ea. destruct Ea as [a' ->].
      destruct (IH a' b) as (k & Hk & ->); try lia.
      exists k. split; [lia|reflexivity].
Qed.

Lemma magic_shift_ge_32 d p :
  1 <= d <= 2 ^ 31 -> d <> 3 -> d <> 715827883 -> 0 <= p ->
  nc31 d * magic_e d p < 2 ^ p ->
  (forall q, 0 <= q < p -> 2 ^ q <= nc31 d * magic_e d q) ->
  magic_m d p <> 1 -> 32 <= p.
Proof.
  intros Hd Hd3 Hdx Hp Ht Hmin Hm1.
  destruct (Z_le_gt_dec 32 p) as [|Hp31]; [assumption|exfalso].
  pose proof (magic_m_mul d p ltac:(lia)) as Hmul.
  pose proof (magic_e_range d p ltac:(lia)) as He.
  pose proof (nc31_range d Hd) as Hnc.
  pose proof (magic_m_bound d p Hd Hp Hmin) as Hmb.
  assert (HP : 0 < 2 ^ p) by (apply Z.pow_pos_nonneg; lia).
  destruct (Z.eq_dec (magic_e d p) 0) as [He0|He0].
  - rewrite He0, Z.add_0_r in Hmul.
    destruct (pow2_divisor (Z.to_nat p) (magic_m d p) d) as (k & Hk & Hdk);
      [lia | lia | rewrite Z2Nat.id by lia; exact Hmul |].
    rewrite Z2Nat.id in Hk by lia.
    destruct (Z.eq_dec k p) as [->|Hkp].
    + apply Hm1. apply (Z.mul_cancel_r _ _ d); lia.
    + specialize (Hmin k ltac:(lia)).
      assert (Hek : magic_e d k = 0).
      { unfold magic_e. rewrite <- Hdk, Z.mod_small by lia. lia. }
      rewrite Hek, Z.mul_0_r in Hmin.
      assert (0 < 2 ^ k) by (apply Z.pow_pos_nonneg; lia). lia.
  - assert (Hge : 2 ^ 30 * magic_e d p <= nc31 d * magic_e d p).
    { apply Z.mul_le_mono_nonneg_r; lia. }
    assert (Hp2 : 2 ^ p <= 2 ^ 31) by (apply Z.pow_le_mono_r; lia).
    assert (He1 : magic_e d p = 1).
    { change (2 ^ 30) with 1073741824 in *. change (2 ^ 31) with 2147483648 in *. lia. }
    assert (Hp31' : p = 31).
    { destruct (Z.eq_dec p 31) as [|Hne]; [assumption|exfalso].
      assert (2 ^ p <= 2 ^ 30) by (apply Z.pow_le_mono_r; lia). lia. }
    subst p. rewrite He1 in Hmul. change (2 ^ 31 + 1) with 2147483649 in Hmul.
    destruct (factor_2_31_1 (magic_m d 31) d) as [|]; lia.
Qed.

(** ** [get_magic_u64] *)

Lemma magicgu_sound_31 d p :
  1 <= d <= 2 ^ 31 -> 0 <= p ->
  nc31 d * magic_e d p < 2 ^ p ->
  forall n, 0 <= n <= 0x7fffffff -> n / d = (n * magic_m d p) / 2 ^ p.
Proof.
  intros Hd Hp Ht n Hn.
  apply (magicgu_sound 0x7fffffff d p); [| exact Hp | exact Ht | exact Hn].
  change (0x7fffffff + 1) with (2 ^ 31). exact Hd.
Qed.

Lemma magicU64_3 : _magicU64 3 = Found 2863311531 1.
Proof. vm_compute. reflexivity. Qed.

Lemma magicgu_sound_3 n :
  0 <= n <= 0xffffffff -> n / 3 = (n * 2863311531) / 2 ^ 33.
Proof.
  intros Hn.
  apply (magicgu_sound 0xffffffff 3 33); [| lia | | exact Hn].
  - change (0xffffffff + 1) with 4294967296. lia.
  - vm_compute. reflexivity.
Qed.

(** C1 (amended). For every divisor [d] in [1, 2^31] other than
    715827883, [get_magic_u64 d] returns a pair [(m, s)] with
    [m < 2^32] and [s < 32] such that, for every [n] from 0 to [nmax]
    ([0x7fffffff], and [0xffffffff] when [d = 3]), [n / d] is [n >> s]
    when [m = 1] (the powers of two, whose shift is not reduced by 32)
    and [(n * m) >> (32 + s)] otherwise. *)
Theorem get_magic_u64_division d :
  1 <= d <= 2 ^ 31 -> d <> 715827883 ->
  exists m s,
    get_magic_u64 d = Found m s /\
    0 < m < 2 ^ 32 /\ 0 <= s < 32 /\
    forall n, 0 <= n <= magic_nmax d ->
      n / d = if m =? 1 then Z.shiftr n s else Z.shiftr (n * m) (32 + s).
Proof.
  intros Hd Hdx. unfold get_magic_u64.
  destruct (Z.eq_dec d 3) as [->|Hd3].
  - exists 2863311531, 1. split; [exact magicU64_3|].
    split; [change (2 ^ 32) with 4294967296; lia|]. split; [lia|].
    intros n Hn. change (magic_nmax 3) with 0xffffffff in Hn.
    change (2863311531 =? 1) with false. cbv iota.
    rewrite Z.shiftr_div_pow2 by lia. apply magicgu_sound_3. exact Hn.
  - destruct (magicU32_31_found d Hd) as (m & p & Hrun & Hp & Hm & Ht & Hmin).
    pose proof (magic_m_bound d p Hd ltac:(lia) Hmin) as Hmb.
    pose proof (magic_m_mul d p ltac:(lia)) as Hmul.
    pose proof (magic_e_range d p ltac:(lia)) as He.
    assert (Hnmax : magic_nmax d = 0x7fffffff).
    { unfold magic_nmax. destruct (Z.eqb_spec d 3); [contradiction|reflexivity]. }
    unfold _magicU64. rewrite Hnmax, Hrun. cbv zeta.
    destruct (Z.eqb_spec m 1) as [Hm1|Hm1]; cbn [negb].
    + exists m, p. split; [reflexivity|].
      split; [rewrite Hm; exact Hmb|].
      assert (Hp32 : p < 32).
      { destruct (Z_lt_ge_dec p 32) as [|Hge]; [assumption|exfalso].
        assert (2 ^ 32 <= 2 ^ p) by (apply Z.pow_le_mono_r; lia).
        rewrite <- Hm, Hm1 in Hmul.
        change (2 ^ 31) with 2147483648 in *. change (2 ^ 32) with 4294967296 in *. lia. }
      split; [lia|]. intros n Hn.
      destruct (Z.eqb_spec m 1) as [_|]; [|contradiction].
      rewrite Z.shiftr_div_pow2 by lia.
      rewrite (magicgu_sound_31 d p Hd ltac:(lia) Ht n Hn), <- Hm, Hm1, Z.mul_1_r.
      reflexivity.
    + assert (Hp32 : 32 <= p).
      { apply (magic_shift_ge_32 d p); try assumption; lia. }
      assert (Hs : wrap64 (p - 32) = p - 32).
      { apply wrap64_small. change (2 ^ 64) with 18446744073709551616. lia. }
      exists m, (p - 32). split; [rewrite Hs; reflexivity|].
      split; [rewrite Hm; exact Hmb|]. split; [lia|]. intros n Hn.
      destruct (Z.eqb_spec m 1) as [|_]; [contradiction|].
      replace (32 + (p - 32)) with p by lia.
      rewrite Z.shiftr_div_pow2 by lia. rewrite Hm.
      apply (magicgu_sound_31 d p Hd ltac:(lia) Ht n Hn).
Qed.

(** The divisor 7: magic number 2454267027 and shift 2, that is
    [n / 7 = (n * 2454267027) >> 34]. *)
Lemma get_magic_u64_division_witness :
  exists m s,
    get_magic_u64 7 = Found m s /\
    0 < m < 2 ^ 32 /\ 0 <= s < 32 /\
    forall n, 0 <= n <= magic_nmax 7 ->
      n / 7 = if m =? 1 then Z.shiftr n s else Z.shiftr (n * m) (32 + s).
Proof.
  apply (get_magic_u64_division 7); [vm_compute; split; discriminate | lia].
Defined.

(** C1, as stated, fails: for the divisor 1 the pair returned is [(1, 0)],
    and [(n * 1) >> (32 + 0)] is 0 for [n = 1], not [1 / 1]. *)
Lemma get_magic_u64_power_of_two_shift :
  get_magic_u64 1 = Found 1 0 /\
  0 <= 1 <= magic_nmax 1 /\
  1 / 1 <> Z.shiftr (1 * 1) (32 + 0).
Proof.
  split; [vm_compute; reflexivity|].
  split; [vm_compute; split; discriminate|].
  vm_compute. discriminate.
Qed.

(** Divisors above [2^31] have no magic number: the search throws. *)
Lemma get_magic_u64_above_nmax :
  get_magic_u64 (2 ^ 31 + 1) = NotFound /\ get_magic_u64 (2 ^ 32 - 1) = NotFound.
Proof. split; vm_compute; reflexivity. Qed.

(** The divisor 715827883 = (2^31 + 1) / 3 passes the test at [p = 31]
    with magic number 3, and [shift -= 32] wraps around. *)
Lemma get_magic_u64_715827883 :
  get_magic_u64 715827883 = Found 3 (2 ^ 64 - 1).
Proof. vm_compute. reflexivity. Qed.

(** ** [create_gpu_buffer] *)

(** C8 (amended). [create_gpu_buffer] never fails with an error and does
    not look at the status of [cudaMalloc]: whatever the status, the pointer
    that [cudaMalloc] stored is what the caller gets, a null pointer
    included; when [cudaMalloc] stores nothing, the variable that is
    returned was never assigned, which is undefined behaviour.  Two devices
    that store the same give the same result, whatever their statuses. *)
Theorem create_gpu_buffer_ignores_status rt buffer_size :
  (forall what, create_gpu_buffer rt buffer_size <> Raises what) /\
  (forall status p, cudaMalloc rt buffer_size = (status, Some p) ->
     create_gpu_buffer rt buffer_size = Returns p) /\
  (forall status, cudaMalloc rt buffer_size = (status, None) ->
     create_gpu_buffer rt buffer_size = UndefinedBehaviour) /\
  (forall rt', snd (cudaMalloc rt' buffer_size) = snd (cudaMalloc rt buffer_size) ->
     create_gpu_buffer rt' buffer_size = create_gpu_buffer rt buffer_size).
Proof.
  unfold create_gpu_buffer. repeat split.
  - intros what. destruct (snd (cudaMalloc rt buffer_size)); discriminate.
  - intros status p Hp. rewrite Hp. reflexivity.
  - intros status Hp. rewrite Hp. reflexivity.
  - intros rt' Hsame. rewrite Hsame. reflexivity.
Qed.

Lemma create_gpu_buffer_ignores_status_witness :
  create_gpu_buffer plenty_of_memory 1024 = Returns 4096.
Proof.
  apply (proj1 (proj2 (create_gpu_buffer_ignores_status plenty_of_memory 1024))
           cudaSuccess 4096).
  reflexivity.
Defined.

(** C8, as stated, fails: on a device that is out of memory the call does
    not fail with an error.  If the device stored nothing, what is returned
    is the variable that was never assigned; if it stored a null pointer,
    the caller gets the null pointer as the result. *)
Lemma create_gpu_buffer_out_of_memory :
  fst (cudaMalloc out_of_memory 1024) = cudaErrorMemoryAllocation /\
  (forall what, create_gpu_buffer out_of_memory 1024 <> Raises what) /\
  create_gpu_buffer out_of_memory 1024 = UndefinedBehaviour /\
  fst (cudaMalloc out_of_memory_null 1024) = cudaErrorMemoryAllocation /\
  create_gpu_buffer out_of_memory_null 1024 = Returns 0.
Proof.
  split; [reflexivity|]. split; [intros what; discriminate|].
  split; [reflexivity|]. split; reflexivity.
Qed.

(** * Further properties of gpu_util.cpp *)

(** ** [_powU64] *)

(** X1. [_powU64] always leaves its loop, and returns [base ^ exp] reduced
    modulo [2^64]; in particular 1 for the exponent 0. *)
Theorem powU64_modular_power base exp :
  0 <= base < 2 ^ 64 -> 0 <= exp < 2 ^ 64 ->
  _powU64 base exp = Some ((base ^ exp) mod 2 ^ 64).
Proof. intros _ Hexp. exact (powU64_spec base exp Hexp). Qed.

Lemma powU64_modular_power_witness :
  _powU64 10 20 = Some ((10 ^ 20) mod 2 ^ 64).
Proof.
  apply (powU64_modular_power 10 20); vm_compute; (split; [discriminate|reflexivity]).
Defined.

(** ** [_msbDeBruijnU32] and [_msbU64] *)

(** One step [v |= v >> s] doubles the window of bits of the argument that
    a bit of [v] collects. *)
Lemma smear_step v w s :
  0 <= s ->
  (forall n, 0 <= n ->
     Z.testbit w n = true <-> exists j, 0 <= j < s /\ Z.testbit v (n + j) = true) ->
  forall n, 0 <= n ->
    Z.testbit (Z.lor w (Z.shiftr w s)) n = true
    <-> exists j, 0 <= j < 2 * s /\ Z.testbit v (n + j) = true.
Proof.
  intros Hs Hw n Hn.
  rewrite Z.lor_spec, Z.shiftr_spec, orb_true_iff by lia.
  rewrite (Hw n), (Hw (n + s)) by lia. split.
  - intros [(j & Hj & Hb)|(j & Hj & Hb)].
    + exists j. split; [lia|exact Hb].
    + exists (s + j). split; [lia|]. rewrite Z.add_assoc. exact Hb.
  - intros (j & Hj & Hb). destruct (Z_lt_ge_dec j s) as [Hlt|Hge].
    + left. exists j. split; [lia|exact Hb].
    + right. exists (j - s). split; [lia|].
      replace (n + s + (j - s)) with (n + j) by lia. exact Hb.
Qed.

(** The five steps turn a positive 32-bit [v] into the number whose bits
    are set exactly up to the highest bit of [v]. *)
Lemma smear_ones v :
  0 < v < 2 ^ 32 ->
  let v1 := Z.lor v (Z.shiftr v 1) in
  let v2 := Z.lor v1 (Z.shiftr v1 2) in
  let v4 := Z.lor v2 (Z.shiftr v2 4) in
  let v8 := Z.lor v4 (Z.shiftr v4 8) in
  Z.lor v8 (Z.shiftr v8 16) = Z.ones (Z.log2 v + 1).
Proof.
  intros Hv v1 v2 v4 v8.
  assert (H0 : forall n, 0 <= n ->
             Z.testbit v n = true <-> exists j, 0 <= j < 1 /\ Z.testbit v (n + j) = true).
  { intros n Hn. split.
    - intros Hb. exists 0. rewrite Z.add_0_r. split; [lia|exact Hb].
    - intros (j & Hj & Hb). replace j with 0 in Hb by lia.
      rewrite Z.add_0_r in Hb. exact Hb. }
  pose proof (smear_step v v 1 ltac:(lia) H0) as H1. fold v1 in H1.
  pose proof (smear_step v v1 2 ltac:(lia) H1) as H2. fold v2 in H2.
  pose proof (smear_step v v2 4 ltac:(lia) H2) as H4. fold v4 in H4.
  pose proof (smear_step v v4 8 ltac:(lia) H4) as H8. fold v8 in H8.
  pose proof (smear_step v v8 16 ltac:(lia) H8) as H16.
  change (2 * 16) with 32 in H16.
  assert (Hlog : 0 <= Z.log2 v < 32).
  { split; [apply Z.log2_nonneg|]. apply Z.log2_lt_pow2; lia. }
  apply Z.bits_inj'. intros n Hn.
  rewrite Z.testbit_ones_nonneg by lia.
  apply eq_true_iff_eq. rewrite (H16 n Hn), Z.ltb_lt. split.
  - intros (j & Hj & Hb).
    destruct (Z_lt_ge_dec (Z.log2 v) (n + j)) as [Habove|]; [|lia].
    rewrite Z.bits_above_log2 in Hb by lia. discriminate.
  - intros Hlt. exists (Z.log2 v - n). split; [lia|].
    replace (n + (Z.log2 v - n)) with (Z.log2 v) by lia.
    apply Z.bit_log2. lia.
Qed.

(** The multiplication by the de Bruijn constant sends each of the 32
    possible results of the five steps to its own entry of the table. *)
Lemma de_Bruijn_position k :
  0 <= k < 32 ->
  nth (Z.to_nat (Z.shiftr (wrap32 (Z.ones (k + 1) * 0x07C4ACDD)) 27))
      multiply_de_Bruijn_bit_position 0 = k.
Proof.
  intros Hk.
  assert (Hall : forallb
            (fun i => nth (Z.to_nat (Z.shiftr (wrap32 (Z.ones (Z.of_nat i + 1) * 0x07C4ACDD)) 27))
                        multiply_de_Bruijn_bit_position 0 =? Z.of_nat i)
            (seq 0 32) = true) by (vm_compute; reflexivity).
  rewrite forallb_forall in Hall.
  specialize (Hall (Z.to_nat k)). rewrite Z2Nat.id in Hall by lia.
  apply Z.eqb_eq, Hall, in_seq. lia.
Qed.

Lemma msbDeBruijnU32_log2 v : 0 <= v < 2 ^ 32 -> _msbDeBruijnU32 v = Z.log2 v.
Proof.
  intros Hv. destruct (Z.eq_dec v 0) as [->|Hne]; [vm_compute; reflexivity|].
  cbv beta zeta delta [_msbDeBruijnU32].
  rewrite (smear_ones v) by lia.
  apply de_Bruijn_position.
  split; [apply Z.log2_nonneg|]. apply Z.log2_lt_pow2; lia.
Qed.

Lemma msbU64_log2 val : 0 <= val < 2 ^ 64 -> _msbU64 val = Z.log2 val.
Proof.
  intros Hval. unfold _msbU64.
  destruct (Z.ltb_spec 0x00000000FFFFFFFF val) as [Hhigh|Hlow].
  - assert (Hs : 0 < Z.shiftr val 32 < 2 ^ 32).
    { rewrite Z.shiftr_div_pow2 by lia. split.
      - apply Z.div_str_pos. change (2 ^ 32) with 4294967296. lia.
      - apply Z.div_lt_upper_bound; [lia|].
        change (2 ^ 32 * 2 ^ 32) with (2 ^ 64). lia. }
    unfold wrap32. rewrite Z.mod_small by lia.
    rewrite msbDeBruijnU32_log2 by lia.
    rewrite Z.log2_shiftr by lia.
    assert (32 <= Z.log2 val).
    { apply Z.log2_le_pow2; [lia|]. change (2 ^ 32) with 4294967296. lia. }
    lia.
  - change 0xFFFFFFFF with (Z.ones 32). rewrite Z.land_ones by lia.
    change (2 ^ 32) with 4294967296. rewrite Z.mod_small by lia.
    apply msbDeBruijnU32_log2. change (2 ^ 32) with 4294967296. lia.
Qed.

(** X2. For every 32-bit value, [_msbDeBruijnU32] is the position of the
    highest bit that is set, and 0 for the value 0. *)
Theorem msbDeBruijnU32_highest_bit v :
  0 <= v < 2 ^ 32 ->
  _msbDeBruijnU32 v = Z.log2 v /\
  (0 < v -> 2 ^ _msbDeBruijnU32 v <= v < 2 ^ (_msbDeBruijnU32 v + 1)).
Proof.
  intros Hv. rewrite msbDeBruijnU32_log2 by exact Hv. split; [reflexivity|].
  intros Hpos. apply Z.log2_spec. exact Hpos.
Qed.

Lemma msbDeBruijnU32_highest_bit_witness :
  _msbDeBruijnU32 1000 = Z.log2 1000 /\
  (0 < 1000 -> 2 ^ _msbDeBruijnU32 1000 <= 1000 < 2 ^ (_msbDeBruijnU32 1000 + 1)).
Proof.
  apply (msbDeBruijnU32_highest_bit 1000). vm_compute. split; [discriminate|reflexivity].
Defined.

(** X3. For every 64-bit value, [_msbU64] is the position of the highest
    bit that is set, and 0 for the value 0. *)
Theorem msbU64_highest_bit val :
  0 <= val < 2 ^ 64 ->
  _msbU64 val = Z.log2 val /\
  (0 < val -> 2 ^ _msbU64 val <= val < 2 ^ (_msbU64 val + 1)).
Proof.
  intros Hval. rewrite msbU64_log2 by exact Hval. split; [reflexivity|].
  intros Hpos. apply Z.log2_spec. exact Hpos.
Qed.

Lemma msbU64_highest_bit_witness :
  _msbU64 (2 ^ 40 + 5) = Z.log2 (2 ^ 40 + 5) /\
  (0 < 2 ^ 40 + 5 ->
   2 ^ _msbU64 (2 ^ 40 + 5) <= 2 ^ 40 + 5 < 2 ^ (_msbU64 (2 ^ 40 + 5) + 1)).
Proof.
  apply (msbU64_highest_bit (2 ^ 40 + 5)). vm_compute. split; [discriminate|reflexivity].
Defined.


(** ** [_magicU32] for any [nmax] below [2^31] *)

Lemma magicU32_unfold nmax d :
  0 <= nmax < 2 ^ 31 -> 1 <= d <= nmax + 1 ->
  _magicU32 nmax d
  = magic_loop (Z.to_nat (2 * (Z.log2 nmax + 1) + 1)) ((nmax + 1) / d * d - 1) d 0 /\
  0 <= (nmax + 1) / d * d - 1 <= nmax.
Proof.
  intros Hn Hd. cbv beta zeta delta [_magicU32].
  destruct (Z.eqb_spec d 0) as [|_]; [lia|].
  assert (H31 : 2 ^ 31 = 2147483648) by reflexivity.
  assert (H64 : 2 ^ 64 = 18446744073709551616) by reflexivity.
  pose proof (Z.div_mod (nmax + 1) d ltac:(lia)) as Hqr.
  pose proof (Z.mod_pos_bound (nmax + 1) d ltac:(lia)) as Hr.
  assert (HQ : 1 <= (nmax + 1) / d) by (apply Z.div_le_lower_bound; lia).
  assert (Hge : d <= (nmax + 1) / d * d).
  { replace d with (1 * d) at 1 by ring. apply Z.mul_le_mono_nonneg_r; lia. }
  assert (Hle : (nmax + 1) / d * d <= nmax + 1) by lia.
  assert (Hlog : 0 <= Z.log2 nmax < 31).
  { split; [apply Z.log2_nonneg|].
    destruct (Z.eq_dec nmax 0) as [->|]; [cbn; lia|]. apply Z.log2_lt_pow2; lia. }
  rewrite msbU64_log2 by lia.
  rewrite (wrap64_small (nmax + 1)) by lia.
  rewrite (wrap64_small ((nmax + 1) / d * d)) by lia.
  rewrite (wrap64_small ((nmax + 1) / d * d - 1)) by lia.
  rewrite (wrap64_small (Z.log2 nmax + 1)) by lia.
  rewrite (wrap64_small (2 * (Z.log2 nmax + 1) + 1)) by lia.
  split; [reflexivity|lia].
Qed.

(** X4. For every [nmax] below [2^31] and every divisor from 1 to
    [nmax + 1], [_magicU32] finds a magic number [m] and a shift [p] of at
    most twice the bit length of [nmax], and [n / d] is [(n * m) >> p] for
    every [n] from 0 to [nmax]. *)
Theorem magicU32_finds_division nmax d :
  0 <= nmax < 2 ^ 31 -> 1 <= d <= nmax + 1 ->
  exists m p,
    _magicU32 nmax d = Found m p /\
    0 <= p <= 2 * (Z.log2 nmax + 1) /\ 0 < m /\
    forall n, 0 <= n <= nmax -> n / d = Z.shiftr (n * m) p.
Proof.
  intros Hn Hd.
  destruct (magicU32_unfold nmax d Hn Hd) as [Hrun Hnc]. rewrite Hrun.
  set (nc := (nmax + 1) / d * d - 1) in *.
  set (b := Z.log2 nmax + 1).
  assert (H31 : 2 ^ 31 = 2147483648) by reflexivity.
  assert (H32 : 2 ^ 32 = 4294967296) by reflexivity.
  assert (Hb : 1 <= b <= 31).
  { unfold b. split; [pose proof (Z.log2_nonneg nmax); lia|].
    destruct (Z.eq_dec nmax 0) as [->|]; [cbn; lia|].
    assert (Z.log2 nmax < 31) by (apply Z.log2_lt_pow2; lia). lia. }
  assert (Hpow : nmax < 2 ^ b).
  { unfold b. destruct (Z.eq_dec nmax 0) as [->|]; [cbn; lia|].
    apply Z.log2_spec. lia. }
  pose proof (magic_e_range d (2 * b) ltac:(lia)) as He.
  assert (Htop : nc * magic_e d (2 * b) < 2 ^ (2 * b)).
  { replace (2 * b) with (b + b) at 2 by lia. rewrite Z.pow_add_r by lia.
    apply Z.le_lt_trans with (nmax * magic_e d (2 * b)).
    - apply Z.mul_le_mono_nonneg_r; lia.
    - apply Z.le_lt_trans with (nmax * 2 ^ b).
      + apply Z.mul_le_mono_nonneg_l; lia.
      + apply Z.mul_lt_mono_pos_r; lia. }
  destruct (magic_loop_finds (Z.to_nat (2 * b + 1)) nc d 0 (2 * b)) as (m & p & Hloop);
    try lia.
  exists m, p. split; [exact Hloop|].
  apply magic_loop_found in Hloop; try lia.
  destruct Hloop as (Hr & Ht & Hm & Hmin).
  pose proof (magic_m_mul d p ltac:(lia)) as Hmul.
  pose proof (magic_e_range d p ltac:(lia)) as Hep.
  assert (HP : 0 < 2 ^ p) by (apply Z.pow_pos_nonneg; lia).
  split; [lia|]. split.
  - rewrite Hm. destruct (Z_lt_ge_dec 0 (magic_m d p)) as [|Hle]; [assumption|exfalso].
    assert (magic_m d p * d <= 0) by (apply Z.mul_nonpos_nonneg; lia). lia.
  - intros n Hn'. rewrite Z.shiftr_div_pow2 by lia. rewrite Hm.
    apply (magicgu_sound nmax d p); [exact Hd | lia | exact Ht | exact Hn'].
Qed.

Lemma magicU32_finds_division_witness :
  exists m p,
    _magicU32 1000 7 = Found m p /\
    0 <= p <= 2 * (Z.log2 1000 + 1) /\ 0 < m /\
    forall n, 0 <= n <= 1000 -> n / 7 = Z.shiftr (n * m) p.
Proof.
  apply (magicU32_finds_division 1000 7); vm_compute; (split; [discriminate|]);
    first [reflexivity | discriminate].
Defined.

(** ** [get_magic_u64] outside the divisors with a magic number *)

Lemma not_a_divisor_of_pow2 d p :
  2 ^ 31 < d < 2 ^ 32 -> 0 <= p -> 1 <= magic_e d p <= d - 1.
Proof.
  intros Hd Hp. pose proof (magic_e_range d p ltac:(lia)) as He.
  split; [|lia]. destruct (Z.eq_dec (magic_e d p) 0) as [He0|]; [exfalso|lia].
  pose proof (magic_m_mul d p ltac:(lia)) as Hmul.
  rewrite He0, Z.add_0_r in Hmul.
  assert (HP : 0 < 2 ^ p) by (apply Z.pow_pos_nonneg; lia).
  assert (Hm : 0 < magic_m d p).
  { destruct (Z_lt_ge_dec 0 (magic_m d p)) as [|Hle]; [assumption|exfalso].
    assert (magic_m d p * d <= 0) by (apply Z.mul_nonpos_nonneg; lia). lia. }
  destruct (pow2_divisor (Z.to_nat p) (magic_m d p) d) as (k & Hk & Hdk);
    [lia | lia | rewrite Z2Nat.id by lia; exact Hmul |].
  destruct (Z_le_gt_dec k 31) as [Hle|Hgt].
  - assert (2 ^ k <= 2 ^ 31) by (apply Z.pow_le_mono_r; lia). lia.
  - assert (2 ^ 32 <= 2 ^ k) by (apply Z.pow_le_mono_r; lia). lia.
Qed.

Lemma magic_test_wrapped_nc d p :
  2 ^ 31 < d < 2 ^ 32 -> 0 <= p <= 62 ->
  magic_test (2 ^ 64 - 1) d (2 ^ p) = false.
Proof.
  intros Hd Hp. unfold magic_test.
  assert (H31 : 2 ^ 31 = 2147483648) by reflexivity.
  assert (H32 : 2 ^ 32 = 4294967296) by reflexivity.
  assert (H62 : 2 ^ 62 = 4611686018427387904) by reflexivity.
  assert (H64 : 2 ^ 64 = 18446744073709551616) by reflexivity.
  assert (H1 : 1 <= 2 ^ p) by (apply Z.lt_pred_le, Z.pow_pos_nonneg; lia).
  assert (H2 : 2 ^ p <= 2 ^ 62) by (apply Z.pow_le_mono_r; lia).
  pose proof (not_a_divisor_of_pow2 d p Hd ltac:(lia)) as He. unfold magic_e in He.
  rewrite (wrap64_small (d - 1)) by lia.
  rewrite (wrap64_small (2 ^ p - 1)) by lia.
  rewrite (wrap64_small (d - 1 - _)) by lia.
  set (e := d - 1 - (2 ^ p - 1) mod d) in *. clearbody e.
  assert (Hw : wrap64 ((2 ^ 64 - 1) * e) = 2 ^ 64 - e).
  { unfold wrap64. symmetry. apply (Z.mod_unique _ _ (e - 1)); [lia|ring]. }
  rewrite Hw. apply Z.ltb_ge. lia.
Qed.

Lemma magic_loop_wrapped_nc todo :
  forall d p0,
    2 ^ 31 < d < 2 ^ 32 -> 0 <= p0 -> p0 + Z.of_nat todo <= 63 ->
    magic_loop todo (2 ^ 64 - 1) d p0 = NotFound.
Proof.
  induction todo as [|todo IH]; intros d p0 Hd Hp0 Hend; cbn [magic_loop];
    [reflexivity|].
  rewrite powU64_two by lia.
  rewrite magic_test_wrapped_nc by lia.
  apply IH; lia.
Qed.

(** X5. For every divisor strictly between [2^31] and [2^32],
    [get_magic_u64] ends with the exception of [_magicU32]: no magic number
    is found. *)
Theorem get_magic_u64_upper_half_throws d :
  2 ^ 31 < d < 2 ^ 32 -> get_magic_u64 d = NotFound.
Proof.
  intros Hd. unfold get_magic_u64, _magicU64.
  assert (H31 : 2 ^ 31 = 2147483648) by reflexivity.
  assert (Hnmax : magic_nmax d = 0x7fffffff).
  { unfold magic_nmax. destruct (Z.eqb_spec d 3); [lia|reflexivity]. }
  rewrite Hnmax. cbv beta zeta delta [_magicU32].
  destruct (Z.eqb_spec d 0) as [|_]; [lia|].
  change (Z.to_nat (wrap64 (2 * wrap64 (_msbU64 0x7fffffff + 1) + 1))) with 63%nat.
  change (wrap64 (0x7fffffff + 1)) with (2 ^ 31).
  rewrite (Z.div_small (2 ^ 31) d) by lia.
  change (wrap64 (wrap64 (0 * d) - 1)) with (2 ^ 64 - 1).
  rewrite (magic_loop_wrapped_nc 63 d 0) by lia. reflexivity.
Qed.

Lemma get_magic_u64_upper_half_throws_witness :
  get_magic_u64 3000000000 = NotFound.
Proof.
  apply (get_magic_u64_upper_half_throws 3000000000).
  vm_compute. split; reflexivity.
Defined.

(** X6. For a power of two [2^k] up to [2^31], [get_magic_u64] returns the
    magic number 1 and the shift [k] itself: the division is the plain
    shift [n >> k]. *)
Theorem get_magic_u64_power_of_two k :
  0 <= k <= 31 -> get_magic_u64 (2 ^ k) = Found 1 k.
Proof.
  intros Hk. unfold get_magic_u64.
  assert (H30 : 2 ^ 30 = 1073741824) by reflexivity.
  assert (H31 : 2 ^ 31 = 2147483648) by reflexivity.
  assert (Hd : 1 <= 2 ^ k <= 2 ^ 31).
  { split; [apply Z.lt_pred_le, Z.pow_pos_nonneg; lia|apply Z.pow_le_mono_r; lia]. }
  assert (Hd3 : 2 ^ k <> 3).
  { intros H3. destruct (Z_le_gt_dec k 1) as [Hle|Hgt].
    - assert (2 ^ k <= 2 ^ 1) by (apply Z.pow_le_mono_r; lia).
      change (2 ^ 1) with 2 in *. lia.
    - assert (2 ^ 2 <= 2 ^ k) by (apply Z.pow_le_mono_r; lia).
      change (2 ^ 2) with 4 in *. lia. }
  assert (Hnmax : magic_nmax (2 ^ k) = 0x7fffffff).
  { unfold magic_nmax. destruct (Z.eqb_spec (2 ^ k) 3); [contradiction|reflexivity]. }
  destruct (magicU32_31_found (2 ^ k) Hd) as (m & p & Hrun & Hp & Hm & Ht & Hmin).
  pose proof (nc31_range (2 ^ k) Hd) as Hnc.
  assert (Hek : magic_e (2 ^ k) k = 0).
  { unfold magic_e. rewrite Z.mod_small by lia. lia. }
  assert (Hpk : p = k).
  { destruct (Z.lt_trichotomy p k) as [Hlt|[Heq|Hgt]]; [exfalso|exact Heq|exfalso].
    - assert (Hpp : 2 * 2 ^ p <= 2 ^ k).
      { replace (2 * 2 ^ p) with (2 ^ (p + 1)) by (rewrite Z.pow_add_r by lia; ring).
        apply Z.pow_le_mono_r; lia. }
      assert (HP : 0 < 2 ^ p) by (apply Z.pow_pos_nonneg; lia).
      assert (Hep : magic_e (2 ^ k) p = 2 ^ k - 2 ^ p).
      { unfold magic_e. rewrite Z.mod_small by lia. lia. }
      rewrite Hep in Ht.
      assert (1 * (2 ^ k - 2 ^ p) <= nc31 (2 ^ k) * (2 ^ k - 2 ^ p))
        by (apply Z.mul_le_mono_nonneg_r; lia).
      lia.
    - specialize (Hmin k ltac:(lia)). rewrite Hek, Z.mul_0_r in Hmin. lia. }
  subst p.
  assert (Hm1 : m = 1).
  { pose proof (magic_m_mul (2 ^ k) k ltac:(lia)) as Hmul.
    rewrite Hek, Z.add_0_r in Hmul. rewrite Hm.
    apply (Z.mul_cancel_r _ _ (2 ^ k)); lia. }
  unfold _magicU64. rewrite Hnmax, Hrun, Hm1. reflexivity.
Qed.

Lemma get_magic_u64_power_of_two_witness : get_magic_u64 (2 ^ 10) = Found 1 10.
Proof. apply (get_magic_u64_power_of_two 10). lia. Defined.


End GpuUtilFacts.


Module EmitterFacts.
Import Emitter.

(** ** The relations are preorders, ordered by coarseness *)

#[export] Instance keeps_ownership_preorder : PreOrder keeps_ownership.
Proof. split; unfold keeps_ownership; [intros st H; exact H | intros a b c; tauto]. Qed.

#[export] Instance size_le_preorder : PreOrder size_le.
Proof. split; unfold size_le; [intros st; lia | intros a b c; lia]. Qed.

#[export] Instance same_shape_preorder : PreOrder same_shape.
Proof.
  split; unfold same_shape; [intros st; auto|].
  intros a b c [H1 H2] [H3 H4]. split; congruence.
Qed.

#[export] Instance same_size_preorder : PreOrder same_size.
Proof. split; unfold same_size; [intros st; auto | intros a b c; lia]. Qed.

#[export] Instance extends_preorder : PreOrder extends.
Proof.
  split; unfold extends.
  - intros st. exists []. rewrite app_nil_r. reflexivity.
  - intros a b c [l1 H1] [l2 H2]. exists (l1 ++ l2). rewrite H2, H1, app_assoc. reflexivity.
Qed.

#[export] Instance same_primitives_preorder : PreOrder same_primitives.
Proof. split; unfold same_primitives; [intros st; auto | intros a b c; congruence]. Qed.

#[export] Instance quiet_preorder : PreOrder quiet.
Proof.
  split; unfold quiet; [intros st; auto|].
  intros a b c [H1 H2] [H3 H4]. split; [congruence|lia].
Qed.

#[export] Instance quiet_deps_preorder : PreOrder quiet_deps.
Proof.
  split; unfold quiet_deps.
  - intros st. split; reflexivity.
  - intros a b c [H1 H2] [H3 H4]. split; [etransitivity; eassumption|congruence].
Qed.

#[export] Instance quiet_deps_quiet : Coarser quiet_deps quiet.
Proof. intros st st' [H _]. exact H. Qed.

#[export] Instance quiet_refl : Coarser quiet quiet.
Proof. intros st st' H. exact H. Qed.

#[export] Instance quiet_deps_refl : Coarser quiet_deps quiet_deps.
Proof. intros st st' H. exact H. Qed.

#[export] Instance quiet_keeps_ownership : Coarser quiet keeps_ownership.
Proof.
  intros st st' [Hp Hh] [Hnd Hb]. unfold owns_distinct, held in *. rewrite Hp.
  split; [exact Hnd|]. eapply Forall_impl; [exact Hb|]. cbn. intros o Ho. lia.
Qed.

#[export] Instance quiet_size_le : Coarser quiet size_le.
Proof. intros st st' [Hp _]. unfold size_le. rewrite Hp. lia. Qed.

#[export] Instance quiet_same_size : Coarser quiet same_size.
Proof. intros st st' [Hp _]. unfold same_size. rewrite Hp. reflexivity. Qed.

#[export] Instance quiet_extends : Coarser quiet extends.
Proof. intros st st' [Hp _]. exists []. rewrite Hp, app_nil_r. reflexivity. Qed.

#[export] Instance quiet_same_primitives : Coarser quiet same_primitives.
Proof. intros st st' [Hp _]. exact Hp. Qed.

#[export] Instance quiet_deps_same_shape : Coarser quiet_deps same_shape.
Proof. intros st st' [[Hp _] Hd]. split; [rewrite Hp; reflexivity | exact Hd]. Qed.

#[export] Instance quiet_deps_keeps_ownership : Coarser quiet_deps keeps_ownership.
Proof. intros st st' H. apply quiet_keeps_ownership, H. Qed.

#[export] Instance quiet_deps_size_le : Coarser quiet_deps size_le.
Proof. intros st st' H. apply quiet_size_le, H. Qed.

#[export] Instance quiet_deps_same_size : Coarser quiet_deps same_size.
Proof. intros st st' H. apply quiet_same_size, H. Qed.

#[export] Instance quiet_deps_extends : Coarser quiet_deps extends.
Proof. intros st st' H. apply quiet_extends, H. Qed.

#[export] Instance quiet_deps_same_primitives : Coarser quiet_deps same_primitives.
Proof. intros st st' H. apply quiet_same_primitives, H. Qed.

#[export] Instance same_shape_same_size : Coarser same_shape same_size.
Proof. intros st st' [H _]. exact H. Qed.

#[export] Instance same_size_size_le : Coarser same_size size_le.
Proof. intros st st' H. unfold same_size, size_le in *. lia. Qed.

#[export] Instance extends_size_le : Coarser extends size_le.
Proof. intros st st' [l H]. unfold size_le. rewrite H, length_app. lia. Qed.


#[export] Instance same_shape_size_le : Coarser same_shape size_le.
Proof. intros st st' [H _]. unfold size_le. lia. Qed.

#[export] Instance extends_refl : Coarser extends extends.
Proof. intros st st' H. exact H. Qed.

#[export] Instance same_shape_refl : Coarser same_shape same_shape.
Proof. intros st st' H. exact H. Qed.

Lemma respects_coarser {A} R1 R2 `{!Coarser R1 R2} (m : M A) :
  respects R1 m -> respects R2 m.
Proof.
  intros H st. unfold respects in H. specialize (H st).
  destruct (m st); [apply coarser, H ..|exact I].
Qed.

Section Basics.
Variable V : vendor.

(** ** Inversion of the monadic operations *)

Lemma bind_Ok {A B} (m : M A) (k : A -> M B) st b st' :
  bind m k st = Ok b st' ->
  exists a st1, m st = Ok a st1 /\ k a st1 = Ok b st'.
Proof.
  unfold bind. destruct (m st) as [a st1| |]; [eauto|discriminate|discriminate].
Qed.

Lemma ret_Ok {A} (a b : A) st st' : ret a st = Ok b st' -> b = a /\ st' = st.
Proof. intros [= -> ->]. auto. Qed.

Lemma catch_throw_Ok {A} (body : M A) (h : string -> exn) st a st' :
  catch_mkldnn_error body (fun message => throw (h message)) st = Ok a st' ->
  body st = Ok a st'.
Proof.
  unfold catch_mkldnn_error, throw.
  destruct (body st) as [? ?|[]|]; congruence.
Qed.

Lemma new_primitive_Ok p st o st' :
  new_primitive V p st = Ok o st' ->
  o = Some (length (heap st)) /\ st' = alloc p st.
Proof.
  unfold new_primitive. destruct (rejects V _); [discriminate|].
  intros [= <- <-]. auto.
Qed.

Lemma new_primitive_desc_Ok pd st a st' :
  new_primitive_desc V pd st = Ok a st' -> a = pd /\ st' = st.
Proof.
  unfold new_primitive_desc. destruct (rejects V _); [discriminate|].
  intros [= <- <-]. auto.
Qed.

Lemma insert_primitive_Ok p st i st' :
  insert_primitive p st = Ok i st' ->
  i = length (m_mkldnn_primitives st) /\ st' = with_primitives (fun l => l ++ [p]) st.
Proof.
  unfold insert_primitive. intros [= <- <-]. split; [|reflexivity].
  cbn. rewrite length_app. cbn. lia.
Qed.

Lemma primitives_deref_Ok index st o st' :
  primitives_deref index st = Ok o st' ->
  m_mkldnn_primitives st !! index = Some (Some o) /\ st' = st.
Proof.
  unfold primitives_deref.
  destruct (m_mkldnn_primitives st !! index) as [[?|]|]; [|discriminate|discriminate].
  intros [= <- <-]. auto.
Qed.

Lemma primitives_store_Ok index p st u st' :
  primitives_store index p st = Ok u st' ->
  index < length (m_mkldnn_primitives st) /\
  st' = with_primitives (fun l => <[index := p]> l) st.
Proof.
  unfold primitives_store. case_decide; [|discriminate]. intros [= <- <-]. auto.
Qed.

Lemma deps_assign_Ok index l st u st' :
  deps_assign index l st = Ok u st' -> st' = with_deps (fun m => <[index := l]> m) st.
Proof. intros [= <- <-]. reflexivity. Qed.

Lemma deps_at_Ok index i st v st' :
  deps_at index i st = Ok v st' ->
  (exists l, m_primitive_deps st !! index = Some l /\ l !! i = Some v) /\ st' = st.
Proof.
  unfold deps_at. destruct (m_primitive_deps st !! index) as [l|]; [|discriminate].
  destruct (l !! i) eqn:E; [|discriminate]. intros [= <- <-]. eauto.
Qed.

Lemma deps_store_at_Ok index i v st u st' :
  deps_store_at index i v st = Ok u st' ->
  exists l, m_primitive_deps st !! index = Some l /\ i < length l /\
            st' = with_deps (fun m => <[index := <[i := v]> l]> m) st.
Proof.
  unfold deps_store_at. destruct (m_primitive_deps st !! index) as [l|]; [|discriminate].
  case_decide; [|discriminate]. intros [= <- <-]. eauto.
Qed.

Lemma new_workspace_Ok size st w st' :
  new_workspace size st = Ok w st' ->
  w = mk_workspace (next_buf st) size /\ st' = bump_buf st.
Proof. intros [= <- <-]. auto. Qed.

Lemma insert_workspace_Ok w st i st' :
  insert_workspace w st = Ok i st' ->
  i = length (m_workspaces st) /\ st' = push_workspace w st.
Proof.
  unfold insert_workspace. intros [= <- <-]. split; [|reflexivity].
  cbn. rewrite length_app. cbn. lia.
Qed.

Lemma primitives_size_Ok st n st' :
  primitives_size st = Ok n st' -> n = length (m_mkldnn_primitives st) /\ st' = st.
Proof. intros [= <- <-]. auto. Qed.

Lemma primitives_resize_Ok n st u st' :
  primitives_resize n st = Ok u st' ->
  st' = with_primitives (fun l => take n l ++ replicate (n - length l) None) st.
Proof. intros [= <- <-]. reflexivity. Qed.

Lemma build_memory_primitive_Ok desc st i st' :
  build_memory_primitive V desc st = Ok i st' ->
  i = length (m_mkldnn_primitives st) /\
  st' = with_primitives (fun l => l ++ [Some (length (heap st))]) (alloc (memory desc) st).
Proof.
  unfold build_memory_primitive. intros H.
  apply bind_Ok in H as (p & st1 & Hnew & H).
  apply new_primitive_Ok in Hnew as [-> ->].
  apply bind_Ok in H as (i' & st2 & Hins & H).
  apply insert_primitive_Ok in Hins as [-> ->].
  apply ret_Ok in H as [-> ->]. auto.
Qed.

Lemma build_memory_primitive_at_Ok desc index st u st' :
  build_memory_primitive_at V desc index st = Ok u st' ->
  index < length (m_mkldnn_primitives st) /\
  st' = with_primitives (fun l => <[index := Some (length (heap st))]> l)
                        (alloc (memory desc) st).
Proof.
  unfold build_memory_primitive_at. intros H.
  apply bind_Ok in H as (p & st1 & Hnew & H).
  apply new_primitive_Ok in Hnew as [-> ->].
  apply primitives_store_Ok in H as [Hlt ->]. auto.
Qed.

(** ** Moving along a relation *)

Section Respects.
Context (R : emitter -> emitter -> Prop) `{!PreOrder R}.

Lemma respects_ret {A} (a : A) : respects R (ret a).
Proof. intros st. cbn. reflexivity. Qed.

Lemma respects_throw {A} e : respects R (@throw A e).
Proof. intros st. cbn. reflexivity. Qed.

Lemma respects_undefined {A} : respects R (fun _ => @Undefined A).
Proof. intros st. exact I. Qed.

Lemma respects_bind {A B} (m : M A) (k : A -> M B) :
  respects R m -> (forall a, respects R (k a)) -> respects R (bind m k).
Proof.
  intros Hm Hk st. unfold respects in Hm, Hk. unfold bind. specialize (Hm st).
  destruct (m st) as [a st1|e st1|]; [|exact Hm|exact I].
  specialize (Hk a st1). destruct (k a st1); [etransitivity; eassumption ..|exact I].
Qed.

Lemma respects_catch {A} (body : M A) (h : string -> M A) :
  respects R body -> (forall s, respects R (h s)) -> respects R (catch_mkldnn_error body h).
Proof.
  intros Hb Hh st. unfold respects in Hb, Hh. unfold catch_mkldnn_error. specialize (Hb st).
  destruct (body st) as [a st1|[what|message|] st1|]; try exact Hb.
  specialize (Hh message st1).
  destruct (h message st1); [etransitivity; eassumption ..|exact I].
Qed.

Lemma respects_for_each {A B} (body : nat -> A -> M B) :
  (forall i a, respects R (body i a)) -> forall v i, respects R (for_each body i v).
Proof.
  intros Hb v. induction v as [|a v IH]; intros i; cbn [for_each].
  - apply respects_ret.
  - apply respects_bind; [apply Hb|]. intros b.
    apply respects_bind; [apply IH|]. intros bs. apply respects_ret.
Qed.

Lemma respects_Ok {A} (m : M A) st a st' : respects R m -> m st = Ok a st' -> R st st'.
Proof. intros H E. unfold respects in H. specialize (H st). rewrite E in H. exact H. Qed.

Lemma respects_new_primitive_desc pd : respects R (new_primitive_desc V pd).
Proof. intros st. unfold new_primitive_desc. destruct (rejects V _); reflexivity. Qed.

Lemma respects_primitives_deref index : respects R (primitives_deref index).
Proof.
  intros st. unfold primitives_deref.
  destruct (m_mkldnn_primitives st !! index) as [[?|]|]; try exact I. reflexivity.
Qed.

Lemma respects_deps_at index i : respects R (deps_at index i).
Proof.
  intros st. unfold deps_at.
  destruct (m_primitive_deps st !! index) as [l|]; [|exact I].
  destruct (l !! i); [reflexivity|exact I].
Qed.

Lemma respects_primitives_size : respects R primitives_size.
Proof. intros st. cbn. reflexivity. Qed.

End Respects.

(** ** What the state-changing operations respect *)

Section Quiet.
Context (R : emitter -> emitter -> Prop).

Lemma respects_new_primitive `{!Coarser quiet_deps R} p : respects R (new_primitive V p).
Proof.
  apply (respects_coarser quiet_deps R). intros st. unfold new_primitive.
  destruct (rejects V _); [reflexivity|].
  unfold quiet_deps, quiet. cbn. rewrite length_app. cbn. repeat split; lia.
Qed.

Lemma respects_new_workspace `{!Coarser quiet_deps R} size : respects R (new_workspace size).
Proof.
  apply (respects_coarser quiet_deps R). intros st. cbn.
  unfold quiet_deps, quiet. cbn. auto.
Qed.

Lemma respects_insert_workspace `{!Coarser quiet_deps R} w : respects R (insert_workspace w).
Proof.
  apply (respects_coarser quiet_deps R). intros st. cbn.
  unfold quiet_deps, quiet. cbn. auto.
Qed.

Lemma respects_deps_assign `{!Coarser quiet R} index l : respects R (deps_assign index l).
Proof.
  apply (respects_coarser quiet R). intros st. cbn. unfold quiet. cbn. auto.
Qed.

Lemma respects_deps_push_back `{!Coarser quiet R} index v :
  respects R (deps_push_back index v).
Proof.
  apply (respects_coarser quiet R). intros st. cbn. unfold quiet. cbn. auto.
Qed.

Lemma respects_deps_store_at `{!Coarser quiet R} index i v :
  respects R (deps_store_at index i v).
Proof.
  apply (respects_coarser quiet R). intros st. unfold deps_store_at.
  destruct (m_primitive_deps st !! index); [|exact I].
  case_decide; [|exact I]. cbn. unfold quiet. cbn. auto.
Qed.

End Quiet.

Lemma respects_insert_primitive R `{!Coarser extends R} p : respects R (insert_primitive p).
Proof.
  apply (respects_coarser extends R). intros st. cbn. exists [p]. reflexivity.
Qed.

Lemma respects_primitives_store R `{!Coarser same_shape R} index p :
  respects R (primitives_store index p).
Proof.
  apply (respects_coarser same_shape R). intros st. unfold primitives_store.
  case_decide; [|exact I]. split; cbn; [apply length_insert|reflexivity].
Qed.

(** ** Ownership of the objects in the registry *)

Lemma held_app l1 l2 : omap id (l1 ++ l2) = omap (@id (option obj)) l1 ++ omap id l2.
Proof. apply omap_app. Qed.

Lemma held_replicate_None n : omap (@id (option obj)) (replicate n None) = [].
Proof. induction n as [|n IH]; [reflexivity|exact IH]. Qed.

Lemma held_insert_fresh (l : list (option obj)) :
  forall i h,
    NoDup (omap id l) -> h ∉ omap id l ->
    NoDup (omap id (<[i := Some h]> l)) /\
    forall o, o ∈ omap id (<[i := Some h]> l) -> o = h \/ o ∈ omap id l.
Proof.
  induction l as [|x l IH]; intros i h Hnd Hh; [cbn; auto|].
  destruct i as [|i].
  - cbn [list_insert omap id]. cbn. destruct x as [o|]; cbn in *.
    + apply NoDup_cons in Hnd as [Ho Hnd]. apply not_elem_of_cons in Hh as [Hne Hh].
      split; [apply NoDup_cons; auto|].
      intros o'. rewrite !elem_of_cons. tauto.
    + split; [apply NoDup_cons; auto|]. intros o'. rewrite elem_of_cons. tauto.
  - cbn [list_insert]. cbn. destruct x as [o|]; cbn in *.
    + apply NoDup_cons in Hnd as [Ho Hnd]. apply not_elem_of_cons in Hh as [Hne Hh].
      destruct (IH i h Hnd Hh) as [Hnd' Hin]. split.
      * apply NoDup_cons. split; [|exact Hnd']. intros Hc.
        apply Hin in Hc as [->|Hc]; [congruence|contradiction].
      * intros o'. rewrite !elem_of_cons. intros [->|Ho']; [tauto|].
        apply Hin in Ho'. tauto.
    + apply IH; assumption.
Qed.

Lemma owns_distinct_fresh st : owns_distinct st -> length (heap st) ∉ held st.
Proof.
  intros [_ Hb] Hin. rewrite Forall_forall in Hb. apply Hb in Hin. lia.
Qed.

(** [insert_primitive(new ...)] *)
Lemma owns_distinct_push p st :
  owns_distinct st ->
  owns_distinct (with_primitives (fun l => l ++ [Some (length (heap st))]) (alloc p st)).
Proof.
  intros Hown. pose proof (owns_distinct_fresh st Hown) as Hfresh.
  destruct Hown as [Hnd Hb]. unfold owns_distinct, held in *. cbn.
  rewrite held_app, length_app. cbn. split.
  - apply NoDup_app. repeat split; [exact Hnd| |apply NoDup_singleton].
    intros o Ho Ho'. apply list_elem_of_singleton in Ho'. subst o. contradiction.
  - apply Forall_app. split.
    + eapply Forall_impl; [exact Hb|]. cbn. intros; lia.
    + apply Forall_singleton. lia.
Qed.

(** [m_mkldnn_primitives[index] = new ...] *)
Lemma owns_distinct_store p index st :
  owns_distinct st ->
  owns_distinct
    (with_primitives (fun l => <[index := Some (length (heap st))]> l) (alloc p st)).
Proof.
  intros Hown. pose proof (owns_distinct_fresh st Hown) as Hfresh.
  destruct Hown as [Hnd Hb]. unfold owns_distinct, held in *. cbn.
  destruct (held_insert_fresh (m_mkldnn_primitives st) index _ Hnd Hfresh) as [Hnd' Hin].
  split; [exact Hnd'|]. rewrite length_app. cbn.
  rewrite Forall_forall in Hb |- *. intros o Ho.
  apply Hin in Ho as [->|Ho]; [lia|]. apply Hb in Ho. lia.
Qed.

Lemma ownership_new_insert {B} p (k : nat -> M B) :
  (forall i, respects keeps_ownership (k i)) ->
  respects keeps_ownership (o <- new_primitive V p ;; i <- insert_primitive o ;; k i).
Proof.
  intros Hk st. unfold bind at 1, new_primitive.
  destruct (rejects V _); [reflexivity|].
  unfold bind, insert_primitive.
  match goal with |- context [k ?i ?s] => specialize (Hk i s); destruct (k i s) end;
    try exact I; intros Hown; apply Hk, owns_distinct_push, Hown.
Qed.

Lemma ownership_new_store p index :
  respects keeps_ownership (o <- new_primitive V p ;; primitives_store index o).
Proof.
  intros st. unfold bind, new_primitive.
  destruct (rejects V _); [reflexivity|].
  unfold primitives_store. cbn [m_mkldnn_primitives alloc].
  case_decide; [|exact I]. intros Hown. apply owns_distinct_store, Hown.
Qed.

Lemma ownership_new_store_then {B} p index (k : M B) :
  respects keeps_ownership k ->
  respects keeps_ownership
    (o <- new_primitive V p ;; run primitives_store index o ;; k).
Proof.
  intros Hk st. unfold bind at 1, new_primitive.
  destruct (rejects V _); [reflexivity|].
  unfold bind, primitives_store. cbn [m_mkldnn_primitives alloc].
  case_decide; [|exact I].
  match goal with |- context [k ?s] => specialize (Hk s); destruct (k s) end;
    try exact I; intros Hown; apply Hk, owns_distinct_store, Hown.
Qed.

Lemma respects_build_memory_primitive R `{!Coarser extends R} `{!Coarser quiet_deps R}
    `{!PreOrder R} desc :
  respects R (build_memory_primitive V desc).
Proof.
  unfold build_memory_primitive.
  apply respects_bind; [assumption|apply respects_new_primitive; assumption|intros o].
  apply respects_bind; [assumption|apply respects_insert_primitive; assumption|intros i].
  apply respects_ret; assumption.
Qed.

Lemma respects_build_memory_primitive_at R `{!Coarser same_shape R}
    `{!Coarser quiet_deps R} `{!PreOrder R} desc index :
  respects R (build_memory_primitive_at V desc index).
Proof.
  unfold build_memory_primitive_at.
  apply respects_bind; [assumption|apply respects_new_primitive; assumption|intros o].
  apply respects_primitives_store; assumption.
Qed.

Lemma ownership_build_memory_primitive desc :
  respects keeps_ownership (build_memory_primitive V desc).
Proof.
  unfold build_memory_primitive. apply ownership_new_insert.
  intros i. apply respects_ret. apply _.
Qed.

Lemma ownership_build_memory_primitive_at desc index :
  respects keeps_ownership (build_memory_primitive_at V desc index).
Proof. apply ownership_new_store. Qed.

(** [size = m_mkldnn_primitives.size(); m_mkldnn_primitives.resize(size + c, nullptr)] *)

Lemma resize_grow c st :
  with_primitives
    (fun l => take (length (m_mkldnn_primitives st) + c) l
              ++ replicate (length (m_mkldnn_primitives st) + c - length l) None) st
  = grow c st.
Proof.
  unfold grow, with_primitives. f_equal.
  rewrite take_ge by lia. f_equal. f_equal. lia.
Qed.

Lemma respects_resize_grow {B} R `{!PreOrder R} c (k : nat -> M B) :
  (forall st, R st (grow c st)) ->
  (forall size, respects R (k size)) ->
  respects R (size <- primitives_size ;; run primitives_resize (size + c) ;; k size).
Proof.
  intros Hgrow Hk st. unfold bind, primitives_size, primitives_resize.
  rewrite resize_grow.
  specialize (Hk (length (m_mkldnn_primitives st)) (grow c st)).
  destruct (k _ _); try exact I; (etransitivity; [apply Hgrow|exact Hk]).
Qed.

Lemma grow_extends c st : extends st (grow c st).
Proof. eexists. reflexivity. Qed.

Lemma grow_size_le c st : size_le st (grow c st).
Proof. apply (coarser (R1 := extends)), grow_extends. Qed.

Lemma grow_keeps_ownership c st : keeps_ownership st (grow c st).
Proof.
  unfold keeps_ownership, owns_distinct, held, grow. cbn.
  rewrite held_app, held_replicate_None, app_nil_r. auto.
Qed.


End Basics.

(** ** Every member function

    One tactic walks through the body of a member function, statement by
    statement. *)

Ltac respects_leaf :=
  lazymatch goal with
  | |- respects _ (ret _) => apply respects_ret; apply _
  | |- respects _ (throw _) => apply respects_throw; apply _
  | |- respects _ (fun _ => Undefined) => apply respects_undefined
  | |- respects _ (new_primitive_desc _ _) => apply respects_new_primitive_desc; apply _
  | |- respects _ (primitives_deref _) => apply respects_primitives_deref; apply _
  | |- respects _ (deps_at _ _) => apply respects_deps_at; apply _
  | |- respects _ primitives_size => apply respects_primitives_size; apply _
  | |- respects keeps_ownership (build_memory_primitive _ _) =>
      apply ownership_build_memory_primitive
  | |- respects keeps_ownership (build_memory_primitive_at _ _ _) =>
      apply ownership_build_memory_primitive_at
  | |- respects _ (build_memory_primitive _ _) =>
      apply respects_build_memory_primitive; apply _
  | |- respects _ (build_memory_primitive_at _ _ _) =>
      apply respects_build_memory_primitive_at; apply _
  | |- respects _ (new_primitive _ _) => apply respects_new_primitive; apply _
  | |- respects _ (new_workspace _) => apply respects_new_workspace; apply _
  | |- respects _ (insert_workspace _) => apply respects_insert_workspace; apply _
  | |- respects _ (deps_assign _ _) => apply respects_deps_assign; apply _
  | |- respects _ (deps_push_back _ _) => apply respects_deps_push_back; apply _
  | |- respects _ (deps_store_at _ _ _) => apply respects_deps_store_at; apply _
  | |- respects _ (insert_primitive _) => apply respects_insert_primitive; apply _
  | |- respects _ (primitives_store _ _) => apply respects_primitives_store; apply _
  end.

Ltac respects_node :=
  lazymatch goal with
  | |- respects keeps_ownership
         (bind (new_primitive _ _) (fun o => bind (insert_primitive o) _)) =>
      apply ownership_new_insert; intro
  | |- respects keeps_ownership
         (bind (new_primitive _ _) (fun o => primitives_store _ o)) =>
      apply ownership_new_store
  | |- respects keeps_ownership
         (bind (new_primitive _ _) (fun o => bind (primitives_store _ o) _)) =>
      apply ownership_new_store_then
  | |- respects _ (bind primitives_size (fun _ => if ?b then _ else _)) => destruct b
  | |- respects _ (bind primitives_size (fun size => bind (primitives_resize _) _)) =>
      apply respects_resize_grow;
      [apply _ | first [apply grow_size_le | apply grow_keeps_ownership
                       | apply grow_extends] | intro]
  | |- respects _ (bind _ _) => apply respects_bind; [apply _ | | intro]
  | |- respects _ (catch_mkldnn_error _ _) => apply respects_catch; [apply _ | | intro]
  | |- respects _ (for_each _ _ _) => apply respects_for_each; [apply _ | intros]
  | |- respects _ (if ?b then _ else _) => destruct b
  | |- respects _ (match ?x with _ => _ end) => destruct x
  end.

Ltac respects_walk := repeat first [respects_leaf | respects_node].

Ltac unfold_builders :=
  unfold build_dequantization, build_quantized_max_pool, build_quantized_avg_pool;
  unfold build_quantize_reorder, build_convolution_forward,
    build_quantized_convolution_forward, build_quantized_convolution_forward_bias,
    build_convolution_forward_bias, build_convolution_backward_weights_bias,
    build_convolution_backward_weights, build_convolution_backward_data,
    build_pooling_forward, build_pooling_backward, build_max_pooling_backward,
    build_max_pooling_with_indices_forward, build_max_pooling_with_indices_backward,
    build_reorder, build_lrn_forward, build_relu_forward, build_relu_backward,
    build_sigmoid_forward, build_sigmoid_backward, build_elementwise_add,
    build_batchnorm_forward, build_batchnorm_backward, build_rnn_forward,
    build_concat, build_slice, build_softmax_forward, build_leaky_relu,
    build_bounded_relu, convolution_forward_init, reserve_primitive_space,
    build_quantize_reorder_at, build_convolution_backward_weights_bias_at,
    build_convolution_backward_weights_at, build_convolution_backward_data_at,
    build_pooling_forward_at, build_pooling_backward_at, build_max_pooling_backward_at,
    build_max_pooling_with_indices_forward_at,
    build_max_pooling_with_indices_backward_at, build_reorder_at, build_lrn_forward_at,
    build_relu_forward_at, build_relu_backward_at, build_sigmoid_forward_at,
    build_sigmoid_backward_at, build_elementwise_add_at, build_batchnorm_forward_at,
    build_batchnorm_backward_at, build_rnn_forward_at, build_concat_at, build_slice_at,
    build_softmax_forward_at, build_leaky_relu_at, build_bounded_relu_at;
  cbv zeta.

Section Members.
Variable V : vendor.

(** The index-returning member functions only append to the registry. *)
Lemma run_construct_extends c : respects extends (run_construct V c).
Proof. destruct c; cbn [run_construct]; unfold_builders; respects_walk. Qed.

(** The in-place member functions keep the size of the registry. *)
Lemma run_rebuild_same_size r index : respects same_size (run_rebuild V r index).
Proof. destruct r; cbn [run_rebuild]; unfold_builders; respects_walk. Qed.

(** All of them but the two that carry a workspace buffer leave the
    dependency table alone. *)
Lemma run_rebuild_same_shape r index :
  rebuild_kind r <> Some rnn_forward_k ->
  rebuild_kind r <> Some max_pooling_backward ->
  respects same_shape (run_rebuild V r index).
Proof.
  intros Hrnn Hmax. destruct r; cbn [run_rebuild]; cbn in Hrnn, Hmax; try congruence;
    unfold_builders; respects_walk.
Qed.

Lemma run_construct_keeps_ownership c : respects keeps_ownership (run_construct V c).
Proof. destruct c; cbn [run_construct]; unfold_builders; respects_walk. Qed.

Lemma run_rebuild_keeps_ownership r index :
  respects keeps_ownership (run_rebuild V r index).
Proof. destruct r; cbn [run_rebuild]; unfold_builders; respects_walk. Qed.

Lemma run_call_keeps_ownership c : respects keeps_ownership (run_call V c).
Proof.
  destruct c as [c|r index]; cbn [run_call]; [|apply run_rebuild_keeps_ownership].
  apply respects_bind; [apply _|apply run_construct_keeps_ownership|intros _].
  apply respects_ret. apply _.
Qed.

Lemma run_call_size_le c : respects size_le (run_call V c).
Proof.
  destruct c as [c|r index]; cbn [run_call].
  - apply respects_bind; [apply _| |intros _; apply respects_ret; apply _].
    apply (respects_coarser extends size_le), run_construct_extends.
  - apply (respects_coarser same_size size_le), run_rebuild_same_size.
Qed.

Lemma run_calls_invariant (R : emitter -> emitter -> Prop) `{!PreOrder R} :
  (forall c, respects R (run_call V c)) ->
  forall cs st st', run_calls V cs st = Some st' -> R st st'.
Proof.
  intros Hcall cs. induction cs as [|c cs IH]; intros st st'; cbn [run_calls].
  - intros [= <-]. reflexivity.
  - pose proof (Hcall c st) as Hc.
    destruct (run_call V c st) as [u st1|e st1|]; [| |discriminate];
      intros Hrest; apply IH in Hrest; etransitivity; eassumption.
Qed.

End Members.

Section Last.
Variable V : vendor.

Lemma returns_same_ret v : returns_same v (ret v).
Proof. intros st. cbn. auto. Qed.

Lemma returns_same_bind {A} v (m : M A) (k : M nat) :
  respects same_primitives m -> returns_same v k -> returns_same v (run m ;; k).
Proof.
  intros Hm Hk st. unfold respects in Hm. unfold bind. specialize (Hm st).
  destruct (m st) as [a st1| |]; try exact I.
  specialize (Hk st1). destruct (k st1) as [b st2| |]; try exact I.
  unfold same_primitives in Hm. destruct Hk as [-> Hk]. split; congruence.
Qed.

Lemma appends_last_insert p (k : nat -> M nat) :
  (forall index, returns_same index (k index)) ->
  appends_last (index <- insert_primitive p ;; k index).
Proof.
  intros Hk st. unfold bind, insert_primitive.
  match goal with |- context [k ?i ?s] => specialize (Hk i s); destruct (k i s) end;
    try exact I.
  destruct Hk as [-> Hk]. rewrite Hk. cbn. rewrite length_app. cbn. split; lia.
Qed.

Lemma appends_last_insert_primitive p : appends_last (insert_primitive p).
Proof. intros st. cbn. rewrite length_app. cbn. split; lia. Qed.

Lemma appends_last_bind {A} (m : M A) (k : A -> M nat) :
  respects size_le m -> (forall a, appends_last (k a)) -> appends_last (bind m k).
Proof.
  intros Hm Hk st. unfold respects in Hm. unfold bind. specialize (Hm st).
  destruct (m st) as [a st1| |]; try exact I.
  specialize (Hk a st1). destruct (k a st1) as [b st2| |]; try exact I.
  unfold size_le in Hm. destruct Hk as [Hlt ->]. split; lia.
Qed.

Lemma appends_last_catch (body : M nat) (h : string -> exn) :
  appends_last body ->
  appends_last (catch_mkldnn_error body (fun message => throw (h message))).
Proof.
  intros Hb st. unfold catch_mkldnn_error, throw. specialize (Hb st).
  destruct (body st) as [a st1|[] st1|]; try exact I. exact Hb.
Qed.

Lemma appends_last_return (m : M nat) :
  appends_last m -> appends_last (index <- m ;; ret index).
Proof.
  intros Hm st. unfold bind, ret. specialize (Hm st).
  destruct (m st); try exact I. exact Hm.
Qed.

Lemma returns_size_last : returns_size (n <- primitives_size ;; ret (n - 1)).
Proof. intros st. cbn. auto. Qed.

Lemma returns_size_undefined : returns_size (fun _ => Undefined).
Proof. intros st. exact I. Qed.

Lemma returns_size_bind {A} (m : M A) (k : A -> M nat) :
  respects same_primitives m -> (forall a, returns_size (k a)) ->
  returns_size (bind m k).
Proof.
  intros Hm Hk st. unfold respects in Hm. unfold bind. specialize (Hm st).
  destruct (m st) as [a st1| |]; try exact I.
  specialize (Hk a st1). destruct (k a st1) as [b st2| |]; try exact I.
  unfold same_primitives in Hm. destruct Hk as [Hk ->]. split; congruence.
Qed.

Lemma appends_last_grow c (k : nat -> M nat) :
  0 < c -> (forall size, returns_size (k size)) ->
  appends_last (size <- primitives_size ;; run primitives_resize (size + c) ;; k size).
Proof.
  intros Hc Hk st. unfold bind, primitives_size, primitives_resize.
  rewrite resize_grow.
  specialize (Hk (length (m_mkldnn_primitives st)) (grow c st)).
  destruct (k _ _) as [index st'| |]; try exact I.
  destruct Hk as [Hk ->]. rewrite Hk. cbn. rewrite length_app, length_replicate.
  split; lia.
Qed.

End Last.

Ltac same_walk :=
  repeat
    lazymatch goal with
    | |- returns_same _ (ret _) => apply returns_same_ret
    | |- returns_same _ (bind _ _) => apply returns_same_bind; [solve [respects_walk]|]
    end.

Ltac last_walk :=
  repeat
    lazymatch goal with
    | |- returns_size (bind primitives_size (fun n => ret (n - 1))) =>
        apply returns_size_last
    | |- returns_size (fun _ => Undefined) => apply returns_size_undefined
    | |- returns_size (bind _ _) => apply returns_size_bind; [solve [respects_walk]|intro]
    | |- returns_size (if ?b then _ else _) => destruct b
    | |- appends_last (insert_primitive _) => apply appends_last_insert_primitive
    | |- appends_last (catch_mkldnn_error _ _) => apply appends_last_catch
    | |- appends_last (bind ?m (fun index => ret index)) => apply appends_last_return
    | |- appends_last (bind primitives_size (fun _ => if ?b then _ else _)) => destruct b
    | |- appends_last (bind primitives_size (fun size => bind (primitives_resize _) _)) =>
        apply appends_last_grow; [lia|intro]
    | |- appends_last (bind (insert_primitive _) _) =>
        first [ apply appends_last_insert; intro; solve [same_walk]
              | apply appends_last_bind; [solve [respects_walk]|intro] ]
    | |- appends_last (bind _ _) => apply appends_last_bind; [solve [respects_walk]|intro]
    | |- appends_last (if ?b then _ else _) => destruct b
    | |- appends_last (match ?x with _ => _ end) => destruct x
    end.

Section LastMembers.
Variable V : vendor.

Lemma appends_last_undefined : appends_last (fun _ => Undefined).
Proof. intros st. exact I. Qed.

Lemma reserve_primitive_space_zero new_workspace_arg st :
  reserve_primitive_space 0 new_workspace_arg st = Undefined.
Proof.
  unfold reserve_primitive_space, bind, primitives_size, primitives_resize.
  case_decide as H; [reflexivity|]. exfalso. apply H. left. reflexivity.
Qed.

(** Every index-returning member function makes the registry longer and
    returns the index of its last slot. *)
Lemma run_construct_appends_last c : appends_last (run_construct V c).
Proof.
  destruct c; cbn [run_construct];
    try (destruct count as [|count];
         [intros st; rewrite reserve_primitive_space_zero; exact I|]);
    unfold_builders; unfold build_memory_primitive; last_walk;
    try apply appends_last_undefined.
Qed.

End LastMembers.

Section Ensures.
Variable V : vendor.

Lemma ensures_bind {A B} (Q : B -> emitter -> Prop) (m : M A) (k : A -> M B) :
  (forall a, ensures Q (k a)) -> ensures Q (bind m k).
Proof.
  intros Hk st. unfold bind. destruct (m st) as [a st1| |]; try exact I. apply Hk.
Qed.

Lemma ensures_catch {A} (Q : A -> emitter -> Prop) (body : M A) (h : string -> exn) :
  ensures Q body ->
  ensures Q (catch_mkldnn_error body (fun message => throw (h message))).
Proof.
  intros Hb st. unfold catch_mkldnn_error, throw. specialize (Hb st).
  destruct (body st) as [a st1|[] st1|]; try exact I. exact Hb.
Qed.

Lemma ensures_recorded index l :
  ensures recorded (run deps_assign index l ;; ret index).
Proof. intros st. cbn. unfold recorded. cbn. rewrite lookup_insert_eq. eauto. Qed.

End Ensures.

Ltac ensures_walk :=
  repeat
    lazymatch goal with
    | |- ensures recorded (bind (deps_assign ?i _) (fun _ => ret ?i)) =>
        apply ensures_recorded
    | |- ensures _ (catch_mkldnn_error _ _) => apply ensures_catch
    | |- ensures _ (bind _ _) => apply ensures_bind; intro
    | |- ensures _ (if ?b then _ else _) => destruct b
    end.

Section Recorded.
Variable V : vendor.

(** Every construct operation that has a rebuild records a dependency
    entry under the index it returns. *)
Lemma run_construct_recorded c k :
  construct_kind c = Some k -> ensures recorded (run_construct V c).
Proof.
  intros Hk. destruct c; cbn in Hk; try discriminate; cbn [run_construct];
    unfold_builders; ensures_walk.
Qed.

End Recorded.

(** ** Running a member function backwards

    From [f args st = Ok v st'] to what every statement of [f] did. *)

Ltac inv_leaf Hm :=
  lazymatch type of Hm with
  | build_memory_primitive _ _ _ = Ok _ _ =>
      apply build_memory_primitive_Ok in Hm as [-> ->]
  | build_memory_primitive_at _ _ _ _ = Ok _ _ =>
      apply build_memory_primitive_at_Ok in Hm as [? ->]
  | new_primitive _ _ _ = Ok _ _ => apply new_primitive_Ok in Hm as [-> ->]
  | new_primitive_desc _ _ _ = Ok _ _ => apply new_primitive_desc_Ok in Hm as [-> ->]
  | insert_primitive _ _ = Ok _ _ => apply insert_primitive_Ok in Hm as [-> ->]
  | primitives_deref _ _ = Ok _ _ => apply primitives_deref_Ok in Hm as [? ->]
  | primitives_store _ _ _ = Ok _ _ => apply primitives_store_Ok in Hm as [? ->]
  | deps_assign _ _ _ = Ok _ _ => apply deps_assign_Ok in Hm as ->
  | deps_at _ _ _ = Ok _ _ => apply deps_at_Ok in Hm as [(? & ? & ?) ->]
  | deps_store_at _ _ _ _ = Ok _ _ => apply deps_store_at_Ok in Hm as (? & ? & ? & ->)
  | new_workspace _ _ = Ok _ _ => apply new_workspace_Ok in Hm as [-> ->]
  | insert_workspace _ _ = Ok _ _ => apply insert_workspace_Ok in Hm as [-> ->]
  | primitives_size _ = Ok _ _ => apply primitives_size_Ok in Hm as [-> ->]
  | primitives_resize _ _ = Ok _ _ => apply primitives_resize_Ok in Hm as ->
  | ret _ _ = Ok _ _ => apply ret_Ok in Hm as [-> ->]
  | _ => idtac
  end.

Ltac inv_run H :=
  repeat
    lazymatch type of H with
    | bind _ _ _ = Ok _ _ =>
        let Hm := fresh "Hm" in
        apply bind_Ok in H as (? & ? & Hm & H); inv_leaf Hm
    | catch_mkldnn_error _ _ _ = Ok _ _ => apply catch_throw_Ok in H
    end;
  inv_leaf H.

Lemma lookup_app_plus {A} (l k : list A) i : (l ++ k) !! (length l + i) = k !! i.
Proof. rewrite lookup_app_r by lia. f_equal. lia. Qed.

Lemma lookup_app_here {A} (l k : list A) : (l ++ k) !! length l = k !! 0.
Proof. rewrite lookup_app_r by lia. f_equal. lia. Qed.

(** Lists built by repeated [push_back] become [l ++ [a; b; ...]], their
    lengths [length l + n], and look-ups past [l] are computed. *)
Ltac norm_lists :=
  cbn in *;
  rewrite <- ?app_assoc in *; cbn [app] in *;
  rewrite ?length_app in *; cbn [length] in *;
  rewrite <- ?Nat.add_assoc in *; cbn [Nat.add] in *;
  rewrite ?Nat.add_0_r in *;
  rewrite ?lookup_app_plus, ?lookup_app_here in *; cbn [lookup list_lookup] in *.

Ltac inv_objects :=
  repeat match goal with
         | H : Some (Some _) = Some (Some ?x) |- _ => injection H as <-
         | H : Some _ = Some ?x |- _ => is_var x; injection H as <-
         end.

Ltac norm := repeat (progress (norm_lists; inv_objects)).

Section Convolution.
Variable V : vendor.

Lemma convolution_forward_init_run with_bias st :
  let n := length (m_mkldnn_primitives st) in
  convolution_forward_init with_bias st
  = Ok (n + (if with_bias then 4 else 3))
       (with_deps
          (fun m => <[n + (if with_bias then 4 else 3) :=
                        if with_bias then [n; n + 1; n + 2; n + 3]
                        else [n; n + 1; n + 2]]> m)
          (grow (if with_bias then 5 else 4) st)).
Proof.
  destruct with_bias;
    unfold convolution_forward_init, bind, primitives_size, primitives_resize,
      deps_assign, ret;
    rewrite resize_grow; cbn; rewrite length_app; cbn.
  - replace (length (m_mkldnn_primitives st) + 5 - 1)
      with (length (m_mkldnn_primitives st) + 4) by lia. reflexivity.
  - replace (length (m_mkldnn_primitives st) + 4 - 1)
      with (length (m_mkldnn_primitives st) + 3) by lia. reflexivity.
Qed.


End Convolution.

Section Quantized.
Variable V : vendor.


(** C7. The quantized reorder and both quantized convolutions create
    their primitive with rounding mode round-to-nearest and with the
    supplied scale as output scales under the explicit mask 0; the rebuild
    of the quantized reorder uses the mask it is given. *)
Theorem quantized_primitives_round_and_scale :
  (forall i r scales st idx st',
      build_quantize_reorder V i r scales st = Ok idx st' ->
      quantized_at st' idx 0 scales) /\
  (forall i w r s d pb pa scale pops st idx st',
      build_quantized_convolution_forward V i w r s d pb pa scale pops st = Ok idx st' ->
      quantized_at st' idx 0 [scale]) /\
  (forall i w b r s d pb pa scale pops st idx st',
      build_quantized_convolution_forward_bias V i w b r s d pb pa scale pops st
      = Ok idx st' ->
      quantized_at st' idx 0 [scale]) /\
  (forall i r scales index mask st u st',
      build_quantize_reorder_at V i r scales index mask st = Ok u st' ->
      quantized_at st' index mask scales).
Proof.
  repeat split.
  - intros i r scales st idx st' H. unfold build_quantize_reorder in H. cbv zeta in H.
    inv_run H. unfold quantized_at, primitive_at. norm.
    eexists _, _. repeat split; reflexivity.
  - intros i w r s d pb pa scale pops st idx st' H.
    unfold build_quantized_convolution_forward in H. cbv zeta in H.
    inv_run H. unfold quantized_at, primitive_at. norm.
    eexists _, _. repeat split; reflexivity.
  - intros i w b r s d pb pa scale pops st idx st' H.
    unfold build_quantized_convolution_forward_bias in H. cbv zeta in H.
    inv_run H. unfold quantized_at, primitive_at. norm.
    eexists _, _. repeat split; reflexivity.
  - intros i r scales index mask st u st' H.
    unfold build_quantize_reorder_at in H. cbv zeta in H.
    inv_run H. unfold quantized_at, primitive_at. cbn in *.
    rewrite list_lookup_insert_eq by (rewrite ?length_insert in *; assumption).
    norm. eexists _, _. repeat split; reflexivity.
Qed.

End Quantized.

Section Rebuild.
Variable V : vendor.

Lemma build_rnn_forward_at_deps rnn_desc index st u st' :
  build_rnn_forward_at V rnn_desc index st = Ok u st' ->
  exists l, m_primitive_deps st !! index = Some l /\ 8 < length l /\
            m_primitive_deps st'
            = <[index := <[8 := length (m_workspaces st)]> l]> (m_primitive_deps st).
Proof.
  intros H. unfold build_rnn_forward_at in H. cbv zeta in H. inv_run H.
  cbn in *. eauto.
Qed.

Lemma build_max_pooling_backward_deps alg src dd ds ws wsh pb pa st index st' :
  build_max_pooling_backward V alg src dd ds ws wsh pb pa st = Ok index st' ->
  let n := length (m_mkldnn_primitives st) in
  let w := length (m_workspaces st) in
  index = n + 5 /\
  m_primitive_deps st' !! (n + 4) = Some [n; n + 2; n + 3; w] /\
  m_primitive_deps st' !! (n + 5) = Some [n + 1; n + 3; n + 2; w] /\
  length (m_workspaces st') = w + 1.
Proof.
  intros H. unfold build_max_pooling_backward in H. cbv zeta in H. inv_run H.
  norm. rewrite lookup_insert_eq, lookup_insert_ne, lookup_insert_eq by lia. auto.
Qed.

Lemma build_max_pooling_backward_at_deps b f src fwd bwd st u st' lf lb :
  build_max_pooling_backward_at V b f src fwd bwd st = Ok u st' ->
  fwd <> bwd ->
  m_primitive_deps st !! fwd = Some lf ->
  m_primitive_deps st !! bwd = Some lb ->
  exists v, lf !! 1 = Some v /\
    m_primitive_deps st' !! bwd
    = Some (<[3 := length (m_workspaces st)]> (<[1 := v]> (<[2 := v]> lb))).
Proof.
  intros H Hne Hf Hb. unfold build_max_pooling_backward_at in H. cbv zeta in H.
  inv_run H. cbn in *.
  repeat (rewrite ?lookup_insert_eq, ?Hf, ?Hb in *;
          rewrite ?lookup_insert_ne in * by congruence).
  simplify_eq. eexists. split; [eassumption|reflexivity].
Qed.

Lemma rebuild_simple c r k st idx st1 u st2 :
  construct_kind c = Some k -> rebuild_kind r = Some k ->
  k <> rnn_forward_k -> k <> max_pooling_backward ->
  run_construct V c st = Ok idx st1 ->
  run_rebuild V r idx st1 = Ok u st2 ->
  exists l, m_primitive_deps st1 !! idx = Some l /\ m_primitive_deps st2 !! idx = Some l.
Proof.
  intros Hc Hr Hrnn Hmax Hrun1 Hrun2.
  pose proof (run_construct_recorded V c k Hc st) as Hrec. rewrite Hrun1 in Hrec.
  destruct Hrec as [l Hl].
  assert (Hshape : same_shape st1 st2).
  { eapply (respects_Ok same_shape); [|exact Hrun2].
    apply run_rebuild_same_shape; congruence. }
  destruct Hshape as [_ Hdeps]. exists l. rewrite Hdeps. auto.
Qed.

(** C2, as the code has it. A construct followed by the rebuild of the
    same kind on the returned index leaves the registry at its size and the
    dependency list at its length; every entry that the rebuild does not
    assign anew is unchanged, and the workspace buffer entry of the two kinds
    that carry one is the index of the workspace the rebuild has just
    inserted. *)
Theorem rebuild_after_construct c r k st idx st1 u st2 :
  construct_kind c = Some k -> rebuild_kind r = Some k ->
  (forall fwd, rebuild_forward_index r = Some fwd -> fwd = idx - 1) ->
  run_construct V c st = Ok idx st1 ->
  run_rebuild V r idx st1 = Ok u st2 ->
  length (m_mkldnn_primitives st2) = length (m_mkldnn_primitives st1) /\
  exists l1 l2,
    m_primitive_deps st1 !! idx = Some l1 /\
    m_primitive_deps st2 !! idx = Some l2 /\
    length l2 = length l1 /\
    (forall i, rebound k i = false -> l2 !! i = l1 !! i) /\
    (forall i, workspace_buffer_position k = Some i ->
               l2 !! i = Some (length (m_workspaces st1))).
Proof.
  intros Hc Hr Hfwd Hrun1 Hrun2. split.
  { eapply (respects_Ok same_size); [apply run_rebuild_same_size|exact Hrun2]. }
  destruct (decide (k = rnn_forward_k)) as [->|Hrnn];
    [|destruct (decide (k = max_pooling_backward)) as [->|Hmax]].
  - destruct r; cbn in Hr; try discriminate. cbn [run_rebuild] in Hrun2.
    apply build_rnn_forward_at_deps in Hrun2 as (l & Hl & Hlen & Hdeps).
    exists l, (<[8 := length (m_workspaces st1)]> l).
    rewrite Hdeps, lookup_insert_eq, length_insert.
    split; [exact Hl|]. split; [reflexivity|]. split; [reflexivity|]. split.
    + intros i Hi. cbn in Hi. apply bool_decide_eq_false in Hi.
      apply list_lookup_insert_ne. congruence.
    + intros i [= <-]. apply list_lookup_insert_eq. exact Hlen.
  - destruct c; cbn in Hc; try discriminate.
    destruct r; cbn in Hr; try discriminate.
    cbn [run_construct] in Hrun1. cbn [run_rebuild] in Hrun2.
    apply build_max_pooling_backward_deps in Hrun1 as (-> & Hf & Hb & Hw).
    specialize (Hfwd _ eq_refl). subst fwd_pool_index.
    replace (length (m_mkldnn_primitives st) + 5 - 1)
      with (length (m_mkldnn_primitives st) + 4) in Hrun2 by lia.
    eapply build_max_pooling_backward_at_deps in Hrun2 as (v & Hv & Hdeps);
      [|lia|exact Hf|exact Hb].
    cbn in Hv. injection Hv as <-. cbn in Hdeps.
    eexists _, _. split; [exact Hb|]. split; [exact Hdeps|].
    split; [reflexivity|]. split.
    + intros i Hi. cbn in Hi. apply bool_decide_eq_false in Hi.
      destruct i as [|[|[|[|i]]]]; cbn; try reflexivity; exfalso; apply Hi; auto.
    + intros i [= <-]. reflexivity.
  - destruct (rebuild_simple c r k st idx st1 u st2) as (l & Hl1 & Hl2); try assumption.
    exists l, l. split; [exact Hl1|]. split; [exact Hl2|]. split; [reflexivity|].
    split; [reflexivity|]. intros i Hi. destruct k; cbn in Hi; congruence.
Qed.

End Rebuild.

Section Teardown.
Variable V : vendor.

Lemma delete_all_held l : delete_all l = Release <$> omap id l.
Proof.
  induction l as [|[o|] l IH]; cbn; [reflexivity| |exact IH].
  f_equal. exact IH.
Qed.

Lemma owns_distinct_empty : owns_distinct empty_emitter.
Proof. split; cbn; [apply NoDup_nil_2|apply Forall_nil_2]. Qed.

(** C5, as the code has it. After any sequence of member function calls
    on a fresh emitter, the destructor releases exactly the objects that the
    slots of the registry hold at that moment, each of them once, all of
    them created by this emitter, and frees the vendor's buffers after the
    last release. *)
Theorem destructor_releases_held cs st WIN32 :
  run_calls V cs empty_emitter = Some st ->
  destructor WIN32 st
  = (Release <$> held st) ++ (if WIN32 then [] else [FreeVendorBuffers]) /\
  NoDup (held st) /\
  Forall (fun o => o < length (heap st)) (held st).
Proof.
  intros Hrun. split.
  - unfold destructor, held. rewrite delete_all_held. reflexivity.
  - apply (run_calls_invariant V keeps_ownership (run_call_keeps_ownership V)) in Hrun.
    apply Hrun, owns_distinct_empty.
Qed.

(** C10. [insert_primitive] appends its argument and returns the index
    of the last slot; every index-returning member function only appends to
    the registry, appends at least one slot and returns the index of the last
    one; and no sequence of member function calls makes the registry
    shorter, so that an index once returned stays a position of the
    registry. *)
Theorem registry_only_grows :
  (forall p st, exists st',
      insert_primitive p st = Ok (length (m_mkldnn_primitives st') - 1) st' /\
      m_mkldnn_primitives st' = m_mkldnn_primitives st ++ [p]) /\
  (forall c st idx st',
      run_construct V c st = Ok idx st' ->
      exists l, l <> [] /\
                m_mkldnn_primitives st' = m_mkldnn_primitives st ++ l /\
                idx = length (m_mkldnn_primitives st') - 1) /\
  (forall cs st st' i,
      run_calls V cs st = Some st' ->
      i < length (m_mkldnn_primitives st) -> i < length (m_mkldnn_primitives st')).
Proof.
  split; [|split].
  - intros p st. eexists. split; reflexivity.
  - intros c st idx st' Hrun.
    pose proof (run_construct_extends V c st) as Hext.
    pose proof (run_construct_appends_last V c st) as Hlast.
    rewrite Hrun in Hext, Hlast. destruct Hext as [l Hl], Hlast as [Hlt Hidx].
    exists l. split; [|auto]. intros ->. rewrite Hl, app_nil_r in Hlt. lia.
  - intros cs st st' i Hrun Hi.
    apply (run_calls_invariant V size_le (run_call_size_le V)) in Hrun.
    unfold size_le in Hrun. lia.
Qed.

(** C3. Both overloads of [build_memory_descriptor] throw
    [ngraph_error] for the blocked format, whatever the shape and the element
    type. *)
Theorem build_memory_descriptor_blocked tvw shape et :
  build_memory_descriptor_tvw V tvw format_blocked
  = inl (ngraph_error "Cannot created blocked descriptor.") /\
  build_memory_descriptor V shape et format_blocked
  = inl (ngraph_error "Cannot created blocked descriptor").
Proof. split; reflexivity. Qed.

(** A descriptor that is returned has the format that was asked for. *)
Lemma build_memory_descriptor_format shape et fmt md :
  build_memory_descriptor V shape et fmt = inr md -> md_format md = fmt.
Proof.
  unfold build_memory_descriptor, memory_desc_of.
  destruct fmt; try discriminate;
    destruct (get_mkldnn_data_type V et); try discriminate;
    destruct (rejects V _); try discriminate; intros [= <-]; reflexivity.
Qed.

End Teardown.

(** ** The claims on concrete inputs *)

(** C2 as stated fails: constructing an RNN primitive and rebuilding it
    with the same descriptors changes the last entry of its dependency
    list. *)
Lemma rnn_rebuild_changes_dependencies :
  run_construct accept_all rnn_construct empty_emitter = Ok 8 rnn_constructed /\
  run_rebuild accept_all rnn_rebuild 8 rnn_constructed = Ok tt rnn_rebuilt /\
  m_primitive_deps rnn_constructed !! 8 = Some [0; 1; 2; 3; 4; 5; 6; 7; 0] /\
  m_primitive_deps rnn_rebuilt !! 8 = Some [0; 1; 2; 3; 4; 5; 6; 7; 1] /\
  m_primitive_deps rnn_rebuilt !! 8 <> m_primitive_deps rnn_constructed !! 8.
Proof.
  assert (H1 : m_primitive_deps rnn_constructed !! 8 = Some [0; 1; 2; 3; 4; 5; 6; 7; 0])
    by (vm_compute; reflexivity).
  assert (H2 : m_primitive_deps rnn_rebuilt !! 8 = Some [0; 1; 2; 3; 4; 5; 6; 7; 1])
    by (vm_compute; reflexivity).
  split; [vm_compute; reflexivity|]. split; [vm_compute; reflexivity|].
  split; [exact H1|]. split; [exact H2|]. rewrite H1, H2. discriminate.
Qed.

Lemma rebuild_after_construct_witness :
  length (m_mkldnn_primitives rnn_rebuilt) = length (m_mkldnn_primitives rnn_constructed) /\
  exists l1 l2,
    m_primitive_deps rnn_constructed !! 8 = Some l1 /\
    m_primitive_deps rnn_rebuilt !! 8 = Some l2 /\
    length l2 = length l1 /\
    (forall i, rebound rnn_forward_k i = false -> l2 !! i = l1 !! i) /\
    (forall i, workspace_buffer_position rnn_forward_k = Some i ->
               l2 !! i = Some (length (m_workspaces rnn_constructed))).
Proof.
  apply (rebuild_after_construct accept_all rnn_construct rnn_rebuild rnn_forward_k
           empty_emitter 8 rnn_constructed tt rnn_rebuilt).
  - reflexivity.
  - reflexivity.
  - intros fwd H. discriminate H.
  - vm_compute. reflexivity.
  - vm_compute. reflexivity.
Defined.

(** C5 as stated fails: the three objects that the construct created are
    replaced by the rebuild and the destructor never releases them. *)
Lemma replaced_objects_are_not_released :
  run_calls accept_all reorder_calls empty_emitter = Some reorder_rebuilt /\
  heap reorder_rebuilt !! 0 = Some (memory md_2x3) /\
  destructor false reorder_rebuilt
  = [Release 3; Release 4; Release 5; FreeVendorBuffers] /\
  Release 0 ∉ destructor false reorder_rebuilt.
Proof.
  assert (H : destructor false reorder_rebuilt
              = [Release 3; Release 4; Release 5; FreeVendorBuffers])
    by (vm_compute; reflexivity).
  split; [vm_compute; reflexivity|]. split; [vm_compute; reflexivity|].
  split; [exact H|]. rewrite H. intros Hin.
  repeat (apply elem_of_cons in Hin as [Hin|Hin]; [discriminate Hin|]).
  inversion Hin.
Qed.

Lemma destructor_releases_held_witness :
  destructor false reorder_rebuilt
  = (Release <$> held reorder_rebuilt) ++ [FreeVendorBuffers] /\
  NoDup (held reorder_rebuilt) /\
  Forall (fun o => o < length (heap reorder_rebuilt)) (held reorder_rebuilt).
Proof.
  apply (destructor_releases_held accept_all reorder_calls reorder_rebuilt false).
  vm_compute. reflexivity.
Defined.

(** C6 fails on the code: a pooling primitive that the vendor rejects
    ends [build_pooling_forward] with the vendor's own [mkldnn::error], where
    [build_convolution_forward] turns the same rejection into an
    [ngraph_error]. *)
Lemma pooling_forward_lets_vendor_error_escape :
  (exists st, build_pooling_forward reject_compute pooling_max md_2x3 md_2x3 [] [] [] []
                empty_emitter
              = Throw (mkldnn_error "unsupported") st) /\
  (exists st, build_convolution_forward reject_compute md_2x3 md_2x3 md_2x3 [] [] [] [] []
                empty_emitter
              = Throw (ngraph_error "Could not create mkldnn convolution unsupported") st).
Proof. split; eexists; vm_compute; reflexivity. Qed.


Lemma quantized_primitives_round_and_scale_witness :
  quantized_at quantize_constructed 2 0 [1%Q] /\
  quantized_at quantized_convolution_constructed 3 0 [(1 # 2)%Q] /\
  quantized_at quantized_convolution_bias_constructed 4 0 [(1 # 2)%Q] /\
  quantized_at quantize_rebuilt 2 2 [1%Q; 2%Q].
Proof.
  destruct (quantized_primitives_round_and_scale accept_all) as (H1 & H2 & H3 & H4).
  split; [|split; [|split]].
  - apply (H1 md_2x3 md_2x3 [1%Q] empty_emitter 2 quantize_constructed).
    vm_compute. reflexivity.
  - apply (H2 md_input md_weights md_result [1%Z; 1%Z] [0%Z; 0%Z] [0%Z; 0%Z] [0%Z; 0%Z]
             (1 # 2)%Q [] empty_emitter 3 quantized_convolution_constructed).
    vm_compute. reflexivity.
  - apply (H3 md_input md_weights md_bias md_result [1%Z; 1%Z] [0%Z; 0%Z] [0%Z; 0%Z]
             [0%Z; 0%Z] (1 # 2)%Q [] empty_emitter 4 quantized_convolution_bias_constructed).
    vm_compute. reflexivity.
  - apply (H4 md_2x3 md_2x3 [1%Q; 2%Q] 2 2%Z quantize_constructed tt quantize_rebuilt).
    vm_compute. reflexivity.
Defined.

Lemma registry_only_grows_witness :
  (exists l, l <> [] /\
             m_mkldnn_primitives rnn_constructed = m_mkldnn_primitives empty_emitter ++ l /\
             8 = length (m_mkldnn_primitives rnn_constructed) - 1) /\
  2 < length (m_mkldnn_primitives reorder_rebuilt).
Proof.
  destruct (registry_only_grows accept_all) as (_ & H2 & H3). split.
  - apply (H2 rnn_construct empty_emitter 8 rnn_constructed). vm_compute. reflexivity.
  - apply (H3 [Rebuild (rebuild_quantize_reorder md_2x3 md_2x3 [1%Q] 0) 2]
              quantize_constructed reorder_rebuilt 2).
    + vm_compute. reflexivity.
    + vm_compute. lia.
Defined.

(** * Further properties of the emitter *)

Ltac inv_branches H :=
  inv_run H;
  try (lazymatch type of H with
       | (if ?b then _ else _) _ = Ok _ _ => destruct b
       end; inv_run H).

Ltac elem_of_explicit :=
  repeat first [apply list_elem_of_here | apply list_elem_of_further].

Ltac entry_bound Hl Hw :=
  first
    [ discriminate Hl
    | exfalso; apply Hw; reflexivity
    | injection Hl as <-; split; [lia|];
      eexists _, _;
      split; [norm; reflexivity|split; [norm; reflexivity|elem_of_explicit]] ].

Ltac entries_bound i Hl Hw :=
  repeat (lazymatch type of Hl with
          | None = _ => fail
          | _ => destruct i as [|i]; cbn in Hl; [entry_bound Hl Hw|]
          end);
  discriminate Hl.

Ltac find_slot i fuel :=
  lazymatch fuel with
  | O => fail
  | S ?fuel' =>
      first [ solve [exists i; eexists; cbn;
                     split; [reflexivity|split; [congruence|norm; reflexivity]]]
            | find_slot (S i) fuel' ]
  end.

Ltac operands_bound o Ho :=
  repeat (apply elem_of_cons in Ho as [->|Ho]; [find_slot 0 12|]);
  apply elem_of_nil in Ho; contradiction.

Ltac bound_to_explicit :=
  unfold bound_to, primitive_at; norm;
  eexists _, _, _, _;
  split; [reflexivity|];
  split; [rewrite ?lookup_insert_eq; reflexivity|];
  split;
  [ let i := fresh "i" in let v := fresh "v" in
    let Hl := fresh "Hl" in let Hw := fresh "Hw" in
    intros i v Hl Hw; entries_bound i Hl Hw
  | let o := fresh "o" in let Ho := fresh "Ho" in
    intros o Ho; operands_bound o Ho ].

Section A.
Variable V : vendor.

(** The two loops of [build_concat]. *)
Lemma for_each_primitive_desc (f : memory_desc -> primitive_desc) ds :
  forall i st pds st',
    for_each (fun _ d => new_primitive_desc V (f d)) i ds st = Ok pds st' -> st' = st.
Proof.
  induction ds as [|d ds IH]; intros i st pds st' H; cbn [for_each] in H.
  - apply ret_Ok in H as [_ ->]. reflexivity.
  - apply bind_Ok in H as (pd & st1 & Hd & H).
    apply new_primitive_desc_Ok in Hd as [_ ->].
    apply bind_Ok in H as (rest & st2 & Hrest & H).
    apply IH in Hrest as ->. apply ret_Ok in H as [_ ->]. reflexivity.
Qed.

Lemma for_each_build_memory_primitive ds :
  forall i st built st',
    for_each (fun _ d =>
                index <- build_memory_primitive V d ;;
                o <- primitives_deref index ;;
                ret (index, o)) i ds st = Ok built st' ->
    map fst built = seq (length (m_mkldnn_primitives st)) (length ds) /\
    map snd built = seq (length (heap st)) (length ds) /\
    m_mkldnn_primitives st'
    = m_mkldnn_primitives st ++ map Some (seq (length (heap st)) (length ds)) /\
    heap st' = heap st ++ map memory ds /\
    m_primitive_deps st' = m_primitive_deps st.
Proof.
  induction ds as [|d ds IH]; intros i st built st' H; cbn [for_each] in H.
  - apply ret_Ok in H as [-> ->]. cbn. rewrite !app_nil_r. auto.
  - apply bind_Ok in H as ([index o] & st1 & Hd & H).
    apply bind_Ok in H as (rest & st2 & Hrest & H).
    apply ret_Ok in H as [-> ->].
    inv_run Hd. apply IH in Hrest as (Hfst & Hsnd & Hprims & Hheap & Hdeps).
    cbn in *. rewrite !length_app in *. cbn in *.
    rewrite Nat.add_1_r in *. norm.
    rewrite Hfst, Hsnd, Hprims, Hheap, Hdeps. auto.
Qed.

Lemma lookup_app_at {A} (l1 l2 : list A) i j :
  i = length l1 + j -> (l1 ++ l2) !! i = l2 !! j.
Proof. intros ->. apply lookup_app_plus. Qed.

Lemma build_concat_bound_to ds r dim st idx st' :
  build_concat V ds r dim st = Ok idx st' -> bound_to concat_k idx st'.
Proof.
  intros H. unfold build_concat in H. cbv zeta in H.
  apply bind_Ok in H as (pds & st1 & Hpds & H).
  apply for_each_primitive_desc in Hpds as ->.
  apply bind_Ok in H as (built & st2 & Hbuilt & H).
  apply for_each_build_memory_primitive in Hbuilt
    as (Hfst & Hsnd & Hprims & Hheap & Hdeps).
  inv_run H.
  set (P := m_mkldnn_primitives st) in *. set (Hp := heap st) in *.
  set (n := length ds) in *.
  unfold bound_to, primitive_at. cbn in *. rewrite Hprims, Hheap, Hfst, Hsnd in *.
  rewrite !length_app, !length_map, !length_seq in *. cbn [length] in *.
  fold n in H0 |- *. unfold obj in *.
  change (map Some (seq (length Hp) n)) with (Some <$> seq (length Hp) n) in *.
  change (map memory ds) with (memory <$> ds) in *.
  assert (Hx : x = length Hp + n).
  { rewrite <- app_assoc, (lookup_app_at _ _ _ n) in H0 by reflexivity.
    rewrite (lookup_app_at _ _ _ 0) in H0 by (rewrite length_fmap, length_seq; lia).
    cbn in H0. congruence. }
  subst x. clear H0.
  assert (Hl : seq (length P) n ++ [length P + n] = seq (length P) (n + 1))
    by (rewrite seq_app; reflexivity).
  assert (Hops : seq (length Hp) n ++ [length Hp + n] = seq (length Hp) (n + 1))
    by (rewrite seq_app; reflexivity).
  assert (Hslots : ((P ++ (Some <$> seq (length Hp) n)) ++ [Some (length Hp + n)])
                   ++ [Some (length Hp + n + 1)]
                   = P ++ (Some <$> seq (length Hp) (n + 1)) ++ [Some (length Hp + n + 1)]).
  { rewrite seq_app, fmap_app, <- !app_assoc. reflexivity. }
  assert (Hobjs : ((Hp ++ (memory <$> ds)) ++ [memory r])
                  ++ [compute concat (Some (pd_concat r (to_int dim) ds))
                        (seq (length Hp) n ++ [length Hp + n])]
                  = Hp ++ (memory <$> (ds ++ [r]))
                       ++ [compute concat (Some (pd_concat r (to_int dim) ds))
                             (seq (length Hp) (n + 1))]).
  { rewrite Hops, fmap_app, <- !app_assoc. reflexivity. }
  rewrite Hslots, Hobjs, Hl.
  assert (Hslot : forall i, i < n + 1 ->
            (P ++ (Some <$> seq (length Hp) (n + 1)) ++ [Some (length Hp + n + 1)])
            !! (length P + i) = Some (Some (length Hp + i))).
  { intros i Hi. rewrite (lookup_app_at _ _ _ i) by reflexivity.
    rewrite lookup_app_l by (rewrite length_fmap, length_seq; lia).
    rewrite list_lookup_fmap, lookup_seq_lt by lia. reflexivity. }
  eexists _, _, _, _. split; [|split; [apply lookup_insert_eq|split]].
  - rewrite (lookup_app_at _ _ _ (n + 1)) by lia.
    rewrite (lookup_app_at _ _ _ 0) by (rewrite length_fmap, length_seq; lia).
    cbn [lookup list_lookup].
    rewrite (lookup_app_at _ _ _ (n + 1)) by lia.
    rewrite (lookup_app_at _ _ _ 0) by (rewrite length_fmap, length_app; cbn; lia).
    reflexivity.
  - intros i v Hi _. apply lookup_seq in Hi as [-> Hi]. split; [lia|].
    exists (length Hp + i).
    assert (Hmd : is_Some ((ds ++ [r]) !! i)).
    { apply lookup_lt_is_Some. rewrite length_app. cbn. lia. }
    destruct Hmd as [md Hmd]. exists md.
    split; [apply Hslot; exact Hi|]. split.
    + rewrite (lookup_app_at _ _ _ i) by reflexivity.
      rewrite lookup_app_l
        by (rewrite length_fmap, length_app; cbn; fold n; lia).
      rewrite list_lookup_fmap, Hmd. reflexivity.
    + apply elem_of_seq. lia.
  - intros o Ho. apply elem_of_seq in Ho.
    exists (o - length Hp), (length P + (o - length Hp)).
    split; [apply lookup_seq; lia|]. split; [discriminate|].
    rewrite Hslot by lia. do 2 f_equal. lia.
Qed.

(** X7. After a successful construct of any primitive kind, the slot at
    the returned index holds a compute primitive and the index has a
    dependency list; every entry of the list, except the workspace buffer
    index of the two kinds that carry one, is an earlier slot that holds a
    memory primitive, and the objects in those slots are exactly the
    operands the compute primitive was created with. *)
Theorem construct_binds_dependencies c k st idx st' :
  construct_kind c = Some k ->
  run_construct V c st = Ok idx st' ->
  bound_to k idx st'.
Proof.
  intros Hk H.
  destruct c; cbn in Hk; try discriminate; injection Hk as <-;
    cbn [run_construct] in H;
    try (apply build_concat_bound_to in H; exact H);
    revert H; unfold_builders; intros H; inv_branches H; bound_to_explicit.
Qed.
End A.

Section B.
Variable V : vendor.

Lemma live_extends st st' i : extends st st' -> live st i -> live st' i.
Proof.
  intros [l Hl] [o Ho]. exists o. rewrite Hl. apply lookup_app_l_Some. exact Ho.
Qed.

Lemma safe_leaf {A} L (m : M A) :
  respects extends m -> (forall st, m st <> Undefined) -> safe L m.
Proof.
  intros Hext Hdef st HL. specialize (Hext st). specialize (Hdef st).
  destruct (m st) as [a st'|e st'|]; [| |congruence];
    (eapply Forall_impl; [exact HL|]; intros i; apply live_extends; exact Hext).
Qed.

Lemma safe_bind {A B} L (m : M A) (k : A -> M B) :
  safe L m -> (forall a, safe L (k a)) -> safe L (bind m k).
Proof.
  intros Hm Hk st HL. unfold bind. specialize (Hm st HL).
  destruct (m st) as [a st1|e st1|]; [|exact Hm|exact Hm].
  apply Hk. exact Hm.
Qed.

Lemma safe_catch {A} L (body : M A) (h : string -> M A) :
  safe L body -> (forall message, safe L (h message)) -> safe L (catch_mkldnn_error body h).
Proof.
  intros Hb Hh st HL. unfold catch_mkldnn_error. specialize (Hb st HL).
  destruct (body st) as [a st1|[]|]; try exact Hb. apply Hh. exact Hb.
Qed.

Lemma safe_bind_memory {B} L desc (k : nat -> M B) :
  (forall index, safe (index :: L) (k index)) ->
  safe L (bind (build_memory_primitive V desc) k).
Proof.
  intros Hk st HL. unfold bind.
  destruct (build_memory_primitive V desc st) as [i st1|e st1|] eqn:E.
  - pose proof E as E'. apply build_memory_primitive_Ok in E' as [-> Hst1].
    assert (Hext : extends st st1).
    { rewrite Hst1. eexists. reflexivity. }
    assert (HL1 : Forall (live st1) (length (m_mkldnn_primitives st) :: L)).
    { constructor.
      - eexists. rewrite Hst1. cbn. rewrite lookup_app_here. reflexivity.
      - eapply Forall_impl; [exact HL|]. intros i. apply live_extends. exact Hext. }
    specialize (Hk _ st1 HL1).
    destruct (k (length (m_mkldnn_primitives st)) st1) as [b st2|e st2|];
      [| |exact Hk]; exact (Forall_inv_tail Hk).
  - pose proof (respects_build_memory_primitive V extends desc st) as Hext.
    rewrite E in Hext.
    eapply Forall_impl; [exact HL|]. intros i. apply live_extends. exact Hext.
  - unfold build_memory_primitive, bind, new_primitive in E.
    destruct (rejects V _); discriminate E.
Qed.

Lemma safe_deref L index : index ∈ L -> safe L (primitives_deref index).
Proof.
  intros Hin st HL. unfold primitives_deref.
  rewrite Forall_forall in HL. destruct (HL index Hin) as [o Ho].
  rewrite Ho. apply Forall_forall. exact HL.
Qed.

Lemma safe_for_each {A B} L (body : nat -> A -> M B) v :
  (forall i a, safe L (body i a)) -> forall i, safe L (for_each body i v).
Proof.
  intros Hbody. induction v as [|a v IH]; intros i; cbn [for_each].
  - intros st HL. exact HL.
  - apply safe_bind; [apply Hbody|intros b].
    apply safe_bind; [apply IH|intros bs]. intros st HL. exact HL.
Qed.

Lemma safe_resize_grow {B} L c (k : nat -> M B) :
  (forall size, safe L (k size)) ->
  safe L (size <- primitives_size ;; run primitives_resize (size + c) ;; k size).
Proof.
  intros Hk st HL. unfold bind, primitives_size, primitives_resize.
  rewrite resize_grow. apply Hk.
  eapply Forall_impl; [exact HL|]. intros i. apply live_extends, grow_extends.
Qed.

Lemma safe_defined {A} (m : M A) st : safe [] m -> m st <> Undefined.
Proof.
  intros Hm H. specialize (Hm st (Forall_nil_2 _)). rewrite H in Hm. exact Hm.
Qed.

Lemma new_primitive_defined p st : new_primitive V p st <> Undefined.
Proof. unfold new_primitive. destruct (rejects V _); discriminate. Qed.

Lemma new_primitive_desc_defined pd st : new_primitive_desc V pd st <> Undefined.
Proof. unfold new_primitive_desc. destruct (rejects V _); discriminate. Qed.

Lemma build_memory_primitive_defined desc st :
  build_memory_primitive V desc st <> Undefined.
Proof.
  unfold build_memory_primitive, bind, new_primitive.
  destruct (rejects V _); discriminate.
Qed.

End B.

Ltac safe_leaf_walk :=
  apply safe_leaf;
  [ respects_walk
  | let st := fresh "st" in
    intros st;
    first [ apply new_primitive_defined
          | apply new_primitive_desc_defined
          | apply build_memory_primitive_defined
          | discriminate ] ].

Ltac safe_walk :=
  repeat
    lazymatch goal with
    | |- safe _ (bind (build_memory_primitive _ _) _) => apply safe_bind_memory; intro
    | |- safe _ (bind primitives_size (fun _ => if ?b then _ else _)) => destruct b
    | |- safe _ (bind primitives_size (fun size => bind (primitives_resize _) _)) =>
        apply safe_resize_grow; intro
    | |- safe _ (bind _ _) => apply safe_bind; [|intro]
    | |- safe _ (catch_mkldnn_error _ _) => apply safe_catch; [|intro]
    | |- safe _ (for_each _ _ _) => apply safe_for_each; intros
    | |- safe _ (if ?b then _ else _) => destruct b
    | |- safe _ (primitives_deref _) => apply safe_deref; elem_of_explicit
    | |- safe _ _ => safe_leaf_walk
    end.

Section B2.
Variable V : vendor.

Lemma reserve_primitive_space_safe count nw :
  1 <= count -> (Z.of_nat count <= 2 ^ 31)%Z ->
  safe [] (reserve_primitive_space count nw).
Proof.
  intros Hone Hmax. unfold reserve_primitive_space.
  apply safe_resize_grow. intros size.
  case_decide; [lia|]. safe_walk.
Qed.

Lemma run_construct_safe c : defined_arguments c -> safe [] (run_construct V c).
Proof.
  intros Hc. destruct c; cbn [run_construct].
  all: try lazymatch goal with
           | |- safe _ (reserve_primitive_space _ _) =>
               destruct Hc as [Hone Hmax]; apply reserve_primitive_space_safe; assumption
           end.
  all: try (destruct scale_const_op as [[|q l]|]; [contradiction| |]).
  all: unfold_builders; safe_walk.
Qed.

End B2.

Section C.
Variable V : vendor.

Lemma bind_Throw {A B} (m : M A) (k : A -> M B) st e st' :
  bind m k st = Throw e st' ->
  m st = Throw e st' \/ exists a st1, m st = Ok a st1 /\ k a st1 = Throw e st'.
Proof.
  unfold bind. destruct (m st) as [a st1|e1 st1|]; [eauto|intros [= <- <-]; left; reflexivity|discriminate].
Qed.

Lemma catch_throw_Throw {A} (body : M A) (h : string -> exn) st e st' :
  catch_mkldnn_error body (fun message => throw (h message)) st = Throw e st' ->
  (exists message, body st = Throw (mkldnn_error message) st' /\ e = h message) \/
  (body st = Throw e st' /\ forall message, e <> mkldnn_error message).
Proof.
  unfold catch_mkldnn_error, throw.
  destruct (body st) as [? ?|[what|message|] st1|]; try discriminate.
  - intros [= <- <-]. right. split; [reflexivity|discriminate].
  - intros [= <- <-]. left. eauto.
  - intros [= <- <-]. right. split; [reflexivity|discriminate].
Qed.

Lemma new_primitive_Throw p st e st' :
  new_primitive V p st = Throw e st' ->
  exists message, rejects V (call_primitive p) = Some message /\
                  e = mkldnn_error message /\ st' = st.
Proof.
  unfold new_primitive. destruct (rejects V _) as [message|]; [|discriminate].
  intros [= <- <-]. eauto.
Qed.

Lemma build_memory_primitive_Throw desc st e st' :
  build_memory_primitive V desc st = Throw e st' ->
  exists message, rejects V (call_primitive (memory desc)) = Some message /\
                  e = mkldnn_error message /\ st' = st.
Proof.
  unfold build_memory_primitive. intros H.
  apply bind_Throw in H as [H|(p & st1 & Hp & H)]; [apply new_primitive_Throw, H|].
  apply bind_Throw in H as [H|(i & st2 & Hi & H)]; discriminate H.
Qed.

End C.

(** One statement of a member function that throws: either it is the one
    that threw, or it returned and a later one threw. *)
Ltac throw_memory H md :=
  let Hm := fresh "Hm" in
  apply bind_Throw in H as [H|(? & ? & Hm & H)];
  [ apply build_memory_primitive_Throw in H as (? & ? & -> & ->);
    left; exists md; eexists; split; [elem_of_explicit|split; [eassumption|reflexivity]]
  | inv_leaf Hm ].

Ltac throw_quiet H :=
  let Hm := fresh "Hm" in
  apply bind_Throw in H as [H|(? & ? & Hm & H)];
  [ first [ discriminate H
          | unfold primitives_deref in H; repeat case_match; discriminate H ]
  | inv_leaf Hm ].

Lemma seq_2 h : seq h 2 = [h; h + 1].
Proof. cbn. repeat f_equal; lia. Qed.

Lemma seq_3 h : seq h 3 = [h; h + 1; h + 2].
Proof. cbn. repeat f_equal; lia. Qed.

Lemma seq_4 h : seq h 4 = [h; h + 1; h + 2; h + 3].
Proof. cbn. repeat f_equal; lia. Qed.

Section C2.
Variable V : vendor.

Lemma build_convolution_forward_throws i w r s d pb pa pops :
  throws_only V (build_convolution_forward V i w r s d pb pa pops) [i; w; r]
    (compute convolution_forward
       (Some (pd_op (convolution_forward_desc forward (convolution_algo V) i w None r
                       s d pb pa)
                    (Some (set_post_ops pops default_attr)) None)))
    "Could not create mkldnn convolution ".
Proof.
  intros st e st' H. unfold build_convolution_forward in H. cbv zeta in H.
  throw_memory H i. throw_memory H w. throw_memory H r.
  apply catch_throw_Throw in H as [(message & H & ->)|[H Hne]].
  - right. exists message. cbn [length]. rewrite seq_3.
    throw_quiet H. throw_quiet H. throw_quiet H.
    apply bind_Throw in H as [H|(? & ? & Hm & H)].
    + apply new_primitive_Throw in H as (message' & Hrej & [= <-] & ->).
      norm. split; [exact Hrej|]. split; [reflexivity|]. split; reflexivity.
    + inv_leaf Hm. throw_quiet H. throw_quiet H. discriminate H.
  - exfalso.
    throw_quiet H. throw_quiet H. throw_quiet H.
    apply bind_Throw in H as [H|(? & ? & Hm & H)].
    + apply new_primitive_Throw in H as (message' & Hrej & -> & ->).
      exact (Hne _ eq_refl).
    + inv_leaf Hm. throw_quiet H. throw_quiet H. discriminate H.
Qed.

Lemma build_convolution_forward_bias_throws i w b r s d pb pa pops :
  throws_only V (build_convolution_forward_bias V i w b r s d pb pa pops) [i; w; b; r]
    (compute convolution_forward
       (Some (pd_op (convolution_forward_desc forward (convolution_algo V) i w (Some b) r
                       s d pb pa)
                    (Some (set_post_ops pops default_attr)) None)))
    "Could not create convolution ".
Proof.
  intros st e st' H. unfold build_convolution_forward_bias in H. cbv zeta in H.
  throw_memory H i. throw_memory H w. throw_memory H b. throw_memory H r.
  apply catch_throw_Throw in H as [(message & H & ->)|[H Hne]].
  - right. exists message. cbn [length]. rewrite seq_4.
    throw_quiet H. throw_quiet H. throw_quiet H. throw_quiet H.
    apply bind_Throw in H as [H|(? & ? & Hm & H)].
    + apply new_primitive_Throw in H as (message' & Hrej & [= <-] & ->).
      norm. split; [exact Hrej|]. split; [reflexivity|]. split; reflexivity.
    + inv_leaf Hm. throw_quiet H. throw_quiet H. discriminate H.
  - exfalso.
    throw_quiet H. throw_quiet H. throw_quiet H. throw_quiet H.
    apply bind_Throw in H as [H|(? & ? & Hm & H)].
    + apply new_primitive_Throw in H as (message' & Hrej & -> & ->).
      exact (Hne _ eq_refl).
    + inv_leaf Hm. throw_quiet H. throw_quiet H. discriminate H.
Qed.

Lemma build_reorder_throws i r :
  throws_only V (build_reorder V i r) [i; r] (compute reorder None)
    "Could not create mkldnn primitive ".
Proof.
  intros st e st' H. unfold build_reorder in H.
  throw_memory H i. throw_memory H r.
  apply catch_throw_Throw in H as [(message & H & ->)|[H Hne]].
  - right. exists message. cbn [length]. rewrite seq_2.
    throw_quiet H. throw_quiet H.
    apply bind_Throw in H as [H|(? & ? & Hm & H)].
    + apply new_primitive_Throw in H as (message' & Hrej & [= <-] & ->).
      norm. split; [exact Hrej|]. split; [reflexivity|]. split; reflexivity.
    + inv_leaf Hm. throw_quiet H. throw_quiet H. discriminate H.
  - exfalso.
    throw_quiet H. throw_quiet H.
    apply bind_Throw in H as [H|(? & ? & Hm & H)].
    + apply new_primitive_Throw in H as (message' & Hrej & -> & ->).
      exact (Hne _ eq_refl).
    + inv_leaf Hm. throw_quiet H. throw_quiet H. discriminate H.
Qed.

(** X9. The three member functions with a [try] block turn the vendor's
    rejection of their primitive into an [ngraph_error] that carries the
    vendor's message, and leave the memory primitives they had created in the
    registry; a rejected memory primitive, created before the block, still
    ends them with [mkldnn::error]. *)
Theorem try_blocks_wrap_the_primitive :
  (forall i w r s d pb pa pops,
      throws_only V (build_convolution_forward V i w r s d pb pa pops) [i; w; r]
        (compute convolution_forward
           (Some (pd_op (convolution_forward_desc forward (convolution_algo V) i w None r
                           s d pb pa)
                        (Some (set_post_ops pops default_attr)) None)))
        "Could not create mkldnn convolution ") /\
  (forall i w b r s d pb pa pops,
      throws_only V (build_convolution_forward_bias V i w b r s d pb pa pops) [i; w; b; r]
        (compute convolution_forward
           (Some (pd_op (convolution_forward_desc forward (convolution_algo V) i w
                           (Some b) r s d pb pa)
                        (Some (set_post_ops pops default_attr)) None)))
        "Could not create convolution ") /\
  (forall i r,
      throws_only V (build_reorder V i r) [i; r] (compute reorder None)
        "Could not create mkldnn primitive ").
Proof.
  split; [|split].
  - exact build_convolution_forward_throws.
  - exact build_convolution_forward_bias_throws.
  - exact build_reorder_throws.
Qed.

End C2.

Section D.

Lemma push_back_all_snoc index vs m :
  vs <> [] ->
  push_back_all index vs m = <[index := default [] (m !! index) ++ vs]> m.
Proof.
  unfold push_back_all. revert m. induction vs as [|v vs IH]; intros m Hne; [congruence|].
  cbn [foldl]. destruct vs as [|v' vs]; [reflexivity|].
  rewrite IH by discriminate. rewrite lookup_insert_eq. cbn [default from_option id].
  rewrite insert_insert_eq, <- app_assoc. reflexivity.
Qed.

Lemma push_back_all_app index vs ws m :
  push_back_all index (vs ++ ws) m = push_back_all index ws (push_back_all index vs m).
Proof. unfold push_back_all. apply foldl_app. Qed.

Lemma bind_run {A B} (m : M A) (k : A -> M B) st a st1 :
  m st = Ok a st1 -> bind m k st = k a st1.
Proof. unfold bind. intros ->. reflexivity. Qed.

Lemma for_each_push_back size last vs :
  forall j st,
    length (m_mkldnn_primitives st) = S last ->
    exists us,
      for_each (fun _ i => l <- primitives_size ;; deps_push_back (l - 1) (size + i)) j vs st
      = Ok us (with_deps (push_back_all last (map (fun i => size + i) vs)) st).
Proof.
  induction vs as [|v vs IH]; intros j st Hlen; cbn [for_each].
  - exists []. unfold ret, push_back_all, with_deps. cbn. destruct st; reflexivity.
  - set (st1 := with_deps (fun m => <[last := default [] (m !! last) ++ [size + v]]> m) st).
    assert (Hbody : (l <- primitives_size ;; deps_push_back (l - 1) (size + v)) st
                    = Ok tt st1).
    { unfold bind, primitives_size, deps_push_back. rewrite Hlen.
      replace (S last - 1) with last by lia. reflexivity. }
    destruct (IH (S j) st1) as (us & Hus); [exact Hlen|].
    rewrite (bind_run _ _ _ _ _ Hbody), (bind_run _ _ _ _ _ Hus).
    eexists. unfold ret. f_equal.
Qed.

Lemma map_add_seq size n : map (fun i => size + i) (seq 0 n) = seq size n.
Proof.
  revert size. induction n as [|n IH]; intros size; [reflexivity|].
  cbn [seq map]. rewrite Nat.add_0_r. f_equal.
  rewrite <- seq_shift, map_map.
  rewrite <- (IH (S size)). apply map_ext. intros i. lia.
Qed.

Lemma reserve_primitive_space_run count nw st :
  1 <= count -> (Z.of_nat count <= 2 ^ 31)%Z ->
  let n := length (m_mkldnn_primitives st) in
  reserve_primitive_space count nw st
  = Ok (n + count - 1)
       (with_deps
          (push_back_all (n + count - 1)
             (seq n (count - 1) ++ (if nw then [0] else [])))
          (grow count st)).
Proof.
  intros Hone Hmax n. unfold reserve_primitive_space.
  unfold bind at 1 2. unfold primitives_size at 1, primitives_resize.
  rewrite resize_grow. fold n. case_decide; [lia|].
  assert (Hlen : length (m_mkldnn_primitives (grow count st)) = S (n + count - 1)).
  { unfold grow. cbn. rewrite length_app, length_replicate. fold n. lia. }
  destruct (for_each_push_back n (n + count - 1) (seq 0 (count - 1)) 0 (grow count st) Hlen)
    as (us & Hus).
  rewrite map_add_seq in Hus. rewrite (bind_run _ _ _ _ _ Hus).
  destruct nw.
  - unfold bind, primitives_size, deps_push_back, ret, with_deps. cbn.
    rewrite length_app, length_replicate, push_back_all_app. fold n.
    replace (n + count - 1 - 0) with (n + count - 1) by lia. reflexivity.
  - rewrite app_nil_r.
    unfold bind, primitives_size, ret. cbn.
    rewrite length_app, length_replicate. fold n.
    replace (n + count - 1 - 0) with (n + count - 1) by lia. reflexivity.
Qed.

(** X11. [reserve_primitive_space(count, new_workspace)] with [count]
    from 1 to [2^31] appends [count] null slots and returns the index of
    the last one; it appends to the dependency list of that index the
    indices of the other new slots in order, and then 0 if a workspace is
    asked for; every other dependency list is untouched.  With
    [count = 1] and no workspace nothing is appended, and an index without
    an entry stays without one. *)
Theorem reserve_primitive_space_reserves count nw st :
  1 <= count -> (Z.of_nat count <= 2 ^ 31)%Z ->
  let n := length (m_mkldnn_primitives st) in
  let index := n + count - 1 in
  exists st',
    reserve_primitive_space count nw st = Ok index st' /\
    m_mkldnn_primitives st' = m_mkldnn_primitives st ++ replicate count None /\
    (forall i, i <> index -> m_primitive_deps st' !! i = m_primitive_deps st !! i) /\
    m_primitive_deps st' !! index
    = if decide (count = 1 /\ nw = false)
      then m_primitive_deps st !! index
      else Some (default [] (m_primitive_deps st !! index)
                 ++ seq n (count - 1) ++ (if nw then [0] else [])).
Proof.
  intros Hone Hmax n index. eexists.
  split; [apply reserve_primitive_space_run; assumption|]. fold n index.
  split; [reflexivity|]. cbn [m_primitive_deps with_deps grow with_primitives].
  set (pushes := seq n (count - 1) ++ (if nw then [0] else [])).
  case_decide as Hnone.
  - destruct Hnone as [-> ->]. subst pushes. cbn. auto.
  - assert (Hne : pushes <> []).
    { subst pushes. destruct nw; [destruct (seq n (count - 1)); discriminate|].
      rewrite app_nil_r. destruct count as [|[|count]]; [lia| |discriminate].
      exfalso. apply Hnone. auto. }
    rewrite push_back_all_snoc by exact Hne. split.
    + intros i Hi. apply lookup_insert_ne. congruence.
    + apply lookup_insert_eq.
Qed.

Lemma reserve_primitive_space_reserves_witness :
  exists st',
    reserve_primitive_space 3 true empty_emitter = Ok 2 st' /\
    m_mkldnn_primitives st' = [None; None; None] /\
    (forall i, i <> 2 -> m_primitive_deps st' !! i = None) /\
    m_primitive_deps st' !! 2 = Some [0; 1; 0].
Proof.
  apply (reserve_primitive_space_reserves 3 true empty_emitter); [lia|vm_compute; discriminate].
Defined.

End D.

#[export] Instance keeps_workspaces_preorder : PreOrder keeps_workspaces.
Proof.
  split.
  - intros st. split; [exists []; rewrite app_nil_r; reflexivity|auto].
  - intros st1 st2 st3 [[l1 H1] K1] [[l2 H2] K2]. split; [|auto].
    exists (l1 ++ l2). rewrite H2, H1, app_assoc. reflexivity.
Qed.

(** A statement that can be unfolded down to the state it leaves. *)
Ltac leaf_states :=
  let st := fresh "st" in
  intros st;
  unfold build_memory_primitive, build_memory_primitive_at, bind, new_primitive,
    new_primitive_desc, insert_primitive, primitives_deref, primitives_size,
    primitives_resize, primitives_store, deps_assign, deps_at, deps_store_at,
    deps_push_back, ret, throw;
  repeat case_match; simplify_eq; try exact I.

(** The statements of a member function, one after the other; [node] is
    tried first and [leaf] closes what cannot be split. *)
Ltac walk_with node leaf :=
  repeat first
    [ node
    | lazymatch goal with
      | |- respects _ (bind _ _) => apply respects_bind; [apply _ | | intro]
      | |- respects _ (catch_mkldnn_error _ _) => apply respects_catch; [apply _ | | intro]
      | |- respects _ (for_each _ _ _) => apply respects_for_each; [apply _ | intros]
      | |- respects _ (if ?b then _ else _) => destruct b
      | |- respects _ (match ?x with _ => _ end) => destruct x
      | |- respects _ _ => leaf
      end ].

Section Workspaces.
Variable V : vendor.

Lemma workspaces_new_insert {B} size (k : nat -> M B) :
  (forall i, respects keeps_workspaces (k i)) ->
  respects keeps_workspaces
    (w <- new_workspace size ;; i <- insert_workspace w ;; k i).
Proof.
  intros Hk st. unfold bind, new_workspace, insert_workspace.
  match goal with |- context [k ?i ?s] => specialize (Hk i s); destruct (k i s) end;
    try exact I;
    (etransitivity; [|exact Hk]; split;
     [eexists; reflexivity|]; intros (Hbufs & Hlt & Hnd);
     unfold workspaces_consistent; cbn;
     split; [rewrite Hbufs, map_app; reflexivity|]; split;
     [ apply Forall_app; split;
       [eapply Forall_impl; [exact Hlt|]; cbn; intros; lia|repeat constructor]
     | apply NoDup_app; split; [exact Hnd|]; split; [|apply NoDup_singleton];
       intros b Hb Hin; apply list_elem_of_singleton in Hin; subst b;
       rewrite Forall_forall in Hlt; specialize (Hlt _ Hb); lia ]).
Qed.

End Workspaces.

Ltac workspaces_node :=
  idtac;
  lazymatch goal with
  | |- respects keeps_workspaces
         (bind (new_workspace _) (fun w => bind (insert_workspace w) _)) =>
      apply workspaces_new_insert; intro
  end.

Ltac workspaces_leaf :=
  idtac; leaf_states;
  first [ reflexivity
        | split; [exists []; cbn; rewrite app_nil_r; reflexivity|];
          let Hc := fresh "Hc" in intros Hc; exact Hc ].

Section Workspaces2.
Variable V : vendor.

Lemma run_call_keeps_workspaces c : respects keeps_workspaces (run_call V c).
Proof.
  destruct c as [c|r index]; cbn [run_call].
  - apply respects_bind; [apply _| |intros _; apply respects_ret; apply _].
    destruct c; cbn [run_construct]; unfold_builders;
      walk_with workspaces_node workspaces_leaf.
  - destruct r; cbn [run_rebuild]; unfold_builders;
      walk_with workspaces_node workspaces_leaf.
Qed.

Lemma workspaces_consistent_empty : workspaces_consistent empty_emitter.
Proof. repeat split; constructor. Qed.

(** X12. Workspaces are only ever appended, so the index that
    [insert_workspace] returned keeps naming the same workspace; and after
    any sequence of member function calls on a fresh emitter,
    [get_mkldnn_workspaces] lists the buffers of the workspaces in the
    order of their insertion, no buffer twice, and a workspace inserted
    next is found at the index returned, in both vectors. *)
Theorem workspaces_stay_consistent :
  (forall cs st st',
      run_calls V cs st = Some st' ->
      exists l, m_workspaces st' = m_workspaces st ++ l) /\
  (forall cs st,
      run_calls V cs empty_emitter = Some st ->
      get_mkldnn_workspaces st = Ok (map buf (m_workspaces st)) st /\
      NoDup (map buf (m_workspaces st)) /\
      forall w, exists st',
        insert_workspace w st = Ok (length (m_workspaces st)) st' /\
        m_workspaces st' !! length (m_workspaces st) = Some w /\
        m_workspace_bufs st' !! length (m_workspaces st) = Some (buf w)).
Proof.
  split.
  - intros cs st st' Hrun.
    apply (run_calls_invariant V keeps_workspaces run_call_keeps_workspaces) in Hrun.
    exact (proj1 Hrun).
  - intros cs st Hrun.
    apply (run_calls_invariant V keeps_workspaces run_call_keeps_workspaces) in Hrun.
    destruct (proj2 Hrun workspaces_consistent_empty) as (Hbufs & _ & Hnd).
    split; [unfold get_mkldnn_workspaces; rewrite Hbufs; reflexivity|].
    split; [rewrite <- Hbufs; exact Hnd|].
    intros w. eexists. split; [|split].
    + unfold insert_workspace. cbn. rewrite length_app. cbn.
      replace (length (m_workspaces st) + 1 - 1) with (length (m_workspaces st)) by lia.
      reflexivity.
    + cbn. rewrite lookup_app_here. reflexivity.
    + cbn. rewrite Hbufs.
      replace (length (m_workspaces st)) with (length (map buf (m_workspaces st)))
        by apply length_map.
      rewrite lookup_app_here. reflexivity.
Qed.

End Workspaces2.

Lemma workspaces_stay_consistent_witness :
  get_mkldnn_workspaces rnn_rebuilt = Ok (map buf (m_workspaces rnn_rebuilt)) rnn_rebuilt /\
  NoDup (map buf (m_workspaces rnn_rebuilt)) /\
  forall w, exists st',
    insert_workspace w rnn_rebuilt = Ok (length (m_workspaces rnn_rebuilt)) st' /\
    m_workspaces st' !! length (m_workspaces rnn_rebuilt) = Some w /\
    m_workspace_bufs st' !! length (m_workspaces rnn_rebuilt) = Some (buf w).
Proof.
  apply (proj2 (workspaces_stay_consistent accept_all)
           [Construct rnn_construct; Rebuild rnn_rebuild 8] rnn_rebuilt).
  vm_compute. reflexivity.
Defined.

#[export] Instance frames_preorder : PreOrder frames.
Proof.
  split.
  - intros st. split; [reflexivity|auto].
  - intros st1 st2 st3 [E1 K1] [E2 K2]. split; [etransitivity; eassumption|].
    intros Hr. destruct (K1 Hr) as [Hr2 F1]. destruct (K2 Hr2) as [Hr3 F2].
    split; [exact Hr3|]. intros i Hi. rewrite F2, F1; [reflexivity|exact Hi|].
    destruct E1 as [l El]. rewrite El, length_app. lia.
Qed.

#[export] Instance keeps_range_preorder : PreOrder keeps_range.
Proof.
  split.
  - intros st. split; [reflexivity|auto].
  - intros st1 st2 st3 [E1 K1] [E2 K2]. split; [etransitivity; eassumption|auto].
Qed.

#[export] Instance keeps_all_held_preorder : PreOrder keeps_all_held.
Proof. split; [intros st H; exact H|intros st1 st2 st3 H1 H2 H; auto]. Qed.

#[export] Instance frames_keeps_range : Coarser frames keeps_range.
Proof.
  intros st st' [E K]. split; [apply (coarser (R1 := extends)); exact E|].
  intros Hr. apply K, Hr.
Qed.

(** What is left to show of [frames] or [keeps_range] between a state and
    the state that some statements have made of it. *)
Ltac range_entry Hr Hi :=
  repeat (apply lookup_insert_is_Some in Hi as [<-|[? Hi]]; [cbn; lia|]);
  apply Hr in Hi; cbn in Hi |- *; rewrite ?length_app, ?length_insert; cbn; lia.

Ltac frames_between :=
  split;
  [ first [ reflexivity
          | exists []; cbn; rewrite app_nil_r; reflexivity
          | eexists; cbn; rewrite <- ?app_assoc; reflexivity ]
  | let Hr := fresh "Hr" in
    intros Hr; split;
    [ let i := fresh "i" in let Hi := fresh "Hi" in
      intros i Hi; cbn in Hi |- *; rewrite ?length_app; cbn; range_entry Hr Hi
    | let i := fresh "i" in let Hi := fresh "Hi" in
      intros i Hi; cbn in Hi |- *; rewrite ?lookup_insert_ne by lia; reflexivity ] ].

Section Frames.
Variable V : vendor.

Lemma frames_insert_assign {B} p l (k : nat -> M B) :
  (forall index, respects frames (k index)) ->
  respects frames (index <- insert_primitive p ;; run deps_assign index l ;; k index).
Proof.
  intros Hk st. unfold bind, insert_primitive, deps_assign. cbn [m_mkldnn_primitives with_primitives].
  rewrite length_app. cbn [length].
  replace (length (m_mkldnn_primitives st) + 1 - 1) with (length (m_mkldnn_primitives st)) by lia.
  match goal with |- context [k ?i ?s] => specialize (Hk i s); destruct (k i s) end;
    try exact I; (etransitivity; [|exact Hk]); frames_between.
Qed.

Lemma grow_frames c st : frames st (grow c st).
Proof. unfold grow. frames_between. Qed.

End Frames.

Section Frames1.
Variable V : vendor.

(** The end of [build_max_pooling_backward]: both primitives are inserted
    before either dependency list is assigned. *)
Lemma frames_two_inserts pf a b c (pb : obj -> obj -> obj -> primitive) l1 l2 :
  respects frames
    (fwd <- insert_primitive pf ;;
     d <- primitives_deref a ;;
     e <- primitives_deref b ;;
     f <- primitives_deref c ;;
     p <- new_primitive V (pb d e f) ;;
     bwd <- insert_primitive p ;;
     run deps_assign fwd l1 ;;
     run deps_assign bwd l2 ;;
     ret bwd).
Proof.
  intros st.
  unfold bind, insert_primitive, primitives_deref, new_primitive, deps_assign, ret.
  cbn [m_mkldnn_primitives with_primitives alloc].
  repeat case_match; simplify_eq; try exact I;
    cbn [m_mkldnn_primitives with_primitives alloc with_deps];
    rewrite ?length_app; cbn [length].
  - split; [eexists; cbn; rewrite <- ?app_assoc; reflexivity|].
    intros Hr. split.
    + intros i Hi. cbn in Hi |- *. rewrite ?length_app. cbn.
      repeat (apply lookup_insert_is_Some in Hi as [<-|[? Hi]]; [lia|]).
      apply Hr in Hi. lia.
    + intros i Hi. cbn. rewrite !lookup_insert_ne by lia. reflexivity.
  - frames_between.
Qed.

Lemma push_back_all_lookup_ne index vs m i :
  i <> index -> push_back_all index vs m !! i = m !! i.
Proof.
  intros Hne. destruct vs as [|v vs]; [reflexivity|].
  rewrite push_back_all_snoc by discriminate. apply lookup_insert_ne. congruence.
Qed.

Lemma push_back_all_is_Some index vs m i :
  is_Some (push_back_all index vs m !! i) -> i = index \/ is_Some (m !! i).
Proof.
  destruct (decide (i = index)) as [->|Hne]; [auto|].
  rewrite push_back_all_lookup_ne by exact Hne. auto.
Qed.

Lemma frames_reserve_primitive_space count nw :
  respects frames (reserve_primitive_space count nw).
Proof.
  intros st.
  destruct (decide (1 <= count /\ (Z.of_nat count <= 2 ^ 31)%Z)) as [[Hone Hmax]|Hbad].
  - rewrite reserve_primitive_space_run by assumption. cbv zeta.
    split; [apply grow_extends|]. intros Hr. split.
    + intros i Hi. cbn in Hi |- *. rewrite length_app, length_replicate.
      apply push_back_all_is_Some in Hi as [->|Hi]; [lia|]. apply Hr in Hi. lia.
    + intros i Hi. cbn. apply push_back_all_lookup_ne. lia.
  - unfold reserve_primitive_space, bind, primitives_size, primitives_resize.
    case_decide; [exact I|lia].
Qed.

Lemma frames_convolution_forward_init with_bias :
  respects frames (convolution_forward_init with_bias).
Proof.
  intros st. rewrite convolution_forward_init_run. cbv zeta.
  split; [apply grow_extends|]. intros Hr. split.
  - intros i Hi. cbn in Hi |- *. rewrite length_app, length_replicate.
    apply lookup_insert_is_Some in Hi as [<-|[? Hi]];
      [destruct with_bias; lia|apply Hr in Hi; lia].
  - intros i Hi. cbn. apply lookup_insert_ne. destruct with_bias; lia.
Qed.

End Frames1.

Ltac frames_node :=
  idtac;
  lazymatch goal with
  | |- respects frames (reserve_primitive_space _ _) =>
      apply frames_reserve_primitive_space
  | |- respects frames (convolution_forward_init _) =>
      apply frames_convolution_forward_init
  | |- respects frames
         (bind (insert_primitive _) (fun index => bind (deps_assign index _) _)) =>
      apply frames_insert_assign; intro
  | |- respects frames
         (bind (insert_primitive _) (fun fwd => bind (primitives_deref _) _)) =>
      apply frames_two_inserts
  | |- respects frames (bind primitives_size (fun _ => if ?b then _ else _)) => destruct b
  | |- respects frames
         (bind primitives_size (fun size => bind (primitives_resize _) _)) =>
      apply respects_resize_grow; [apply _ | apply grow_frames | intro]
  end.

Ltac frames_leaf :=
  idtac; unfold new_workspace, insert_workspace; leaf_states; frames_between.

Section Frames2.
Variable V : vendor.

Lemma run_construct_frames c : respects frames (run_construct V c).
Proof.
  destruct c; cbn [run_construct];
    first [ apply frames_reserve_primitive_space
          | apply frames_convolution_forward_init
          | unfold_builders; walk_with frames_node frames_leaf ].
Qed.

End Frames2.

Ltac range_between :=
  split;
  [ unfold size_le; cbn; rewrite ?length_app, ?length_insert; cbn; lia
  | let Hr := fresh "Hr" in let i := fresh "i" in let Hi := fresh "Hi" in
    intros Hr i Hi; cbn in Hi |- *; rewrite ?length_app, ?length_insert; cbn;
    repeat (apply lookup_insert_is_Some in Hi as [<-|[? Hi]];
            [apply Hr; eexists; eassumption|]);
    apply Hr in Hi; lia ].

Ltac range_node := idtac; fail.

Ltac range_leaf :=
  idtac; unfold new_workspace, insert_workspace; leaf_states; range_between.

Section Range.
Variable V : vendor.

Lemma run_rebuild_keeps_range r index : respects keeps_range (run_rebuild V r index).
Proof.
  destruct r; cbn [run_rebuild]; unfold_builders; walk_with range_node range_leaf.
Qed.

Lemma run_call_keeps_range c : respects keeps_range (run_call V c).
Proof.
  destruct c as [c|r index]; cbn [run_call]; [|apply run_rebuild_keeps_range].
  apply respects_bind; [apply _| |intros _; apply respects_ret; apply _].
  apply (respects_coarser frames keeps_range), run_construct_frames.
Qed.

Lemma deps_in_range_empty : deps_in_range empty_emitter.
Proof. intros i [l Hl]. cbn in Hl. rewrite lookup_empty in Hl. discriminate. Qed.

(** X13. After any sequence of member function calls on a fresh emitter,
    every index that has a dependency list is an index of the registry; and
    a construct then leaves every slot in place with what it holds and the
    dependency list of every existing index as it is, also when it ends
    with an exception. *)
Theorem constructs_frame_the_registry cs st :
  run_calls V cs empty_emitter = Some st ->
  (forall i l, m_primitive_deps st !! i = Some l ->
               i < length (m_mkldnn_primitives st)) /\
  (forall c,
      match run_construct V c st with
      | Ok _ st' | Throw _ st' =>
          (exists l, m_mkldnn_primitives st' = m_mkldnn_primitives st ++ l) /\
          (forall i, i < length (m_mkldnn_primitives st) ->
                     m_primitive_deps st' !! i = m_primitive_deps st !! i)
      | Undefined => True
      end).
Proof.
  intros Hrun.
  apply (run_calls_invariant V keeps_range run_call_keeps_range) in Hrun.
  pose proof (proj2 Hrun deps_in_range_empty) as Hr. split.
  - intros i l Hl. apply Hr. eexists. exact Hl.
  - intros c. pose proof (run_construct_frames V c st) as Hf.
    destruct (run_construct V c st) as [idx st'|e st'|]; [| |exact I];
      destruct Hf as [Hext Hk]; (split; [exact Hext|apply Hk, Hr]).
Qed.

End Range.

Section Held.
Variable V : vendor.

Lemma all_held_push p st :
  all_held st ->
  all_held (with_primitives (fun l => l ++ [Some (length (heap st))]) (alloc p st)).
Proof.
  unfold all_held, held. cbn. intros H.
  rewrite held_app, H, length_app. cbn.
  rewrite Nat.add_1_r, seq_S. reflexivity.
Qed.

Lemma all_held_new_insert {B} p (k : nat -> M B) :
  (forall i, respects keeps_all_held (k i)) ->
  respects keeps_all_held (o <- new_primitive V p ;; i <- insert_primitive o ;; k i).
Proof.
  intros Hk st. unfold bind at 1, new_primitive.
  destruct (rejects V _); [reflexivity|].
  unfold bind, insert_primitive.
  match goal with |- context [k ?i ?s] => specialize (Hk i s); destruct (k i s) end;
    try exact I; intros Ha; apply Hk, all_held_push, Ha.
Qed.

Lemma all_held_build_memory_primitive desc :
  respects keeps_all_held (build_memory_primitive V desc).
Proof.
  unfold build_memory_primitive. apply all_held_new_insert.
  intros i. apply respects_ret. apply _.
Qed.

Lemma grow_keeps_all_held c st : keeps_all_held st (grow c st).
Proof.
  unfold keeps_all_held, all_held, held, grow. cbn.
  rewrite held_app, held_replicate_None, app_nil_r. auto.
Qed.

End Held.

Ltac held_node :=
  idtac;
  lazymatch goal with
  | |- respects keeps_all_held
         (bind (new_primitive _ _) (fun o => bind (insert_primitive o) _)) =>
      apply all_held_new_insert; intro
  | |- respects keeps_all_held (build_memory_primitive _ _) =>
      apply all_held_build_memory_primitive
  | |- respects keeps_all_held (bind primitives_size (fun _ => if ?b then _ else _)) =>
      destruct b
  | |- respects keeps_all_held
         (bind primitives_size (fun size => bind (primitives_resize _) _)) =>
      apply respects_resize_grow; [apply _ | apply grow_keeps_all_held | intro]
  end.

Ltac held_leaf :=
  idtac; unfold new_workspace, insert_workspace; leaf_states;
  first [ reflexivity | let Ha := fresh "Ha" in intros Ha; exact Ha ].

Section Held2.
Variable V : vendor.

Lemma run_construct_keeps_all_held c : respects keeps_all_held (run_construct V c).
Proof.
  destruct c; cbn [run_construct]; unfold_builders; walk_with held_node held_leaf.
Qed.

Lemma constructs_only_all_held cs :
  constructs_only cs ->
  forall st st', run_calls V cs st = Some st' -> all_held st -> all_held st'.
Proof.
  induction 1 as [|c cs Hc Hcs IH]; intros st st'; cbn [run_calls].
  - intros [= <-]. auto.
  - destruct c as [c|]; [|contradiction]. cbn [run_call]. unfold bind, ret.
    pose proof (run_construct_keeps_all_held c st) as Hk.
    destruct (run_construct V c st) as [idx st1|e st1|]; [| |discriminate];
      intros Hrest Ha; exact (IH _ _ Hrest (Hk Ha)).
Qed.

(** X14. As long as only construct operations have been called, also ones
    that ended with an exception, the registry holds every primitive
    object the emitter has created, in the order of creation, and the
    destructor releases each of them exactly once before it frees the
    vendor's buffers. *)
Theorem constructs_only_release_everything cs st WIN32 :
  constructs_only cs ->
  run_calls V cs empty_emitter = Some st ->
  held st = seq 0 (length (heap st)) /\
  destructor WIN32 st
  = map Release (seq 0 (length (heap st)))
    ++ (if WIN32 then [] else [FreeVendorBuffers]).
Proof.
  intros Hcs Hrun.
  assert (Ha : all_held st).
  { apply (constructs_only_all_held cs Hcs empty_emitter st Hrun). reflexivity. }
  split; [exact Ha|].
  unfold destructor. rewrite delete_all_held. fold (held st). rewrite Ha. reflexivity.
Qed.

End Held2.

Ltac find_missing_deps H Hnone :=
  repeat (let Hm := fresh "Hm" in
          apply bind_Ok in H as (? & ? & Hm & H); inv_leaf Hm;
          try (cbn [m_primitive_deps with_primitives alloc] in *; congruence)).

Section Missing.
Variable V : vendor.

Lemma build_concat_at_missing pd ds index st u st' :
  m_primitive_deps st !! index = None ->
  build_concat_at V pd ds index st <> Ok u st'.
Proof.
  intros Hnone H. unfold build_concat_at in H.
  apply bind_Ok in H as (pds & st1 & Hpds & H).
  apply for_each_primitive_desc in Hpds as ->.
  apply bind_Ok in H as (ops & st2 & Hops & H).
  destruct ds as [|d ds]; cbn [for_each] in Hops.
  - apply ret_Ok in Hops as [-> ->]. find_missing_deps H Hnone.
  - apply bind_Ok in Hops as (? & ? & Hb & _). find_missing_deps Hb Hnone.
Qed.

(** X15. A rebuild on an index that has no dependency list never returns:
    it reads [m_primitive_deps[index][i]] of a vector that does not
    exist. *)
Theorem rebuild_needs_dependencies r k index st u st' :
  rebuild_kind r = Some k ->
  m_primitive_deps st !! index = None ->
  run_rebuild V r index st <> Ok u st'.
Proof.
  intros Hk Hnone H.
  destruct r; cbn in Hk; try discriminate; cbn [run_rebuild] in H;
    try (exact (build_concat_at_missing _ _ _ _ _ _ Hnone H));
    revert H; unfold_builders; intros H; find_missing_deps H Hnone.
Qed.

End Missing.

Section Escapes.
Variable V : vendor.

Lemma throws_bind {A B} (m : M A) (k : A -> M B) :
  throws_mkldnn_error m -> (forall a, throws_mkldnn_error (k a)) ->
  throws_mkldnn_error (bind m k).
Proof.
  intros Hm Hk st e st' H.
  apply bind_Throw in H as [H|(a & st1 & _ & H)]; [exact (Hm _ _ _ H)|exact (Hk _ _ _ _ H)].
Qed.

Lemma throws_for_each {A B} (body : nat -> A -> M B) v :
  (forall i a, throws_mkldnn_error (body i a)) ->
  forall i, throws_mkldnn_error (for_each body i v).
Proof.
  intros Hbody. induction v as [|a v IH]; intros i; cbn [for_each].
  - intros st e st' H. discriminate H.
  - apply throws_bind; [apply Hbody|intros b].
    apply throws_bind; [apply IH|intros bs]. intros st e st' H. discriminate H.
Qed.

Lemma throws_new_primitive p : throws_mkldnn_error (new_primitive V p).
Proof.
  intros st e st' H. apply new_primitive_Throw in H as (message & _ & -> & _). eauto.
Qed.

Lemma throws_new_primitive_desc pd : throws_mkldnn_error (new_primitive_desc V pd).
Proof.
  intros st e st'. unfold new_primitive_desc.
  destruct (rejects V _) as [message|]; [|discriminate]. intros [= <- <-]. eauto.
Qed.

Lemma throws_never {A} (m : M A) :
  (forall st e st', m st <> Throw e st') -> throws_mkldnn_error m.
Proof. intros Hm st e st' H. destruct (Hm _ _ _ H). Qed.

End Escapes.

Ltac throws_walk :=
  repeat
    lazymatch goal with
    | |- throws_mkldnn_error (bind _ _) => apply throws_bind; [|intro]
    | |- throws_mkldnn_error (for_each _ _ _) => apply throws_for_each; intros
    | |- throws_mkldnn_error (if ?b then _ else _) => destruct b
    | |- throws_mkldnn_error (match ?x with _ => _ end) => destruct x
    | |- throws_mkldnn_error (new_primitive _ _) => apply throws_new_primitive
    | |- throws_mkldnn_error (new_primitive_desc _ _) => apply throws_new_primitive_desc
    | |- throws_mkldnn_error _ =>
        apply throws_never;
        let st := fresh "st" in let e := fresh "e" in let st' := fresh "st'" in
        intros st e st';
        unfold build_memory_primitive_at, insert_primitive, primitives_deref,
          primitives_size, primitives_resize, primitives_store, deps_assign, deps_at,
          deps_store_at, deps_push_back, new_workspace, insert_workspace, ret;
        repeat case_match; discriminate
    end.

Section Escapes2.
Variable V : vendor.

(** X10. No member function other than the three with a [try] block ever
    throws anything but the vendor's own [mkldnn::error]: neither the other
    construct operations nor any rebuild turns a rejection into an
    [ngraph_error]. *)
Theorem vendor_errors_escape :
  (forall c st e st',
      has_try_block c = false ->
      run_construct V c st = Throw e st' -> exists message, e = mkldnn_error message) /\
  (forall r index st e st',
      run_rebuild V r index st = Throw e st' -> exists message, e = mkldnn_error message).
Proof.
  split.
  - intros c st e st' Htry. revert st e st'.
    change (throws_mkldnn_error (run_construct V c)).
    destruct c; try discriminate Htry; cbn [run_construct]; unfold_builders;
      unfold build_memory_primitive; throws_walk.
  - intros r index st e st'. revert st e st'.
    change (throws_mkldnn_error (run_rebuild V r index)).
    destruct r; cbn [run_rebuild]; unfold_builders;
      unfold build_memory_primitive_at; throws_walk.
Qed.

(** X16. [build_memory_primitive]: when the vendor accepts the descriptor,
    the index-returning overload appends one slot holding a new memory
    primitive of that descriptor and returns its index, and the in-place
    overload puts such a primitive into slot [index] and leaves every other
    slot alone, provided [index] is a position of the registry (writing past
    the end is undefined); when the vendor rejects it, both throw its
    [mkldnn::error] and leave the emitter as it was. *)
Theorem build_memory_primitive_stores desc st :
  match rejects V (call_primitive (memory desc)) with
  | None =>
      (exists st',
          build_memory_primitive V desc st = Ok (length (m_mkldnn_primitives st)) st' /\
          m_mkldnn_primitives st'
          = m_mkldnn_primitives st ++ [Some (length (heap st))] /\
          primitive_at st' (length (m_mkldnn_primitives st)) = Some (memory desc)) /\
      (forall index,
          index < length (m_mkldnn_primitives st) ->
          exists st',
            build_memory_primitive_at V desc index st = Ok tt st' /\
            primitive_at st' index = Some (memory desc) /\
            length (m_mkldnn_primitives st') = length (m_mkldnn_primitives st) /\
            forall j, j <> index ->
                      m_mkldnn_primitives st' !! j = m_mkldnn_primitives st !! j) /\
      (forall index,
          length (m_mkldnn_primitives st) <= index ->
          build_memory_primitive_at V desc index st = Undefined)
  | Some message =>
      build_memory_primitive V desc st = Throw (mkldnn_error message) st /\
      forall index,
        build_memory_primitive_at V desc index st = Throw (mkldnn_error message) st
  end.
Proof.
  unfold build_memory_primitive, build_memory_primitive_at, bind, new_primitive,
    insert_primitive, primitives_store, ret.
  destruct (rejects V _) as [message|]; [auto|].
  cbn [m_mkldnn_primitives alloc with_primitives]. split; [|split].
  - rewrite length_app. cbn [length].
    replace (length (m_mkldnn_primitives st) + 1 - 1)
      with (length (m_mkldnn_primitives st)) by lia.
    eexists. split; [reflexivity|]. split; [reflexivity|].
    unfold primitive_at. cbn. rewrite lookup_app_here. cbn.
    rewrite lookup_app_here. reflexivity.
  - intros index Hlt. case_decide; [|lia]. eexists. split; [reflexivity|].
    unfold primitive_at. cbn. rewrite list_lookup_insert_eq by exact Hlt.
    rewrite lookup_app_here. split; [reflexivity|].
    split; [apply length_insert|]. intros j Hj.
    apply list_lookup_insert_ne. congruence.
  - intros index Hge. case_decide; [lia|reflexivity].
Qed.

End Escapes2.

Section RebuildSafe.
Variable V : vendor.
Context (ds : list (nat * nat * list nat)).

Lemma rebuild_safe_bind {A B} Rg L (m : M A) (k : A -> M B) :
  rebuild_safe ds Rg L m -> (forall a, rebuild_safe ds Rg L (k a)) ->
  rebuild_safe ds Rg L (bind m k).
Proof.
  intros Hm Hk st Hds HRg HL. unfold bind. specialize (Hm st Hds HRg HL).
  destruct (m st) as [a st1|e st1|]; [|exact Hm|exact Hm].
  destruct Hm as (Hds1 & HRg1 & HL1). exact (Hk a st1 Hds1 HRg1 HL1).
Qed.

(** A statement that leaves the registry and the dependency table
    alone. *)
Lemma rebuild_safe_quiet {A} Rg L (m : M A) :
  (forall st, match m st with
              | Ok _ st' | Throw _ st' =>
                  m_mkldnn_primitives st' = m_mkldnn_primitives st /\
                  m_primitive_deps st' = m_primitive_deps st
              | Undefined => False
              end) ->
  rebuild_safe ds Rg L m.
Proof.
  intros Hq st Hds HRg HL. specialize (Hq st).
  destruct (m st) as [a st1|e st1|]; [| |exact Hq]; destruct Hq as [Hp Hd];
    unfold deps_ok, live; rewrite Hp, Hd; auto.
Qed.

Lemma rebuild_safe_deps_at {B} Rg L index n ws i (k : nat -> M B) :
  (index, n, ws) ∈ ds -> i < n -> i ∉ ws ->
  (forall v, rebuild_safe ds (v :: Rg) L (k v)) ->
  rebuild_safe ds Rg L (bind (deps_at index i) k).
Proof.
  intros Hin Hi Hws Hk st Hds HRg HL. unfold bind, deps_at.
  pose proof Hds as Hds'. rewrite Forall_forall in Hds'.
  destruct (Hds' _ Hin) as (_ & l & Hl & Hlen & Hrange). cbn in Hl, Hlen, Hrange.
  rewrite Hl.
  destruct (l !! i) as [v|] eqn:Hv; [|apply lookup_ge_None in Hv; lia].
  assert (HRg1 : Forall (fun v => v < length (m_mkldnn_primitives st)) (v :: Rg)).
  { constructor; [exact (Hrange i v Hi Hv Hws)|exact HRg]. }
  specialize (Hk v st Hds HRg1 HL).
  destruct (k v st) as [b st1|e st1|]; [| |exact Hk];
    destruct Hk as (Hds1 & HRg2 & HL1); (split; [exact Hds1|split; [|exact HL1]]);
    exact (Forall_inv_tail HRg2).
Qed.

Lemma live_insert st v o j :
  live st j ->
  live (with_primitives (fun l => <[v := Some o]> l) st) j.
Proof.
  intros [o' Ho']. unfold live. cbn.
  destruct (decide (j = v)) as [->|Hne].
  - exists o. apply list_lookup_insert_eq. apply lookup_lt_Some in Ho'. exact Ho'.
  - exists o'. rewrite list_lookup_insert_ne by congruence. exact Ho'.
Qed.

Lemma deps_ok_store index n ws st v o p :
  deps_ok index n ws st ->
  deps_ok index n ws (with_primitives (fun l => <[v := o]> l) (alloc p st)).
Proof.
  unfold deps_ok. cbn. rewrite length_insert. auto.
Qed.

(** [build_memory_primitive(desc, v)] with [v] a position of the
    registry: slot [v] holds an object afterwards. *)
Lemma rebuild_safe_store_memory {B} Rg L desc v (k : M B) :
  v ∈ Rg ->
  rebuild_safe ds Rg (v :: L) k ->
  rebuild_safe ds Rg L (bind (build_memory_primitive_at V desc v) (fun _ => k)).
Proof.
  intros Hv Hk st Hds HRg HL.
  unfold bind at 1, build_memory_primitive_at, bind, new_primitive, primitives_store.
  destruct (rejects V _); [auto|].
  cbn [m_mkldnn_primitives alloc].
  pose proof HRg as HRg'. rewrite Forall_forall in HRg'. specialize (HRg' v Hv).
  case_decide; [|lia].
  match goal with |- context [k ?s] => set (st1 := s) end.
  assert (Hds1 : Forall (fun d => deps_ok d.1.1 d.1.2 d.2 st1) ds).
  { eapply Forall_impl; [exact Hds|]. intros d. apply deps_ok_store. }
  assert (HRg1 : Forall (fun v => v < length (m_mkldnn_primitives st1)) Rg).
  { subst st1. cbn. rewrite length_insert. exact HRg. }
  assert (HL1 : Forall (live st1) (v :: L)).
  { constructor.
    - eexists. subst st1. cbn. apply list_lookup_insert_eq. exact HRg'.
    - eapply Forall_impl; [exact HL|]. intros j Hj.
      destruct Hj as [o' Ho']. subst st1. apply (live_insert (alloc _ st)).
      exists o'. exact Ho'. }
  specialize (Hk st1 Hds1 HRg1 HL1).
  destruct (k st1) as [b st2|e st2|]; [| |exact Hk];
    destruct Hk as (Hds2 & HRg2 & HL2); (split; [exact Hds2|split; [exact HRg2|]]);
    exact (Forall_inv_tail HL2).
Qed.

Lemma rebuild_safe_deref Rg L v : v ∈ L -> rebuild_safe ds Rg L (primitives_deref v).
Proof.
  intros Hv st Hds HRg HL. unfold primitives_deref.
  pose proof HL as HL'. rewrite Forall_forall in HL'. destruct (HL' v Hv) as [o Ho].
  rewrite Ho. auto.
Qed.

(** [m_mkldnn_primitives[index] = new ...] *)
Lemma rebuild_safe_new_store_then {B} Rg L p index n ws (k : M B) :
  (index, n, ws) ∈ ds ->
  rebuild_safe ds Rg L k ->
  rebuild_safe ds Rg L (o <- new_primitive V p ;; run primitives_store index o ;; k).
Proof.
  intros Hin Hk st Hds HRg HL.
  unfold bind at 1, new_primitive.
  destruct (rejects V _); [auto|].
  unfold bind, primitives_store. cbn [m_mkldnn_primitives alloc].
  pose proof Hds as Hds'. rewrite Forall_forall in Hds'.
  destruct (Hds' _ Hin) as (Hlt & _). cbn in Hlt.
  case_decide; [|lia].
  match goal with |- context [k ?s] => set (st1 := s) end.
  apply Hk.
  - eapply Forall_impl; [exact Hds|]. intros d. apply deps_ok_store.
  - subst st1. cbn. rewrite length_insert. exact HRg.
  - eapply Forall_impl; [exact HL|]. intros j Hj.
    destruct Hj as [o' Ho']. subst st1. apply (live_insert (alloc _ st)).
    exists o'. exact Ho'.
Qed.

Lemma rebuild_safe_ret {A} Rg L (a : A) : rebuild_safe ds Rg L (ret a).
Proof. intros st Hds HRg HL. cbn. auto. Qed.

Lemma rebuild_safe_new_store Rg L p index n ws :
  (index, n, ws) ∈ ds ->
  rebuild_safe ds Rg L (o <- new_primitive V p ;; primitives_store index o).
Proof.
  intros Hin st Hds HRg HL.
  pose proof (rebuild_safe_new_store_then Rg L p index n ws (ret tt) Hin
                (rebuild_safe_ret Rg L tt) st Hds HRg HL) as H.
  unfold bind, ret in *. destruct (new_primitive V p st) as [o st1|e st1|]; [|exact H|exact H].
  destruct (primitives_store index o st1) as [[] st2|e st2|]; exact H.
Qed.

Lemma deps_ok_deps_store index n ws st j i x l :
  m_primitive_deps st !! j = Some l ->
  (x < length (m_mkldnn_primitives st) \/ (index = j -> i ∈ ws)) ->
  deps_ok index n ws st ->
  deps_ok index n ws (with_deps (fun m => <[j := <[i := x]> l]> m) st).
Proof.
  intros Hj Hx (Hlt & l0 & Hl0 & Hlen & Hrange). split; [exact Hlt|]. cbn.
  destruct (decide (index = j)) as [->|Hne].
  - rewrite lookup_insert_eq. rewrite Hj in Hl0. injection Hl0 as <-.
    eexists. split; [reflexivity|]. rewrite length_insert. split; [exact Hlen|].
    intros i' v Hi' Hv Hws. destruct (decide (i' = i)) as [->|Hi].
    + rewrite list_lookup_insert_eq in Hv by lia. injection Hv as <-.
      destruct Hx as [Hx|Hx]; [exact Hx|]. destruct (Hws (Hx eq_refl)).
    + rewrite list_lookup_insert_ne in Hv by congruence. eauto.
  - rewrite lookup_insert_ne by congruence. eauto.
Qed.

(** [m_primitive_deps[index][i] = x] *)
Lemma rebuild_safe_deps_store {B} Rg L index n ws i x (k : M B) :
  (index, n, ws) ∈ ds -> i < n ->
  (x ∈ Rg \/ Forall (fun d => d.1.1 = index -> i ∈ d.2) ds) ->
  rebuild_safe ds Rg L k ->
  rebuild_safe ds Rg L (bind (deps_store_at index i x) (fun _ => k)).
Proof.
  intros Hin Hi Hx Hk st Hds HRg HL. unfold bind, deps_store_at.
  pose proof Hds as Hds'. rewrite Forall_forall in Hds'.
  destruct (Hds' _ Hin) as (_ & l & Hl & Hlen & _). cbn in Hl, Hlen.
  rewrite Hl. case_decide; [|lia]. apply Hk; [|exact HRg|exact HL].
  apply Forall_forall. intros d Hd. apply deps_ok_deps_store; [exact Hl| |exact (Hds' _ Hd)].
  destruct Hx as [Hx|Hx].
  - left. rewrite Forall_forall in HRg. exact (HRg _ Hx).
  - right. rewrite Forall_forall in Hx. intros E. exact (Hx _ Hd E).
Qed.

Lemma rebuild_safe_for_each {A B} Rg L bound (body : nat -> A -> M B) :
  (forall i a, i < bound -> rebuild_safe ds Rg L (body i a)) ->
  forall v j, j + length v <= bound -> rebuild_safe ds Rg L (for_each body j v).
Proof.
  intros Hbody v. induction v as [|a v IH]; intros j Hj; cbn [for_each].
  - apply rebuild_safe_ret.
  - cbn in Hj. apply rebuild_safe_bind; [apply Hbody; lia|intros b].
    apply rebuild_safe_bind; [apply IH; lia|intros bs]. apply rebuild_safe_ret.
Qed.

End RebuildSafe.

Ltac rebuild_safe_quiet_leaf :=
  apply rebuild_safe_quiet;
  let st := fresh "st" in
  intros st; unfold new_primitive, new_primitive_desc, new_workspace, insert_workspace;
  repeat case_match; simplify_eq; cbn; auto.

Ltac rebuild_safe_walk :=
  repeat
    lazymatch goal with
    | |- rebuild_safe _ _ _ (bind (deps_at _ _) _) =>
        eapply rebuild_safe_deps_at;
        [elem_of_explicit | cbn; lia | intros Hws; repeat (apply elem_of_cons in Hws as [Hws|Hws]; [discriminate Hws|]); apply elem_of_nil in Hws; exact Hws | intro]
    | |- rebuild_safe _ _ _ (bind (build_memory_primitive_at _ _ _) _) =>
        apply rebuild_safe_store_memory; [elem_of_explicit|]
    | |- rebuild_safe _ _ _ (bind (deps_store_at _ _ _) _) =>
        eapply rebuild_safe_deps_store;
        [ elem_of_explicit | cbn; lia
        | first [ solve [left; elem_of_explicit]
                | right; repeat constructor; intros _; elem_of_explicit ]
        | ]
    | |- rebuild_safe _ _ _ (bind (new_primitive _ _) (fun o => primitives_store _ o)) =>
        eapply rebuild_safe_new_store; elem_of_explicit
    | |- rebuild_safe _ _ _
           (bind (new_primitive _ _) (fun o => bind (primitives_store _ o) _)) =>
        eapply rebuild_safe_new_store_then; [elem_of_explicit|]
    | |- rebuild_safe _ _ _ (bind _ _) => apply rebuild_safe_bind; [|intro]
    | |- rebuild_safe _ _ _ (if ?b then _ else _) => destruct b
    | |- rebuild_safe _ _ _ (primitives_deref _) =>
        apply rebuild_safe_deref; elem_of_explicit
    | |- rebuild_safe _ _ _ (ret _) => apply rebuild_safe_ret
    | |- rebuild_safe _ _ _ _ => rebuild_safe_quiet_leaf
    end.

Section RebuildSafe2.
Variable V : vendor.

Lemma build_concat_at_safe pd ins index :
  rebuild_safe [(index, length ins + 1, [])] [] [] (build_concat_at V pd ins index).
Proof.
  unfold build_concat_at.
  apply rebuild_safe_bind.
  { apply (rebuild_safe_for_each _ _ _ (length ins)); [|cbn; lia].
    intros. rebuild_safe_walk. }
  intros pds. apply rebuild_safe_bind.
  { apply (rebuild_safe_for_each _ _ _ (length ins)); [|cbn; lia].
    intros i d Hi. rebuild_safe_walk. }
  intros ops. rebuild_safe_walk.
Qed.

Lemma run_rebuild_safe r k index :
  rebuild_kind r = Some k ->
  rebuild_safe (rebuild_reads r index) [] [] (run_rebuild V r index).
Proof.
  intros Hk. destruct r; cbn in Hk; try discriminate; unfold rebuild_reads;
    cbn [run_rebuild rebuild_kind workspace_buffer_position rebuild_forward_index
         dependencies_used app];
    try apply build_concat_at_safe;
    unfold_builders; rebuild_safe_walk.
Qed.

End RebuildSafe2.


Section Reserve.
Variable V : vendor.

Lemma deps_ok_weaken index n n' ws st :
  n' <= n -> deps_ok index n [] st -> deps_ok index n' ws st.
Proof.
  intros Hn (Hlt & l & Hl & Hlen & Hrange). split; [exact Hlt|].
  exists l. split; [exact Hl|]. split; [lia|].
  intros i v Hi Hv _. apply (Hrange i v); [lia|exact Hv|]. apply not_elem_of_nil.
Qed.

Lemma reserve_primitive_space_Ok count nw st index st1 :
  reserve_primitive_space count nw st = Ok index st1 ->
  1 <= count /\ (Z.of_nat count <= 2 ^ 31)%Z.
Proof.
  intros H. destruct (decide (count = 0 \/ (2 ^ 31 < Z.of_nat count)%Z)) as [Hbad|Hgood]; [|lia].
  exfalso. revert H. unfold reserve_primitive_space.
  unfold bind at 1 2. unfold primitives_size at 1, primitives_resize.
  rewrite resize_grow. case_decide; [discriminate|]. tauto.
Qed.

Lemma reserve_primitive_space_deps_ok count nw st index st1 :
  deps_in_range st ->
  reserve_primitive_space count nw st = Ok index st1 ->
  1 <= count - 1 + (if nw then 1 else 0) ->
  deps_ok index (count - 1 + (if nw then 1 else 0)) [] st1 /\
  deps_in_range st1 /\
  forall j n ws, deps_ok j n ws st -> deps_ok j n ws st1.
Proof.
  intros Hr H Hn. destruct (reserve_primitive_space_Ok _ _ _ _ _ H) as [Hone Hmax].
  rewrite reserve_primitive_space_run in H by assumption. injection H as <- <-.
  set (size := length (m_mkldnn_primitives st)).
  set (index := size + count - 1).
  set (pushes := seq size (count - 1) ++ (if nw then [0] else [])).
  assert (Hne : pushes <> []).
  { subst pushes. destruct nw; [destruct (seq size (count - 1)); discriminate|].
    destruct count as [|[|count]]; cbn in Hn; [lia|lia|discriminate]. }
  assert (Hnone : m_primitive_deps st !! index = None).
  { destruct (m_primitive_deps st !! index) eqn:E; [|reflexivity].
    assert (index < size) by (apply Hr; eauto). subst index. lia. }
  assert (Hsize : length (m_mkldnn_primitives (grow count st)) = size + count).
  { unfold grow. cbn. rewrite length_app, length_replicate. reflexivity. }
  assert (Hdeps : m_primitive_deps
                    (with_deps (push_back_all index pushes) (grow count st))
                  = <[index := pushes]> (m_primitive_deps st)).
  { cbn. rewrite push_back_all_snoc by exact Hne. rewrite Hnone. reflexivity. }
  split; [|split].
  - split; [cbn [m_mkldnn_primitives with_deps]; rewrite Hsize; subst index; lia|].
    exists pushes. rewrite Hdeps, lookup_insert_eq. split; [reflexivity|].
    split.
    { subst pushes. rewrite length_app, length_seq. destruct nw; cbn; lia. }
    intros i v _ Hv _. cbn [m_mkldnn_primitives with_deps]. rewrite Hsize.
    subst pushes. apply lookup_app_Some in Hv as [Hv|[_ Hv]].
    + apply lookup_seq in Hv as [-> Hi]. lia.
    + destruct nw; [|rewrite lookup_nil in Hv; discriminate].
      apply list_lookup_singleton_Some in Hv as [_ <-]. lia.
  - intros i Hi. cbn [m_mkldnn_primitives with_deps]. rewrite Hsize. rewrite Hdeps in Hi.
    apply lookup_insert_is_Some in Hi as [<-|[_ Hi]]; [subst index; lia|].
    apply Hr in Hi. fold size in Hi. lia.
  - intros j n ws (Hlt & l & Hl & Hlen & Hrange). fold size in Hlt.
    split; [cbn [m_mkldnn_primitives with_deps]; rewrite Hsize; lia|].
    exists l. rewrite Hdeps, lookup_insert_ne by (subst index; lia).
    split; [exact Hl|]. split; [exact Hlen|].
    intros i v Hi Hv Hws. cbn [m_mkldnn_primitives with_deps]. rewrite Hsize.
    specialize (Hrange i v Hi Hv Hws). fold size in Hrange. lia.
Qed.

Lemma dependencies_used_kind r k : rebuild_kind r = Some k -> 1 <= dependencies_used r.
Proof. destruct r; cbn; intros Hk; try discriminate; lia. Qed.

(** X17. A rebuild on an index that is prepared for it never has undefined
    behaviour, whether it returns or ends with an exception, and it leaves
    the index prepared for the next rebuild.  An index [i] is prepared when
    it is an index of the registry and the leading entries of its dependency
    list that the rebuild uses exist and are indices of the registry, the
    entry for the workspace buffer apart; [max_pooling_backward] uses the
    list of the forward primitive in the same way. *)
Theorem prepared_rebuild_is_defined r k index st :
  rebuild_kind r = Some k ->
  prepared_for r index st ->
  match run_rebuild V r index st with
  | Ok _ st' | Throw _ st' => prepared_for r index st'
  | Undefined => False
  end.
Proof.
  intros Hk Hp.
  pose proof (run_rebuild_safe V r k index Hk st Hp (Forall_nil_2 _) (Forall_nil_2 _)) as H.
  destruct (run_rebuild V r index st); [apply H|apply H|exact H].
Qed.

(** X18. [reserve_primitive_space(count, new_workspace)] on an emitter whose
    dependency table is in range, when it pushes at least one entry,
    prepares the index it returns: the index is in the registry and every
    entry of its dependency list is an index of the registry.  The
    dependency table stays in range and every index that was prepared
    stays prepared. *)
Theorem reserve_primitive_space_prepares count nw st index st1 :
  deps_in_range st ->
  reserve_primitive_space count nw st = Ok index st1 ->
  1 <= count - 1 + (if nw then 1 else 0) ->
  deps_ok index (count - 1 + (if nw then 1 else 0)) [] st1 /\
  deps_in_range st1 /\
  forall j n ws, deps_ok j n ws st -> deps_ok j n ws st1.
Proof. apply reserve_primitive_space_deps_ok. Qed.

(** X19. A rebuild on the index that [reserve_primitive_space] has just
    returned never has undefined behaviour when the reservation pushed at
    least as many entries as the rebuild uses; for [max_pooling_backward]
    the index of the forward primitive has to be prepared with four entries
    beforehand. *)
Theorem reserve_then_rebuild_is_defined r k count nw st index st1 :
  rebuild_kind r = Some k ->
  deps_in_range st ->
  (forall fwd_pool_index,
      rebuild_forward_index r = Some fwd_pool_index -> deps_ok fwd_pool_index 4 [3] st) ->
  reserve_primitive_space count nw st = Ok index st1 ->
  dependencies_used r <= count - 1 + (if nw then 1 else 0) ->
  run_rebuild V r index st1 <> Undefined.
Proof.
  intros Hk Hr Hfwd H Hn.
  pose proof (dependencies_used_kind r k Hk) as Htwo.
  destruct (reserve_primitive_space_deps_ok count nw st index st1 Hr H ltac:(lia))
    as (Hnew & _ & Hold).
  assert (Hp : prepared_for r index st1).
  { unfold prepared_for, rebuild_reads. rewrite Hk. cbn zeta.
    apply Forall_app. split.
    - destruct r; cbn [rebuild_forward_index]; try apply Forall_nil_2.
      cbn in Hk. injection Hk as <-. apply Forall_cons. split; [|apply Forall_nil_2].
      apply Hold, Hfwd. reflexivity.
    - apply Forall_cons. split; [|apply Forall_nil_2].
      eapply deps_ok_weaken; [exact Hn|exact Hnew]. }
  pose proof (run_rebuild_safe V r k index Hk st1 Hp (Forall_nil_2 _) (Forall_nil_2 _)) as Hs.
  intros Hu. rewrite Hu in Hs. exact Hs.
Qed.

End Reserve.

Lemma prepared_rebuild_is_defined_witness :
  match run_rebuild accept_all rnn_rebuild 8 rnn_reserved with
  | Ok _ st' | Throw _ st' => prepared_for rnn_rebuild 8 st'
  | Undefined => False
  end.
Proof.
  apply (prepared_rebuild_is_defined accept_all rnn_rebuild rnn_forward_k 8 rnn_reserved).
  - reflexivity.
  - change (Forall (fun d => deps_ok d.1.1 d.1.2 d.2 rnn_reserved) [(8, 9, [8])]).
    apply Forall_cons. split; [|apply Forall_nil_2].
    apply (deps_ok_weaken 8 9 9 [8] rnn_reserved); [lia|].
    refine (proj1 (reserve_primitive_space_deps_ok 9 true empty_emitter 8 rnn_reserved
                     deps_in_range_empty _ _)).
    + vm_compute. reflexivity.
    + cbn. lia.
Defined.

Lemma reserve_primitive_space_prepares_witness :
  deps_ok 8 9 [] rnn_reserved /\
  deps_in_range rnn_reserved /\
  forall j n ws, deps_ok j n ws empty_emitter -> deps_ok j n ws rnn_reserved.
Proof.
  apply (reserve_primitive_space_prepares 9 true empty_emitter 8 rnn_reserved).
  - apply deps_in_range_empty.
  - vm_compute. reflexivity.
  - cbn. lia.
Defined.

Lemma reserve_then_rebuild_is_defined_witness :
  run_rebuild accept_all rnn_rebuild 8 rnn_reserved <> Undefined.
Proof.
  apply (reserve_then_rebuild_is_defined accept_all rnn_rebuild rnn_forward_k 9 true
           empty_emitter 8 rnn_reserved).
  - reflexivity.
  - apply deps_in_range_empty.
  - intros fwd_pool_index H. discriminate H.
  - vm_compute. reflexivity.
  - cbn. lia.
Defined.

Section Defined.
Variable V : vendor.

(** X8. A construct operation has undefined behaviour for exactly two
    kinds of argument: [reserve_primitive_space] with a count of 0 or above
    [2^31], and [build_dequantization] with an empty scale constant.  With
    any other argument, on any emitter and whatever the vendor does, it
    returns or throws; it never reads a slot that is null or past the end
    of the registry. *)
Theorem construct_undefined_iff c st :
  run_construct V c st = Undefined <-> ~ defined_arguments c.
Proof.
  split.
  - intros H Hc. exact (safe_defined _ st (run_construct_safe V c Hc) H).
  - intros Hn. destruct c; try (exfalso; apply Hn; exact I); cbn [run_construct].
    + destruct scale_const_op as [[|q l]|]; try (exfalso; apply Hn; exact I).
      reflexivity.
    + unfold reserve_primitive_space, bind, primitives_size, primitives_resize.
      case_decide; [reflexivity|]. exfalso. apply Hn. split; lia.
Qed.

End Defined.

(** ** The properties on concrete inputs *)

Lemma construct_binds_dependencies_witness : bound_to rnn_forward_k 8 rnn_constructed.
Proof.
  apply (construct_binds_dependencies accept_all rnn_construct rnn_forward_k
           empty_emitter 8 rnn_constructed).
  - reflexivity.
  - vm_compute. reflexivity.
Defined.

Lemma construct_undefined_iff_witness :
  run_construct accept_all (construct_reserve_primitive_space 0 true) empty_emitter
  = Undefined.
Proof.
  apply (proj2 (construct_undefined_iff accept_all
                  (construct_reserve_primitive_space 0 true) empty_emitter)).
  cbn. lia.
Defined.

Lemma try_blocks_wrap_the_primitive_witness :
  (exists md message,
      md ∈ [md_2x3; md_2x3; md_2x3] /\
      rejects reject_compute (call_primitive (memory md)) = Some message /\
      ngraph_error "Could not create mkldnn convolution unsupported"
      = mkldnn_error message) \/
  (exists message,
      rejects reject_compute
        (call_primitive
           (compute convolution_forward
              (Some (pd_op (convolution_forward_desc forward
                              (convolution_algo reject_compute) md_2x3 md_2x3 None md_2x3
                              [] [] [] [])
                           (Some (set_post_ops [] default_attr)) None))
              (seq (length (heap empty_emitter)) 3)))
      = Some message /\
      ngraph_error "Could not create mkldnn convolution unsupported"
      = ngraph_error ("Could not create mkldnn convolution " ++ message) /\
      m_mkldnn_primitives
        (state_after (build_convolution_forward reject_compute md_2x3 md_2x3 md_2x3
                        [] [] [] [] [] empty_emitter))
      = m_mkldnn_primitives empty_emitter ++ map Some (seq (length (heap empty_emitter)) 3) /\
      m_primitive_deps
        (state_after (build_convolution_forward reject_compute md_2x3 md_2x3 md_2x3
                        [] [] [] [] [] empty_emitter))
      = m_primitive_deps empty_emitter).
Proof.
  apply (proj1 (try_blocks_wrap_the_primitive reject_compute)
           md_2x3 md_2x3 md_2x3 [] [] [] [] [] empty_emitter).
  vm_compute. reflexivity.
Defined.

Lemma vendor_errors_escape_witness : exists message, mkldnn_error "unsupported" = mkldnn_error message.
Proof.
  apply (proj1 (vendor_errors_escape reject_compute)
           (construct_pooling_forward pooling_max md_2x3 md_2x3 [] [] [] [])
           empty_emitter (mkldnn_error "unsupported")
           (state_after (build_pooling_forward reject_compute pooling_max md_2x3 md_2x3
                           [] [] [] [] empty_emitter))).
  - reflexivity.
  - vm_compute. reflexivity.
Defined.

Lemma constructs_frame_the_registry_witness :
  (forall i l, m_primitive_deps rnn_rebuilt !! i = Some l ->
               i < length (m_mkldnn_primitives rnn_rebuilt)) /\
  (forall c,
      match run_construct accept_all c rnn_rebuilt with
      | Ok _ st' | Throw _ st' =>
          (exists l, m_mkldnn_primitives st' = m_mkldnn_primitives rnn_rebuilt ++ l) /\
          (forall i, i < length (m_mkldnn_primitives rnn_rebuilt) ->
                     m_primitive_deps st' !! i = m_primitive_deps rnn_rebuilt !! i)
      | Undefined => True
      end).
Proof.
  apply (constructs_frame_the_registry accept_all
           [Construct rnn_construct; Rebuild rnn_rebuild 8] rnn_rebuilt).
  vm_compute. reflexivity.
Defined.

Lemma constructs_only_release_everything_witness :
  held rnn_constructed = seq 0 (length (heap rnn_constructed)) /\
  destructor false rnn_constructed
  = map Release (seq 0 (length (heap rnn_constructed))) ++ [FreeVendorBuffers].
Proof.
  apply (constructs_only_release_everything accept_all [Construct rnn_construct]
           rnn_constructed false).
  - repeat constructor.
  - vm_compute. reflexivity.
Defined.

Lemma rebuild_needs_dependencies_witness :
  run_rebuild accept_all rnn_rebuild 3 rnn_constructed <> Ok tt rnn_constructed.
Proof.
  apply (rebuild_needs_dependencies accept_all rnn_rebuild rnn_forward_k 3
           rnn_constructed tt rnn_constructed).
  - reflexivity.
  - vm_compute. reflexivity.
Defined.

Lemma build_memory_primitive_stores_witness :
  (exists st',
      build_memory_primitive accept_all md_2x3 pooling_constructed = Ok 3 st' /\
      m_mkldnn_primitives st' = m_mkldnn_primitives pooling_constructed ++ [Some 3] /\
      primitive_at st' 3 = Some (memory md_2x3)) /\
  (exists st',
      build_memory_primitive_at accept_all md_2x3 1 pooling_constructed = Ok tt st' /\
      primitive_at st' 1 = Some (memory md_2x3) /\
      length (m_mkldnn_primitives st') = 3 /\
      forall j, j <> 1 ->
                m_mkldnn_primitives st' !! j = m_mkldnn_primitives pooling_constructed !! j) /\
  build_memory_primitive_at accept_all md_2x3 3 pooling_constructed = Undefined.
Proof.
  destruct (build_memory_primitive_stores accept_all md_2x3 pooling_constructed)
    as (Happend & Hstore & Hpast).
  split; [exact Happend|]. split.
  - apply (Hstore 1). vm_compute. lia.
  - apply (Hpast 3). vm_compute. lia.
Defined.

(** ** [get_primitive_deps] *)

#[export] Instance other_lists_preorder js : PreOrder (other_lists js).
Proof.
  split.
  - intros st i _. reflexivity.
  - intros st1 st2 st3 H1 H2 i Hi. rewrite H2, H1 by exact Hi. reflexivity.
Qed.

#[export] Instance keeps_list_preorder index : PreOrder (keeps_list index).
Proof.
  split.
  - intros st. split; [reflexivity|auto].
  - intros st1 st2 st3 [S1 K1] [S2 K2]. split; [etransitivity; eassumption|].
    intros Hr. destruct (K1 Hr) as [Hr2 L1]. destruct (K2 Hr2) as [Hr3 L2]. auto.
Qed.

#[export] Instance frames_keeps_list index : Coarser frames (keeps_list index).
Proof.
  intros st st' [E K]. split; [apply (coarser (R1 := extends)); exact E|].
  intros Hr. destruct (K Hr) as [Hr' Hsame]. split; [exact Hr'|].
  intros l Hl. rewrite Hsame; [exact Hl|]. apply Hr. eexists. exact Hl.
Qed.

(** A statement of a rebuild leaves the lists outside [js] alone. *)
Ltac other_lists_leaf :=
  idtac;
  let st := fresh "st" in
  let i := fresh "i" in
  let Hi := fresh "Hi" in
  intros st;
  unfold build_memory_primitive_at, bind, new_primitive, new_primitive_desc,
    new_workspace, insert_workspace, primitives_deref, primitives_store, deps_at,
    deps_store_at, ret, throw;
  repeat case_match; simplify_eq; try exact I;
  intros i Hi; cbn;
  first [ reflexivity
        | apply lookup_insert_ne; intros ->; apply Hi; elem_of_explicit ].

Section Recorded.
Variable V : vendor.

(** A rebuild touches no dependency list but that of its index and, for max
    pooling backward, that of the forward primitive. *)
Lemma run_rebuild_other_lists r index :
  respects
    (other_lists (index :: match rebuild_forward_index r with
                           | Some fwd_pool_index => [fwd_pool_index]
                           | None => []
                           end))
    (run_rebuild V r index).
Proof.
  destruct r; cbn [run_rebuild rebuild_forward_index]; unfold_builders;
    walk_with fail other_lists_leaf.
Qed.

Lemma run_call_keeps_list index c :
  ~ reassigns_dependencies index c -> respects (keeps_list index) (run_call V c).
Proof.
  destruct c as [c|r j]; cbn [run_call reassigns_dependencies]; intros Hno.
  - apply respects_bind; [apply _| |intros _; apply respects_ret; apply _].
    apply (respects_coarser frames (keeps_list index)), run_construct_frames.
  - intros st. pose proof (run_rebuild_keeps_range V r j st) as Hr.
    assert (Hl : match run_rebuild V r j st with
                 | Ok _ st' | Throw _ st' =>
                     forall l, m_primitive_deps st !! index = Some l ->
                               m_primitive_deps st' !! index = Some l
                 | Undefined => True
                 end).
    { destruct (decide (rebuild_kind r = Some rnn_forward_k \/
                        rebuild_kind r = Some max_pooling_backward)) as [Hws|Hquiet].
      - pose proof (run_rebuild_other_lists r j st) as Ho.
        assert (Hout : index ∉ j :: match rebuild_forward_index r with
                                    | Some fwd_pool_index => [fwd_pool_index]
                                    | None => []
                                    end).
        { destruct r; cbn in Hws, Hno |- *; try (destruct Hws; discriminate);
            intros Hin; apply Hno;
            repeat (apply elem_of_cons in Hin as [->|Hin]; [auto|]);
            apply elem_of_nil in Hin; contradiction. }
        destruct (run_rebuild V r j st); try exact I;
          intros l Hl; rewrite (Ho index Hout); exact Hl.
      - assert (Hs : respects same_shape (run_rebuild V r j)).
        { apply run_rebuild_same_shape; intros E; apply Hquiet; auto. }
        specialize (Hs st).
        destruct (run_rebuild V r j st); try exact I;
          destruct Hs as [_ Hs]; intros l Hl; rewrite Hs; exact Hl. }
    destruct (run_rebuild V r j st); try exact I;
      destruct Hr as [Hsz Hrg]; (split; [exact Hsz|]); intros H0; (split; [apply Hrg, H0|exact Hl]).
Qed.

Lemma run_calls_keep_list index cs :
  Forall (fun c => ~ reassigns_dependencies index c) cs ->
  forall st st', run_calls V cs st = Some st' -> keeps_list index st st'.
Proof.
  induction 1 as [|c cs Hc Hcs IH]; intros st st'; cbn [run_calls].
  - intros [= <-]. reflexivity.
  - pose proof (run_call_keeps_list index c Hc st) as Hk.
    destruct (run_call V c st) as [u st1|e st1|]; [| |discriminate];
      intros Hrest; apply IH in Hrest; etransitivity; eassumption.
Qed.

(** C9 (amended). [get_primitive_deps] throws [std::out_of_range], and
    leaves the emitter as it is, for an index without an entry.  For an
    index with an entry it returns the list of the table and changes
    nothing; that list is the one a construct or a reservation stored
    for as long as no rebuild has assigned its entries anew since: whatever
    else is called after the list was recorded, constructs, reservations and
    rebuilds, also ones that end with an exception, the list is returned
    as it was recorded, unless one of the calls is the rebuild of an rnn or a
    max pooling backward primitive on that index. *)
Theorem get_primitive_deps_recorded cs0 st cs st' index :
  run_calls V cs0 empty_emitter = Some st ->
  Forall (fun c => ~ reassigns_dependencies index c) cs ->
  run_calls V cs st = Some st' ->
  (m_primitive_deps st' !! index = None ->
   get_primitive_deps index st' = Throw std_out_of_range st') /\
  (forall l, m_primitive_deps st !! index = Some l ->
             get_primitive_deps index st' = Ok l st').
Proof.
  intros Hrun0 Hcs Hrun.
  apply (run_calls_invariant V keeps_range (run_call_keeps_range V)) in Hrun0.
  pose proof (proj2 Hrun0 deps_in_range_empty) as Hr.
  destruct (run_calls_keep_list index cs Hcs st st' Hrun) as [_ Hk].
  destruct (Hk Hr) as [_ Hkeep].
  unfold get_primitive_deps. split.
  - intros ->. reflexivity.
  - intros l Hl. rewrite (Hkeep l Hl). reflexivity.
Qed.

End Recorded.

Lemma get_primitive_deps_recorded_witness :
  get_primitive_deps 40 rnn_after_history = Throw std_out_of_range rnn_after_history /\
  get_primitive_deps 8 rnn_after_history = Ok [0; 1; 2; 3; 4; 5; 6; 7; 0] rnn_after_history.
Proof.
  split.
  - refine (proj1 (get_primitive_deps_recorded accept_all [Construct rnn_construct]
                     rnn_constructed rnn_history rnn_after_history 40 _ _ _) _).
    + vm_compute. reflexivity.
    + repeat constructor; cbn; [intros []|intros H; discriminate H].
    + vm_compute. reflexivity.
    + vm_compute. reflexivity.
  - refine (proj2 (get_primitive_deps_recorded accept_all [Construct rnn_construct]
                     rnn_constructed rnn_history rnn_after_history 8 _ _ _) _ _).
    + vm_compute. reflexivity.
    + repeat constructor; cbn; [intros []|intros H; discriminate H].
    + vm_compute. reflexivity.
    + vm_compute. reflexivity.
Defined.

(** C9, as stated, fails: the rebuild of an rnn primitive on its index
    assigns the workspace entry of the dependency list anew, and
    [get_primitive_deps] then returns a list that differs from the one
    stored at construction time. *)
Lemma get_primitive_deps_after_rebuild :
  run_construct accept_all rnn_construct empty_emitter = Ok 8 rnn_constructed /\
  run_rebuild accept_all rnn_rebuild 8 rnn_constructed = Ok tt rnn_rebuilt /\
  get_primitive_deps 8 rnn_constructed = Ok [0; 1; 2; 3; 4; 5; 6; 7; 0] rnn_constructed /\
  get_primitive_deps 8 rnn_rebuilt = Ok [0; 1; 2; 3; 4; 5; 6; 7; 1] rnn_rebuilt.
Proof. vm_compute. repeat split; reflexivity. Qed.

End EmitterFacts.
